(** * Markov-chain word generator: a shallow embedding of the generation engine

    Sources embedded here:
    - [script/generator/generator.mjs] (class [MarkovChainWordGenerator]),
    - [script/generator/sequencing/char-depth-sequencing-strategy.mjs]
      (class [CharDepthSequencingStrategy]).

    Modules these two import and that are not among the sources:
    [util/validation.mjs] ([isInteger]), [util/random-seed.mjs]
    ([RandomSeeded]), [sequencing/sequence.mjs] (the record [Sequence]),
    [sequencing/abstract-sequencing-strategy.mjs] ([getSequencesOfSet]) and
    [postprocessing/beginning-capitals-strategy.mjs].  The random number
    generator is a parameter of the engine; the others are small and are
    written down from the specification, each marked as such.

    Conventions of the embedding.
    - A JavaScript string is a [string]; [s.length] is [String.length s] and
      [s.substring(i, i + d)] is [substring i d s].  Case mapping is the ASCII
      one.
    - A JavaScript number that counts something (a frequency, a string length,
      an array index) is a [nat].  A JavaScript number that is a probability
      or a random draw is a rational [Q]; the arithmetic is the exact one
      (its results kept in lowest terms), binary rounding is not part of the
      model.  The value of [Math.round] is a [Z].
    - A call either completes normally, throws, or (for the one loop of the
      engine that has no bound of its own) uses up the fuel it was given.
    - The seeded random number generator is mutable state of the generator
      object; it is threaded explicitly through every call that draws from
      it. *)

From Stdlib Require Import List String Ascii Bool Arith ZArith.
From Stdlib Require Import QArith Qround Lia Lqa.
Import ListNotations.

Local Open Scope nat_scope.

(* ------------------------------------------------------------------ *)
(** ** Completions *)

(** What a [throw] statement of the engine carries.  Each constructor stands
    for one [throw new Error(...)] site, or for the runtime's own
    [TypeError]. *)
Inductive error : Type :=
(* "`args.sampleSet` must not be undefined or an empty list!" *)
| SampleSetError
(* "`args.targetLengthMin` must be an integer, greater or equal to 1!" *)
| TargetLengthMinError
(* "`args.targetLengthMax` must be an integer, greater or equal to 1!" *)
| TargetLengthMaxError
(* "`args.sequencingStrategy` must be not be undefined!" *)
| SequencingStrategyError
(* "`args.depth` must be an integer, greater or equal to 1!" *)
| DepthError
(* raised by the runtime: assignment to a property of [undefined] *)
| TypeError
(* "Failed to get item for value '...' from list!" *)
| NoMatchingItem (value : Q)
(* "Maximum number of tries to produce unique word exceeded!" *)
| MaxTriesExceeded
(* the same message, then " Inner cause: " and the error caught *)
| MaxTriesExceededInner (cause : error).

Inductive completion (A : Type) : Type :=
| Normal (a : A)
| Throw (e : error)
| OutOfFuel.

Arguments Normal {A} a.
Arguments Throw {A} e.
Arguments OutOfFuel {A}.

(* ------------------------------------------------------------------ *)
(** ** The parts of the JavaScript runtime the engine calls *)

(** [String.prototype.toLowerCase], on ASCII code units. *)
Definition lower_ascii (c : ascii) : ascii :=
  let n := nat_of_ascii c in
  if (65 <=? n) && (n <=? 90) then ascii_of_nat (n + 32) else c.

Fixpoint toLowerCase (s : string) : string :=
  match s with
  | EmptyString => EmptyString
  | String c s' => String (lower_ascii c) (toLowerCase s')
  end.

(** [String.prototype.toUpperCase], on ASCII code units. *)
Definition upper_ascii (c : ascii) : ascii :=
  let n := nat_of_ascii c in
  if (97 <=? n) && (n <=? 122) then ascii_of_nat (n - 32) else c.

(** A number handed to a constructor: [None] is [undefined]. *)
Definition jsnumber : Type := option Q.

(** [parseInt] of a number written without an exponent: the integer part,
    towards zero.  [None] is [NaN], the value of [parseInt(undefined)]. *)
Definition parseInt (v : jsnumber) : option Z :=
  match v with
  | None => None
  | Some q => Some (Z.quot (Qnum q) (Zpos (Qden q)))
  end.

(** [parseInt(v) <= 0]; a comparison with [NaN] is false. *)
Definition parseInt_le_0 (v : jsnumber) : bool :=
  match parseInt v with
  | None => false
  | Some z => (z <=? 0)%Z
  end.

(** [Math.round]: the nearest integer, halves upwards. *)
Definition Math_round (x : Q) : Z := Qfloor (x + (1 # 2)).

(** Modelled from the spec: [util/validation.mjs] is not among the sources.
    The bounds and the depth "must be positive integers" and a "non-integer"
    value is refused, so [isInteger] holds of the numbers whose value is an
    integer and of nothing else. *)
Definition isInteger (v : jsnumber) : bool :=
  match v with
  | None => false
  | Some q => Qeq_bool q (inject_Z (Qfloor q))
  end.

(* ------------------------------------------------------------------ *)
(** ** Sequences *)

(** [sequencing/sequence.mjs]: the record built by [new Sequence({...})]. *)
Module Sequence.
Record t : Type := mk {
  chars : string;
  isBeginning : bool;
  isMiddle : bool;
  isEnding : bool
}.
End Sequence.

(** The capability every sequencing strategy offers to the generator. *)
Record SequencingStrategy : Type := {
  getSequencesOfSet : list string -> list Sequence.t
}.

(* ------------------------------------------------------------------ *)
(** ** CharDepthSequencingStrategy *)

Module CharDepthSequencingStrategy.

Record t : Type := mk {
  depth : nat;
  preserveCase : bool
}.

(** [constructor(depth = 1, preserveCase = false)].  The number that
    passes the check is an integer greater than zero; the object keeps it
    as the natural number it is. *)
Definition constructor (depth : jsnumber) (preserveCase : option bool)
  : completion t :=
  let depth := match depth with None => Some 1%Q | Some _ => depth end in
  if negb (isInteger depth) || parseInt_le_0 depth then
    Throw DepthError
  else
    Normal {| depth := match parseInt depth with
                       | Some z => Z.to_nat z
                       | None => 0
                       end;
              preserveCase := match preserveCase with
                              | Some b => b
                              | None => false
                              end |}.

(** The body of the [for] loop of [getSequencesOfSample], at offset [i]. *)
Definition sequenceAt (this : t) (sample : string) (i : nat) : Sequence.t :=
  let chars := substring i this.(depth) sample in
  let chars := if negb this.(preserveCase) then toLowerCase chars else chars in
  let hasFollowingChar := i + 1 <? String.length sample in
  {| Sequence.chars := chars;
     Sequence.isBeginning := i =? 0;
     Sequence.isMiddle := negb (i =? 0) && hasFollowingChar;
     Sequence.isEnding := negb hasFollowingChar |}.

(** [for (let i = ...; i < sample.length; i += this.depth)].  Every round
    moves [i] forward by [depth >= 1], so [sample.length] rounds are
    enough (see [loop_fuel_irrelevant]). *)
Fixpoint loop (fuel : nat) (this : t) (sample : string) (i : nat)
  : list Sequence.t :=
  match fuel with
  | 0 => []
  | S fuel' =>
      if i <? String.length sample then
        sequenceAt this sample i :: loop fuel' this sample (i + this.(depth))
      else []
  end.

Definition getSequencesOfSample (this : t) (sample : string)
  : list Sequence.t :=
  loop (String.length sample) this sample 0.

(** Modelled from the spec: [sequencing/abstract-sequencing-strategy.mjs]
    is not among the sources.  Its [getSequencesOfSet] "applies tokenize to
    each sample independently, in corpus order, concatenating results". *)
Definition getSequencesOfSet (this : t) (sampleSet : list string)
  : list Sequence.t :=
  flat_map (getSequencesOfSample this) sampleSet.

Definition strategy (this : t) : SequencingStrategy :=
  Build_SequencingStrategy (getSequencesOfSet this).

End CharDepthSequencingStrategy.

(* ------------------------------------------------------------------ *)
(** ** Spelling strategies *)

(** The capability every spelling strategy offers to the generator. *)
Record SpellingStrategy : Type := {
  apply : string -> string
}.

(** Modelled from the spec: [postprocessing/beginning-capitals-strategy.mjs]
    is not among the sources.  It "uppercases the first character of the
    word, leaves the remainder unchanged". *)
Definition BeginningCapitalsSpellingStrategy : SpellingStrategy :=
  {| apply := fun word =>
       match word with
       | EmptyString => EmptyString
       | String c rest => String (upper_ascii c) rest
       end |}.

(* ------------------------------------------------------------------ *)
(** ** The seeded random number generator *)

(** Modelled from the spec: [util/random-seed.mjs] is not among the sources.
    A [RandomSeeded] is "parameterized by a seed string"; "each call
    advances internal state"; [generate()] gives a number in [[0,1)] and
    [generate(min, max)] a number in [[min,max]].  The algorithm is left
    open: an implementation is a value [R] of the record below, and the
    engine takes it as a parameter. *)
Module RandomSeeded.

Record t : Type := {
  rng : Type;
  (** the state a non-empty seed string initialises *)
  seeded : string -> rng;
  (** the seed that stands in for a missing one *)
  fallbackSeed : string;
  (** [generate(min, max)]; both arguments may be left out *)
  generate : jsnumber -> jsnumber -> rng -> Q * rng
}.

(** Modelled from the spec: "construction with an undefined/empty seed
    must still produce a deterministic generator (fallback seed)". *)
Definition seedOrFallback (R : t) (seed : option string) : string :=
  match seed with
  | None => fallbackSeed R
  | Some s => if String.eqb s "" then fallbackSeed R else s
  end.

Definition new (R : t) (seed : option string) : rng R :=
  seeded R (seedOrFallback R seed).

End RandomSeeded.

(** What the spec promises of the numbers drawn. *)
Definition in_range (R : RandomSeeded.t) : Prop :=
  forall r : RandomSeeded.rng R,
    (0 <= fst (RandomSeeded.generate R None None r) < 1)%Q /\
    forall a b : Q, (a <= b)%Q ->
      (a <= fst (RandomSeeded.generate R (Some a) (Some b) r) <= b)%Q.

(* ------------------------------------------------------------------ *)
(** ** The records of [generator.mjs] *)

Module AggregatedSequence.
Record t : Type := mk {
  chars : string;
  frequencyBeginning : nat;
  frequencyMiddle : nat;
  frequencyEnding : nat;
  frequency : nat
}.
End AggregatedSequence.

Module AggregatedSequenceProbabilities.
Record t : Type := mk {
  sequence : AggregatedSequence.t;
  probabilityBeginning : Q;
  probabilityMiddle : Q;
  probabilityEnding : Q;
  probability : Q
}.
End AggregatedSequenceProbabilities.

Module ProbabilityAndSequence.
Record t : Type := mk {
  probability : Q;
  sequence : AggregatedSequence.t
}.
End ProbabilityAndSequence.

Inductive SEQUENCE_TYPES : Type := BEGINNING | MIDDLE | ENDING.

(** [a / b] on counts, as a number. *)
Definition ratio (a b : nat) : Q :=
  Qred (inject_Z (Z.of_nat a) / inject_Z (Z.of_nat b)).

(** [a + b] on numbers. *)
Definition plus (a b : Q) : Q := Qred (a + b).

(** [a <= b], [a < b] and [0 < x] on numbers. *)
Definition leq (a b : Q) : bool := Qle_bool a b.
Definition lt (a b : Q) : bool := negb (Qle_bool b a).
Definition positive (x : Q) : bool := lt 0 x.

(* ------------------------------------------------------------------ *)
(** ** A [Map] with string keys

    A JavaScript [Map] iterates in the order in which its keys were first
    set; [set] on a key that is present keeps the key where it is. *)

Definition Map (V : Type) : Type := list (string * V).

Fixpoint Map_get {V} (m : Map V) (key : string) : option V :=
  match m with
  | [] => None
  | (k, v) :: m' => if String.eqb k key then Some v else Map_get m' key
  end.

Fixpoint Map_set {V} (m : Map V) (key : string) (value : V) : Map V :=
  match m with
  | [] => [(key, value)]
  | (k, v) :: m' =>
      if String.eqb k key then (k, value) :: m'
      else (k, v) :: Map_set m' key value
  end.

Definition Map_values {V} (m : Map V) : list V := map snd m.

(* ------------------------------------------------------------------ *)
(** ** [Array.prototype.sort]

    The comparator's value goes through [ToNumber]; [undefined] becomes
    [NaN], and [NaN] counts as [+0].  The sort is stable. *)

Definition SortCompare {A} (comparefn : A -> A -> option Q) (x y : A) : Q :=
  match comparefn x y with
  | None => 0
  | Some v => v
  end.

Fixpoint sort_insert {A} (comparefn : A -> A -> option Q) (x : A)
  (sorted : list A) : list A :=
  match sorted with
  | [] => [x]
  | y :: rest =>
      if positive (SortCompare comparefn x y)
      then y :: sort_insert comparefn x rest
      else x :: sorted
  end.

Definition Array_sort {A} (comparefn : A -> A -> option Q) (l : list A)
  : list A :=
  fold_right (sort_insert comparefn) [] l.

(* ------------------------------------------------------------------ *)
(** ** Aggregation, probabilities, weighted tables *)

Import AggregatedSequence.

(** One round of the loop of [_aggregateSequences].  The object found in
    (or just put into) the map is updated in place; in the map this is the
    entry of its key, at the place the key already has. *)
Definition aggregateSequence (mapOfAggregated : Map AggregatedSequence.t)
  (sequence : Sequence.t) : Map AggregatedSequence.t :=
  let aggregatedSequence :=
    match Map_get mapOfAggregated (Sequence.chars sequence) with
    | Some found => found
    | None => {| chars := Sequence.chars sequence;
                 frequencyBeginning := 0;
                 frequencyMiddle := 0;
                 frequencyEnding := 0;
                 frequency := 0 |}
    end in
  Map_set mapOfAggregated (Sequence.chars sequence)
    {| chars := aggregatedSequence.(chars);
       frequencyBeginning :=
         if Sequence.isBeginning sequence
         then aggregatedSequence.(frequencyBeginning) + 1
         else aggregatedSequence.(frequencyBeginning);
       frequencyMiddle :=
         if Sequence.isMiddle sequence
         then aggregatedSequence.(frequencyMiddle) + 1
         else aggregatedSequence.(frequencyMiddle);
       frequencyEnding :=
         if Sequence.isEnding sequence
         then aggregatedSequence.(frequencyEnding) + 1
         else aggregatedSequence.(frequencyEnding);
       frequency := aggregatedSequence.(frequency) + 1 |}.

Definition _aggregateSequences (sequences : list Sequence.t)
  : list AggregatedSequence.t :=
  Map_values (fold_left aggregateSequence sequences []).

Definition _getAggregatedSequenceProbabilities
  (aggregatedSequences : list AggregatedSequence.t)
  : list AggregatedSequenceProbabilities.t :=
  let frequencyTotalBeginnings :=
    fold_left (fun total a => total + a.(frequencyBeginning))
      aggregatedSequences 0 in
  let frequencyTotalMiddles :=
    fold_left (fun total a => total + a.(frequencyMiddle))
      aggregatedSequences 0 in
  let frequencyTotalEndings :=
    fold_left (fun total a => total + a.(frequencyEnding))
      aggregatedSequences 0 in
  let frequencyTotal := List.length aggregatedSequences in
  map (fun aggregatedSequence =>
         let totalOccurrences :=
           aggregatedSequence.(frequencyBeginning)
           + aggregatedSequence.(frequencyMiddle)
           + aggregatedSequence.(frequencyEnding) in
         {| AggregatedSequenceProbabilities.sequence := aggregatedSequence;
            AggregatedSequenceProbabilities.probabilityBeginning :=
              if 0 <? aggregatedSequence.(frequencyBeginning)
              then ratio aggregatedSequence.(frequencyBeginning)
                         frequencyTotalBeginnings
              else 0%Q;
            AggregatedSequenceProbabilities.probabilityMiddle :=
              if 0 <? aggregatedSequence.(frequencyMiddle)
              then ratio aggregatedSequence.(frequencyMiddle)
                         frequencyTotalMiddles
              else 0%Q;
            AggregatedSequenceProbabilities.probabilityEnding :=
              if 0 <? aggregatedSequence.(frequencyEnding)
              then ratio aggregatedSequence.(frequencyEnding)
                         frequencyTotalEndings
              else 0%Q;
            AggregatedSequenceProbabilities.probability :=
              ratio totalOccurrences frequencyTotal |})
      aggregatedSequences.

(** The probability the filter of [_getWeightedProbabilities] looks at. *)
Definition probabilityOf (type : SEQUENCE_TYPES)
  (it : AggregatedSequenceProbabilities.t) : Q :=
  match type with
  | BEGINNING => AggregatedSequenceProbabilities.probabilityBeginning it
  | MIDDLE => AggregatedSequenceProbabilities.probabilityMiddle it
  | ENDING => AggregatedSequenceProbabilities.probabilityEnding it
  end.

(** [probabilities.filter(...).map(...)], the same in each of the three
    branches up to the field read. *)
Definition filtered (probabilities : list AggregatedSequenceProbabilities.t)
  (type : SEQUENCE_TYPES) : list ProbabilityAndSequence.t :=
  map (fun it =>
         {| ProbabilityAndSequence.sequence :=
              AggregatedSequenceProbabilities.sequence it;
            ProbabilityAndSequence.probability := probabilityOf type it |})
      (filter (fun it => positive (probabilityOf type it)) probabilities).

(** [(a, b) => { a.probability > b.probability ? 1 : -1 }]: the body is a
    block with an expression statement and no [return]; the call evaluates
    the conditional and yields [undefined]. *)
Definition comparefn (a b : ProbabilityAndSequence.t) : option Q :=
  let _ := if lt (ProbabilityAndSequence.probability b)
                 (ProbabilityAndSequence.probability a)
           then 1%Q else (-1)%Q in
  None.

Definition filteredAndSorted
  (probabilities : list AggregatedSequenceProbabilities.t)
  (type : SEQUENCE_TYPES) : list ProbabilityAndSequence.t :=
  Array_sort comparefn (filtered probabilities type).

(** The loop "Enrich with weights". *)
Fixpoint enrich (newProbability : Q) (l : list ProbabilityAndSequence.t)
  : list ProbabilityAndSequence.t :=
  match l with
  | [] => []
  | o :: rest =>
      let newProbability :=
        plus newProbability (ProbabilityAndSequence.probability o) in
      {| ProbabilityAndSequence.probability := newProbability;
         ProbabilityAndSequence.sequence := ProbabilityAndSequence.sequence o |}
      :: enrich newProbability rest
  end.

(** [a[a.length - 1].probability = 1.0]: on an empty array [a[-1]] is
    [undefined] and the assignment throws. *)
Fixpoint setLastProbability (weightedAndSorted : list ProbabilityAndSequence.t)
  : completion (list ProbabilityAndSequence.t) :=
  match weightedAndSorted with
  | [] => Throw TypeError
  | [o] => Normal [ {| ProbabilityAndSequence.probability := 1%Q;
                       ProbabilityAndSequence.sequence :=
                         ProbabilityAndSequence.sequence o |} ]
  | o :: rest =>
      match setLastProbability rest with
      | Normal rest' => Normal (o :: rest')
      | other => other
      end
  end.

Definition _getWeightedProbabilities
  (probabilities : list AggregatedSequenceProbabilities.t)
  (type : SEQUENCE_TYPES) : completion (list ProbabilityAndSequence.t) :=
  let filteredAndSorted := filteredAndSorted probabilities type in
  let weightedAndSorted := enrich 0%Q filteredAndSorted in
  setLastProbability weightedAndSorted.

(** The local function of [_generateSingleWord]. *)
Fixpoint _getMatchingSequence (weightedList : list ProbabilityAndSequence.t)
  (value : Q) : completion ProbabilityAndSequence.t :=
  match weightedList with
  | [] => Throw (NoMatchingItem value)
  | weightedItem :: rest =>
      if leq value (ProbabilityAndSequence.probability weightedItem)
      then Normal weightedItem
      else _getMatchingSequence rest value
  end.


(* ------------------------------------------------------------------ *)
(** ** Calls that draw random numbers

    A computation takes the state of [this._rng] and gives its completion
    together with the state it leaves behind.  A [throw] keeps the draws
    made before it. *)

Section Engine.

Variable R : RandomSeeded.t.

Let rng : Type := RandomSeeded.rng R.

Definition M (A : Type) : Type := rng -> completion A * rng.

Definition ret {A} (a : A) : M A := fun r => (Normal a, r).

Definition bind {A B} (m : M A) (k : A -> M B) : M B :=
  fun r =>
    match m r with
    | (Normal a, r') => k a r'
    | (Throw e, r') => (Throw e, r')
    | (OutOfFuel, r') => (OutOfFuel, r')
    end.

(** A call that cannot draw: its completion, the state untouched. *)
Definition lift {A} (c : completion A) : M A := fun r => (c, r).

Definition throw {A} (e : error) : M A := lift (Throw e).

(** [this._rng.generate(min, max)]. *)
Definition rng_generate (min max : jsnumber) : M Q :=
  fun r => let (x, r') := RandomSeeded.generate R min max r in (Normal x, r').

Notation "x <- m ;; k" := (bind m (fun x => k))
  (at level 61, m at next level, right associativity).

(* ------------------------------------------------------------------ *)
(** ** [_generateSingleWord] *)

(** [while (charactersLength < targetLength) { ... }].  The loop has no
    bound of its own (a middle sequence may have no characters); [fuel]
    bounds the rounds. *)
Fixpoint middleSequences (fuel : nat)
  (probableMiddles : list ProbabilityAndSequence.t) (targetLength : Z)
  (resultingSequences : list AggregatedSequence.t) (charactersLength : nat)
  : M (list AggregatedSequence.t) :=
  if (Z.of_nat charactersLength <? targetLength)%Z then
    match fuel with
    | 0 => lift OutOfFuel
    | S fuel' =>
        rndMiddle <- rng_generate None None ;;
        middle <- lift (_getMatchingSequence probableMiddles rndMiddle) ;;
        let middleSequence := ProbabilityAndSequence.sequence middle in
        middleSequences fuel' probableMiddles targetLength
          (resultingSequences ++ [middleSequence])
          (charactersLength + String.length middleSequence.(chars))
    end
  else ret resultingSequences.

Definition _generateSingleWord (fuel : nat)
  (probableBeginnings probableMiddles probableEndings
     : list ProbabilityAndSequence.t)
  (minLength maxLength : jsnumber) : M string :=
  let resultingSequences := [] in
  x <- rng_generate minLength maxLength ;;
  let targetLength := Math_round x in
  let charactersLength := 0 in
  rndBeginning <- rng_generate None None ;;
  beginning <- lift (_getMatchingSequence probableBeginnings rndBeginning) ;;
  let beginningSequence := ProbabilityAndSequence.sequence beginning in
  let resultingSequences := resultingSequences ++ [beginningSequence] in
  let charactersLength :=
    charactersLength + String.length beginningSequence.(chars) in
  rndEnding <- rng_generate None None ;;
  ending <- lift (_getMatchingSequence probableEndings rndEnding) ;;
  let endingSequence := ProbabilityAndSequence.sequence ending in
  let charactersLength :=
    charactersLength + String.length endingSequence.(chars) in
  resultingSequences <-
    middleSequences fuel probableMiddles targetLength
      resultingSequences charactersLength ;;
  let resultingSequences := resultingSequences ++ [endingSequence] in
  ret (String.concat "" (map chars resultingSequences)).

(* ------------------------------------------------------------------ *)
(** ** The generator object *)

Record args : Type := {
  sampleSet : option (list string);
  targetLengthMin : jsnumber;
  targetLengthMax : jsnumber;
  sequencingStrategy : option SequencingStrategy;
  seed : option string;
  spellingStrategy : option SpellingStrategy
}.

Record MarkovChainWordGenerator : Type := {
  _sampleSet : list string;
  _targetLengthMin : jsnumber;
  _targetLengthMax : jsnumber;
  _seed : option string;
  this_sequencingStrategy : SequencingStrategy;
  this_spellingStrategy : option SpellingStrategy;
  _rng : RandomSeeded.rng R
}.

Definition constructor (args : args) : completion MarkovChainWordGenerator :=
  match args.(sampleSet) with
  | None => Throw SampleSetError
  | Some samples =>
      if List.length samples =? 0 then Throw SampleSetError
      else if negb (isInteger args.(targetLengthMin))
              || parseInt_le_0 args.(targetLengthMin)
      then Throw TargetLengthMinError
      else if negb (isInteger args.(targetLengthMax))
              || parseInt_le_0 args.(targetLengthMax)
      then Throw TargetLengthMaxError
      else match args.(sequencingStrategy) with
           | None => Throw SequencingStrategyError
           | Some strategy =>
               Normal {| _sampleSet := samples;
                         _targetLengthMin := args.(targetLengthMin);
                         _targetLengthMax := args.(targetLengthMax);
                         _seed := args.(seed);
                         this_sequencingStrategy := strategy;
                         this_spellingStrategy := args.(spellingStrategy);
                         _rng := RandomSeeded.new R args.(seed) |}
           end
  end.

(* ------------------------------------------------------------------ *)
(** ** [generate] *)

Definition repetitionMaximum : nat := 1000.

(** [words.find(it => { return it === word; }) !== undefined] *)
Definition found (words : list string) (word : string) : bool :=
  match find (fun it => String.eqb it word) words with
  | Some _ => true
  | None => false
  end.

(** The [do { ... } while (...)] loop of one word.  [word] and [attempt] are
    the two variables of the loop; the value is the word the loop leaves
    in [word], with the final [attempt].  The loop throws once [attempt]
    reaches [repetitionMaximum], so [repetitionMaximum + 1] rounds of
    [gas] are never used up (see [uniqueWord_gas]). *)
Fixpoint uniqueWord (gas : nat) (singleWord : M string)
  (words : list string) (word : option string) (attempt : nat)
  : M (string * nat) :=
  match gas with
  | 0 => lift OutOfFuel
  | S gas' =>
      if repetitionMaximum <=? attempt then throw MaxTriesExceeded
      else fun r =>
        let continue (word : option string) (r' : rng) :=
          let attempt := attempt + 1 in
          match word with
          | None => uniqueWord gas' singleWord words None attempt r'
          | Some w =>
              if found words w
              then uniqueWord gas' singleWord words word attempt r'
              else (Normal (w, attempt), r')
          end in
        match singleWord r with
        | (Normal w, r') => continue (Some w) r'
        | (Throw e, r') =>
            if repetitionMaximum <=? attempt + 1
            then (Throw (MaxTriesExceededInner e), r')
            else continue word r'
        | (OutOfFuel, r') => (OutOfFuel, r')
        end
  end.

(** [for (let i = 0; i < howMany; i++) { ... words.push(word); }] *)
Fixpoint generateWords (singleWord : M string) (howMany : nat)
  (words : list string) : M (list string) :=
  match howMany with
  | 0 => ret words
  | S remaining =>
      wa <- uniqueWord (S repetitionMaximum) singleWord words None 0 ;;
      generateWords singleWord remaining (words ++ [fst wa])
  end.

(** The three tables, built once per call. *)
Definition tables (this : MarkovChainWordGenerator)
  : completion (list ProbabilityAndSequence.t
                * list ProbabilityAndSequence.t
                * list ProbabilityAndSequence.t) :=
  let sequences :=
    getSequencesOfSet this.(this_sequencingStrategy) this.(_sampleSet) in
  let aggregatedSequences := _aggregateSequences sequences in
  let probabilities :=
    _getAggregatedSequenceProbabilities aggregatedSequences in
  match _getWeightedProbabilities probabilities BEGINNING with
  | Normal probableBeginnings =>
      match _getWeightedProbabilities probabilities MIDDLE with
      | Normal probableMiddles =>
          match _getWeightedProbabilities probabilities ENDING with
          | Normal probableEndings =>
              Normal (probableBeginnings, probableMiddles, probableEndings)
          | Throw e => Throw e
          | OutOfFuel => OutOfFuel
          end
      | Throw e => Throw e
      | OutOfFuel => OutOfFuel
      end
  | Throw e => Throw e
  | OutOfFuel => OutOfFuel
  end.

(** The tail of [generate]: the spelling strategy, if one is defined. *)
Definition spell (this : MarkovChainWordGenerator) (words : list string)
  : list string :=
  match this.(this_spellingStrategy) with
  | Some strategy => map (fun it => apply strategy it) words
  | None => words
  end.

(** [generate(howMany)], as a computation on [this._rng]. *)
Definition generate_body (fuel : nat) (this : MarkovChainWordGenerator)
  (howMany : nat) : M (list string) :=
  t <- lift (tables this) ;;
  let '(probableBeginnings, probableMiddles, probableEndings) := t in
  words <-
    generateWords
      (_generateSingleWord fuel probableBeginnings probableMiddles
         probableEndings this.(_targetLengthMin) this.(_targetLengthMax))
      howMany [] ;;
  ret (spell this words).

(** [generate(howMany)] on the object: the completion and the object with
    the state its generator is left in. *)
Definition generate (fuel : nat) (this : MarkovChainWordGenerator)
  (howMany : nat) : completion (list string) * MarkovChainWordGenerator :=
  let (c, r) := generate_body fuel this howMany this.(_rng) in
  (c, {| _sampleSet := this.(_sampleSet);
         _targetLengthMin := this.(_targetLengthMin);
         _targetLengthMax := this.(_targetLengthMax);
         _seed := this.(_seed);
         this_sequencingStrategy := this.(this_sequencingStrategy);
         this_spellingStrategy := this.(this_spellingStrategy);
         _rng := r |}).

(** A series of calls on one object, in order. *)
Fixpoint generateAll (fuel : nat) (this : MarkovChainWordGenerator)
  (calls : list nat) : list (completion (list string)) :=
  match calls with
  | [] => []
  | howMany :: rest =>
      let (c, this') := generate fuel this howMany in
      c :: generateAll fuel this' rest
  end.

End Engine.

(* ------------------------------------------------------------------ *)
(** ** A generator of random numbers to run the engine with

    The state is what is left of the seed string.  A draw takes the next
    character and gives a number in [[0,1)] for it ([0] once the string is
    used up); [generate(min, max)] scales that number into [[min,max]]. *)

Definition tapeValue (c : ascii) : Q :=
  Qred (inject_Z (Z.of_nat (nat_of_ascii c mod 128)) / 128).

Definition tapeGenerate (min max : jsnumber) (tape : string) : Q * string :=
  let v := match tape with
           | EmptyString => 0%Q
           | String c _ => tapeValue c
           end in
  (match min, max with
   | Some a, Some b => Qred (a + v * (b - a))
   | _, _ => v
   end,
   match tape with
   | EmptyString => EmptyString
   | String _ rest => rest
   end).

Definition TapeRandom : RandomSeeded.t :=
  {| RandomSeeded.rng := string;
     RandomSeeded.seeded := fun seed => seed;
     RandomSeeded.fallbackSeed := "fallback";
     RandomSeeded.generate := tapeGenerate |}.

(* ------------------------------------------------------------------ *)
(** ** The assembly of one word, in the words of the specification

    "Draw a beginning token; append it.  Draw an ending token; reserve it;
    its length counts.  While [length < targetLength]: draw a middle token;
    append it.  Append the reserved ending token last.  Concatenate." *)

(** The characters of a list of sequences, counted. *)
Definition charsLength (l : list AggregatedSequence.t) : nat :=
  String.length (String.concat "" (map AggregatedSequence.chars l)).

Section Assembly.

Variable R : RandomSeeded.t.

(** [middleDraws middles target length r drawn length' r']: starting with
    [length] characters accounted for and the generator in state [r], the
    middle tokens [drawn] are drawn one after the other, each while the
    length is below the target; the drawing stops with [length'] and [r'],
    the first time the length is not below the target. *)
Inductive middleDraws (probableMiddles : list ProbabilityAndSequence.t)
  (targetLength : Z)
  : nat -> RandomSeeded.rng R -> list AggregatedSequence.t ->
    nat -> RandomSeeded.rng R -> Prop :=
| middleDraws_stop (length : nat) (r : RandomSeeded.rng R) :
    ~ (Z.of_nat length < targetLength)%Z ->
    middleDraws probableMiddles targetLength length r [] length r
| middleDraws_draw (length : nat) (r : RandomSeeded.rng R)
    (value : Q) (r1 : RandomSeeded.rng R) (middle : ProbabilityAndSequence.t)
    (rest : list AggregatedSequence.t) (length' : nat)
    (r' : RandomSeeded.rng R) :
    (Z.of_nat length < targetLength)%Z ->
    RandomSeeded.generate R None None r = (value, r1) ->
    _getMatchingSequence probableMiddles value = Normal middle ->
    middleDraws probableMiddles targetLength
      (length
       + String.length
           (AggregatedSequence.chars (ProbabilityAndSequence.sequence middle)))
      r1 rest length' r' ->
    middleDraws probableMiddles targetLength length r
      (ProbabilityAndSequence.sequence middle :: rest) length' r'.

Definition assembly
  (probableBeginnings probableMiddles probableEndings
     : list ProbabilityAndSequence.t)
  (minLength maxLength : jsnumber)
  (r : RandomSeeded.rng R) (word : string) (r' : RandomSeeded.rng R) : Prop :=
  exists (x : Q) (r1 : RandomSeeded.rng R)
         (rndBeginning : Q) (r2 : RandomSeeded.rng R)
         (beginning : ProbabilityAndSequence.t)
         (rndEnding : Q) (r3 : RandomSeeded.rng R)
         (ending : ProbabilityAndSequence.t)
         (middles : list AggregatedSequence.t) (length : nat),
    let beginningSequence := ProbabilityAndSequence.sequence beginning in
    let endingSequence := ProbabilityAndSequence.sequence ending in
    (* the target length *)
    RandomSeeded.generate R minLength maxLength r = (x, r1) /\
    (* the beginning, appended *)
    RandomSeeded.generate R None None r1 = (rndBeginning, r2) /\
    _getMatchingSequence probableBeginnings rndBeginning = Normal beginning /\
    (* the ending, reserved and counted *)
    RandomSeeded.generate R None None r2 = (rndEnding, r3) /\
    _getMatchingSequence probableEndings rndEnding = Normal ending /\
    (* the middles, while the length is below the target *)
    middleDraws probableMiddles (Math_round x)
      (String.length (AggregatedSequence.chars beginningSequence)
       + String.length (AggregatedSequence.chars endingSequence))
      r3 middles length r' /\
    (* the ending last, and the concatenation *)
    word = String.concat ""
             (map AggregatedSequence.chars
                ([beginningSequence] ++ middles ++ [endingSequence])).

(** [failedTries singleWord words n r r']: from state [r], [n] attempts in
    a row fail, each because the assembly throws or because its word is
    among [words] already; they leave the generator in state [r']. *)
Inductive failedTries (singleWord : M R string) (words : list string)
  : nat -> RandomSeeded.rng R -> RandomSeeded.rng R -> Prop :=
| failedTries_none (r : RandomSeeded.rng R) :
    failedTries singleWord words 0 r r
| failedTries_thrown (n : nat) (r r1 r' : RandomSeeded.rng R) (e : error) :
    singleWord r = (Throw e, r1) ->
    failedTries singleWord words n r1 r' ->
    failedTries singleWord words (S n) r r'
| failedTries_duplicate (n : nat) (r r1 r' : RandomSeeded.rng R) (w : string) :
    singleWord r = (Normal w, r1) ->
    found words w = true ->
    failedTries singleWord words n r1 r' ->
    failedTries singleWord words (S n) r r'.

End Assembly.

(** What the variable [word] of the retry loop holds when a round begins:
    nothing, or a word that made the loop go on. *)
Definition carried (words : list string) (word : option string) : Prop :=
  match word with
  | None => True
  | Some w => found words w = true
  end.

(** A number that is an integer greater than zero. *)
Definition positiveInteger (v : jsnumber) : Prop :=
  exists (q : Q) (z : Z), v = Some q /\ (q == inject_Z z)%Q /\ (0 < z)%Z.

(** The errors of the two constructors. *)
Definition configurationError (e : error) : Prop :=
  e = SampleSetError \/ e = TargetLengthMinError \/ e = TargetLengthMaxError
  \/ e = SequencingStrategyError \/ e = DepthError.

(* ------------------------------------------------------------------ *)
(** ** Inputs used in the examples below *)

(** The tables' input, for a strategy of the given depth on a sample set. *)
Definition probabilitiesOf (this : CharDepthSequencingStrategy.t)
  (sampleSet : list string) : list AggregatedSequenceProbabilities.t :=
  _getAggregatedSequenceProbabilities
    (_aggregateSequences
       (CharDepthSequencingStrategy.getSequencesOfSet this sampleSet)).

(** [new CharDepthSequencingStrategy(2)], the strategy of the tests. *)
Definition depthTwo : CharDepthSequencingStrategy.t :=
  CharDepthSequencingStrategy.mk 2 false.

(** The sample set of [test/generator-test.mjs]. *)
Definition testSampleSet : list string := ["Bob"; "Gobob"; "Bobby"]%string.

Definition testSeed : string := "Test1234567890".

(** Arguments in the shape the tests give them. *)
Definition argsOf (sampleSet : list string)
  (this : CharDepthSequencingStrategy.t) (min max : Q)
  (spelling : option SpellingStrategy) (seed : option string) : args :=
  {| sampleSet := Some sampleSet;
     targetLengthMin := Some min;
     targetLengthMax := Some max;
     sequencingStrategy := Some (CharDepthSequencingStrategy.strategy this);
     seed := seed;
     spellingStrategy := spelling |}.

(** Construct, then make the calls in order. *)
Definition constructAndGenerate (R : RandomSeeded.t) (fuel : nat) (a : args)
  (calls : list nat) : completion (list (completion (list string))) :=
  match constructor R a with
  | Normal this => Normal (generateAll R fuel this calls)
  | Throw e => Throw e
  | OutOfFuel => OutOfFuel
  end.

(** Whether the probabilities of a list of entries ascend. *)
Fixpoint ascending (l : list ProbabilityAndSequence.t) : bool :=
  match l with
  | a :: (b :: _) as rest =>
      leq (ProbabilityAndSequence.probability a)
          (ProbabilityAndSequence.probability b)
      && ascending rest
  | _ => true
  end.

(* ------------------------------------------------------------------ *)
(** ** The settings of a sequencing strategy

    The object [getSettings()] returns and
    [GeneratorSettings._getSequencingStrategy] reads; a key the object
    does not have reads as [undefined]. *)

Module Settings.
Record t : Type := mk {
  depth : jsnumber;
  preserveCase : option bool;
  delimiter : option string
}.
End Settings.

(** [CharDepthSequencingStrategy.getSettings()]. *)
Definition CharDepth_getSettings (this : CharDepthSequencingStrategy.t)
  : Settings.t :=
  {| Settings.depth :=
       Some (inject_Z (Z.of_nat (CharDepthSequencingStrategy.depth this)));
     Settings.preserveCase :=
       Some (CharDepthSequencingStrategy.preserveCase this);
     Settings.delimiter := None |}.

(* ------------------------------------------------------------------ *)
(** ** Counting sequences *)

(** The sequences with the given characters that carry a tag. *)
Definition occurrences (tag : Sequence.t -> bool) (chars : string)
  (sequences : list Sequence.t) : nat :=
  List.length
    (filter (fun t => String.eqb (Sequence.chars t) chars && tag t) sequences).

(** The record that counts the sequences with the given characters. *)
Definition aggregateOf (chars : string) (sequences : list Sequence.t)
  : AggregatedSequence.t :=
  {| AggregatedSequence.chars := chars;
     AggregatedSequence.frequencyBeginning :=
       occurrences Sequence.isBeginning chars sequences;
     AggregatedSequence.frequencyMiddle :=
       occurrences Sequence.isMiddle chars sequences;
     AggregatedSequence.frequencyEnding :=
       occurrences Sequence.isEnding chars sequences;
     AggregatedSequence.frequency :=
       occurrences (fun _ => true) chars sequences |}.

(** A list of strings without the repetitions: each string where it
    comes first. *)
Fixpoint firstOccurrences (l : list string) : list string :=
  match l with
  | [] => []
  | x :: rest =>
      x :: filter (fun y => negb (String.eqb x y)) (firstOccurrences rest)
  end.

(** The tag and the frequency that go with a type of sequence. *)
Definition tagOf (type : SEQUENCE_TYPES) : Sequence.t -> bool :=
  match type with
  | BEGINNING => Sequence.isBeginning
  | MIDDLE => Sequence.isMiddle
  | ENDING => Sequence.isEnding
  end.

Definition frequencyOf (type : SEQUENCE_TYPES) (a : AggregatedSequence.t)
  : nat :=
  match type with
  | BEGINNING => AggregatedSequence.frequencyBeginning a
  | MIDDLE => AggregatedSequence.frequencyMiddle a
  | ENDING => AggregatedSequence.frequencyEnding a
  end.

(** The sum of a list of numbers. *)
Definition sumQ (l : list Q) : Q := fold_right Qplus 0%Q l.

(** The probability of a type that the loop "Calculate the probabilities"
    gives a record, the totals being the sums of the three frequencies. *)
Definition shareOf (type : SEQUENCE_TYPES)
  (aggregated : list AggregatedSequence.t) (a : AggregatedSequence.t) : Q :=
  if 0 <? frequencyOf type a
  then ratio (frequencyOf type a)
             (list_sum (map (frequencyOf type) aggregated))
  else 0%Q.

(** The cumulative probability a table reaches before its entry [k]: that
    of the entry before, and [0] before the first. *)
Definition cumulativeBefore (table : list ProbabilityAndSequence.t) (k : nat)
  : Q :=
  match k with
  | 0 => 0%Q
  | S j =>
      match nth_error table j with
      | Some a => ProbabilityAndSequence.probability a
      | None => 0%Q
      end
  end.


(* ------------------------------------------------------------------ *)
(** ** What a word is made of *)

(** The sequences of a call of [generate]: those its sequencing strategy
    cuts the sample set into. *)
Definition sequencesOf {R : RandomSeeded.t}
  (this : MarkovChainWordGenerator R) : list Sequence.t :=
  getSequencesOfSet (this_sequencingStrategy R this) (_sampleSet R this).

(** The characters of some sequence that carries the tag of a type. *)
Definition taggedChars (type : SEQUENCE_TYPES) (sequences : list Sequence.t)
  (chars : string) : Prop :=
  exists t, In t sequences /\ Sequence.chars t = chars /\ tagOf type t = true.

(** A word put together from the characters of a beginning, of middles and
    of an ending, in this order. *)
Definition madeOf (sequences : list Sequence.t) (word : string) : Prop :=
  exists (beginning : string) (middles : list string) (ending : string),
    taggedChars BEGINNING sequences beginning /\
    Forall (taggedChars MIDDLE sequences) middles /\
    taggedChars ENDING sequences ending /\
    word = (beginning ++ String.concat "" middles ++ ending)%string.

(* ================================================================== *)
(** * Properties *)

(* ------------------------------------------------------------------ *)
(** ** Strings *)

Lemma toLowerCase_length (s : string) :
  String.length (toLowerCase s) = String.length s.
Proof.
  induction s as [|c s IH]; simpl; [reflexivity | now rewrite IH].
Qed.

Lemma substring_length (s : string) :
  forall i d, String.length (substring i d s) = Nat.min d (String.length s - i).
Proof.
  induction s as [|c s IH]; intros i d.
  - destruct i, d; simpl; lia.
  - destruct i as [|i].
    + destruct d as [|d]; simpl; [reflexivity|].
      rewrite IH. rewrite Nat.sub_0_r. reflexivity.
    + simpl. apply IH.
Qed.

Lemma nth_error_last {A} (l : list A) (dflt : A) :
  l <> [] -> nth_error l (List.length l - 1) = Some (last l dflt).
Proof.
  induction l as [|x l IH]; intro Hne; [congruence|].
  destruct l as [|y l]; [reflexivity|].
  replace (List.length (x :: y :: l) - 1) with (S (List.length (y :: l) - 1))
    by (simpl; lia).
  change (nth_error (y :: l) (List.length (y :: l) - 1)
          = Some (last (y :: l) dflt)).
  apply IH. discriminate.
Qed.

(* ------------------------------------------------------------------ *)
(** ** Tokenization by character depth *)

Module CharDepthFacts.
Import CharDepthSequencingStrategy.

Section Sample.

Variable this : CharDepthSequencingStrategy.t.
Variable sample : string.

Let L := String.length sample.
Let d := depth this.

Lemma sequenceAt_isEnding (i : nat) :
  Sequence.isEnding (sequenceAt this sample i) = true <-> L <= i + 1.
Proof.
  unfold sequenceAt; simpl. subst L.
  destruct (Nat.ltb_spec (i + 1) (String.length sample)); simpl; split;
    intros; try lia; try reflexivity; discriminate.
Qed.

Lemma sequenceAt_length (i : nat) :
  String.length (Sequence.chars (sequenceAt this sample i)) = Nat.min d (L - i).
Proof.
  unfold sequenceAt; simpl.
  destruct (negb (preserveCase this)); [rewrite toLowerCase_length|];
    apply substring_length.
Qed.

Hypothesis depth_pos : 1 <= depth this.

(** The [k]-th round of the loop started at [i] works at offset
    [i + k * depth], as long as that is inside the sample. *)
Lemma loop_nth_error :
  forall fuel i k,
    L - i <= fuel ->
    nth_error (loop fuel this sample i) k =
    if i + k * d <? L then Some (sequenceAt this sample (i + k * d)) else None.
Proof.
  subst L d.
  induction fuel as [|fuel IH]; intros i k Hfuel; simpl.
  - destruct (Nat.ltb_spec (i + k * depth this) (String.length sample)); [lia|].
    now destruct k.
  - destruct (Nat.ltb_spec i (String.length sample)) as [Hi|Hi].
    + destruct k as [|k]; simpl.
      * rewrite Nat.add_0_r.
        destruct (Nat.ltb_spec i (String.length sample)); [reflexivity | lia].
      * rewrite IH by lia.
        replace (i + depth this + k * depth this)
          with (i + (depth this + k * depth this)) by lia.
        reflexivity.
    + destruct (Nat.ltb_spec (i + k * depth this) (String.length sample)); [lia|].
      now destruct k.
Qed.

(** More fuel than the length of the sample changes nothing. *)
Lemma loop_fuel_irrelevant :
  forall fuel, L <= fuel ->
    loop fuel this sample 0 = getSequencesOfSample this sample.
Proof.
  intros fuel Hfuel. unfold getSequencesOfSample.
  apply nth_error_ext. intro k.
  rewrite !loop_nth_error by (subst L; lia). reflexivity.
Qed.

Lemma getSequencesOfSample_nth_error (k : nat) :
  nth_error (getSequencesOfSample this sample) k =
  if k * d <? L then Some (sequenceAt this sample (k * d)) else None.
Proof.
  unfold getSequencesOfSample. rewrite loop_nth_error by (subst L; lia).
  reflexivity.
Qed.

(** The last sequence of a non-empty sample: the round [k] whose offset is
    inside the sample while the next one is not. *)
Lemma final_sequence (dflt : Sequence.t) :
  1 <= L ->
  exists k,
    k * d < L /\ L <= S k * d /\
    List.length (getSequencesOfSample this sample) = S k /\
    last (getSequencesOfSample this sample) dflt = sequenceAt this sample (k * d).
Proof.
  intro HL.
  pose proof (getSequencesOfSample_nth_error 0) as H0.
  destruct (Nat.ltb_spec (0 * d) L) as [_|Hbad]; [|simpl in Hbad; lia].
  set (toks := getSequencesOfSample this sample) in *.
  assert (Hne : toks <> []) by (intro E; rewrite E in H0; discriminate).
  exists (List.length toks - 1).
  assert (Hlen : 1 <= List.length toks)
    by (destruct toks; [congruence | simpl; lia]).
  pose proof (nth_error_last toks dflt Hne) as Hlast.
  pose proof (getSequencesOfSample_nth_error (List.length toks - 1)) as Hk.
  fold toks in Hk. rewrite Hlast in Hk.
  pose proof (getSequencesOfSample_nth_error (List.length toks)) as Hn.
  fold toks in Hn.
  rewrite (proj2 (nth_error_None toks (List.length toks)) (le_n _)) in Hn.
  destruct (Nat.ltb_spec ((List.length toks - 1) * d) L); [|discriminate].
  destruct (Nat.ltb_spec (List.length toks * d) L); [discriminate|].
  replace (S (List.length toks - 1)) with (List.length toks) by lia.
  repeat split; try assumption; try lia. congruence.
Qed.

End Sample.
End CharDepthFacts.

(** A sample of even length cut in chunks of two has no sequence tagged as
    an ending: every offset is even, the last character sits at an odd one. *)
Lemma even_sample_no_ending (this : CharDepthSequencingStrategy.t)
  (sample : string) :
  CharDepthSequencingStrategy.depth this = 2 ->
  Nat.Even (String.length sample) ->
  forall t, In t (CharDepthSequencingStrategy.getSequencesOfSample this sample) ->
            Sequence.isEnding t = false.
Proof.
  intros Hd [h Hh] t Hin.
  apply In_nth_error in Hin as [k Hk].
  rewrite CharDepthFacts.getSequencesOfSample_nth_error in Hk by lia.
  destruct (Nat.ltb_spec (k * CharDepthSequencingStrategy.depth this)
              (String.length sample)); [|discriminate].
  injection Hk as <-.
  destruct (Sequence.isEnding _) eqn:E; [|reflexivity].
  apply CharDepthFacts.sequenceAt_isEnding in E. rewrite Hd in *. lia.
Qed.

(* ------------------------------------------------------------------ *)
(** ** Aggregation *)

Lemma Map_get_Forall {V} (P : V -> Prop) (m : Map V) (key : string) (v : V) :
  Forall (fun kv => P (snd kv)) m -> Map_get m key = Some v -> P v.
Proof.
  induction m as [|[k w] m IH]; simpl; intros HF Hget; [discriminate|].
  inversion HF; subst.
  destruct (String.eqb k key); [injection Hget as <-; assumption | auto].
Qed.

Lemma Map_set_Forall {V} (P : V -> Prop) (m : Map V) (key : string) (v : V) :
  Forall (fun kv => P (snd kv)) m -> P v ->
  Forall (fun kv => P (snd kv)) (Map_set m key v).
Proof.
  induction m as [|[k w] m IH]; simpl; intros HF Hv.
  - constructor; [assumption | constructor].
  - inversion HF; subst.
    destruct (String.eqb k key); constructor; auto.
Qed.

(** Sequences none of which is an ending aggregate to ending frequencies
    that are all zero. *)
Lemma aggregate_no_ending (sequences : list Sequence.t) :
  (forall t, In t sequences -> Sequence.isEnding t = false) ->
  forall a, In a (_aggregateSequences sequences) ->
            AggregatedSequence.frequencyEnding a = 0.
Proof.
  intros Hseq.
  assert (Hinv : forall m,
             Forall (fun kv => AggregatedSequence.frequencyEnding (snd kv) = 0) m ->
             Forall (fun kv => AggregatedSequence.frequencyEnding (snd kv) = 0)
                    (fold_left aggregateSequence sequences m)).
  { induction sequences as [|t ts IH]; intros m Hm; simpl; [assumption|].
    apply IH; [intros; apply Hseq; now right|].
    unfold aggregateSequence.
    apply (Map_set_Forall (fun a => AggregatedSequence.frequencyEnding a = 0));
      [assumption|]. simpl.
    rewrite (Hseq t (or_introl eq_refl)).
    destruct (Map_get m (Sequence.chars t)) as [found|] eqn:G; [|reflexivity].
    exact (Map_get_Forall
             (fun a => AggregatedSequence.frequencyEnding a = 0) _ _ _ Hm G). }
  intros a Ha. unfold _aggregateSequences, Map_values in Ha.
  apply in_map_iff in Ha as [[k v] [<- Hin]].
  specialize (Hinv [] (Forall_nil _)).
  rewrite Forall_forall in Hinv. exact (Hinv _ Hin).
Qed.

(** C10.  For a strategy of depth [d >= 1] and a sample of length [L >= 1]:
    some sequence is tagged as an ending exactly when the final chunk has
    one character, which is exactly when [d = 1] or [L mod d = 1]; only the
    final sequence can carry the tag; with [d = 2] a sample of even length
    has no ending at all, and a corpus of such samples aggregates to ending
    frequencies that are all zero. *)
Theorem CharDepth_ending_iff_final_chunk_single_char
  (this : CharDepthSequencingStrategy.t) (sample : string) (dflt : Sequence.t) :
  1 <= CharDepthSequencingStrategy.depth this ->
  1 <= String.length sample ->
  let d := CharDepthSequencingStrategy.depth this in
  let L := String.length sample in
  let sequences := CharDepthSequencingStrategy.getSequencesOfSample this sample in
  let someEnding :=
    exists t, In t sequences /\ Sequence.isEnding t = true in
  (someEnding <-> String.length (Sequence.chars (last sequences dflt)) = 1) /\
  (someEnding <-> d = 1 \/ L mod d = 1) /\
  (forall k t, nth_error sequences k = Some t ->
               Sequence.isEnding t = true -> S k = List.length sequences) /\
  (d = 2 -> Nat.Even L ->
   forall t, In t sequences -> Sequence.isEnding t = false) /\
  (d = 2 ->
   forall sampleSet,
     (forall s, In s sampleSet -> Nat.Even (String.length s)) ->
     forall a,
       In a (_aggregateSequences
               (CharDepthSequencingStrategy.getSequencesOfSet this sampleSet)) ->
       AggregatedSequence.frequencyEnding a = 0).
Proof.
  intros Hd HL d L sequences someEnding.
  destruct (CharDepthFacts.final_sequence this sample Hd dflt HL)
    as (k & Hk1 & Hk2 & Hlen & Hlast).
  fold sequences in Hlen, Hlast. fold d in Hk1, Hk2. fold L in Hk1, Hk2.
  (* an ending, if any, is the final sequence *)
  assert (Honly : forall j t, nth_error sequences j = Some t ->
                              Sequence.isEnding t = true -> j = k /\ L = k * d + 1).
  { intros j t Hj He. unfold sequences in Hj.
    rewrite CharDepthFacts.getSequencesOfSample_nth_error in Hj by assumption.
    fold d L in Hj.
    destruct (Nat.ltb_spec (j * d) L) as [Hjd|]; [|discriminate].
    injection Hj as <-.
    apply CharDepthFacts.sequenceAt_isEnding in He. fold d in He.
    assert (j * d + 1 = L) by (unfold L; lia).
    assert (k * d <= j * d) by lia.
    assert (j * d < S k * d) by lia.
    assert (j = k) by nia. subst j. split; [reflexivity | lia]. }
  assert (HlastIn : In (last sequences dflt) sequences).
  { apply nth_error_In with (n := k).
    replace k with (List.length sequences - 1) by lia.
    apply nth_error_last. intro E. rewrite E in Hlen. discriminate. }
  assert (Hiff : someEnding <-> L = k * d + 1).
  { split.
    - intros (t & Hin & He). apply In_nth_error in Hin as [j Hj].
      exact (proj2 (Honly j t Hj He)).
    - intro HLk. exists (last sequences dflt). split; [assumption|].
      rewrite Hlast. apply CharDepthFacts.sequenceAt_isEnding. lia. }
  repeat split.
  - intro Hsome. apply Hiff in Hsome. rewrite Hlast.
    rewrite CharDepthFacts.sequenceAt_length. fold d L. lia.
  - intro Hone. apply Hiff. rewrite Hlast in Hone.
    rewrite CharDepthFacts.sequenceAt_length in Hone. fold d L in Hone. nia.
  - intro Hsome. apply Hiff in Hsome.
    destruct (Nat.eq_dec d 1) as [|Hd1]; [now left | right].
    rewrite Hsome. rewrite Nat.add_comm. rewrite Nat.Div0.mod_add.
    apply Nat.mod_small. lia.
  - intros [Hd1 | Hmod]; apply Hiff.
    + nia.
    + pose proof (Nat.div_mod_eq L d) as Hdm. rewrite Hmod in Hdm.
      assert (d <> 1) by (intro E; rewrite E in Hmod; simpl in Hmod; discriminate).
      assert (k = L / d) by nia. subst k. lia.
  - intros j t Hj He. destruct (Honly j t Hj He) as [-> _]. lia.
  - intros Hd2 Heven. now apply even_sample_no_ending.
  - intros Hd2 sampleSet Hall. apply aggregate_no_ending.
    intros t Hin. unfold CharDepthSequencingStrategy.getSequencesOfSet in Hin.
    apply in_flat_map in Hin as (s & Hs & Hin).
    exact (even_sample_no_ending this s Hd2 (Hall s Hs) t Hin).
Qed.

Lemma CharDepth_ending_iff_final_chunk_single_char_witness :
  let this := CharDepthSequencingStrategy.mk 2 false in
  let sample := "Bob"%string in
  let dflt := Sequence.mk "" false false false in
  1 <= CharDepthSequencingStrategy.depth this /\
  1 <= String.length sample /\
  let d := CharDepthSequencingStrategy.depth this in
  let L := String.length sample in
  let sequences := CharDepthSequencingStrategy.getSequencesOfSample this sample in
  let someEnding :=
    exists t, In t sequences /\ Sequence.isEnding t = true in
  (someEnding <-> String.length (Sequence.chars (last sequences dflt)) = 1) /\
  (someEnding <-> d = 1 \/ L mod d = 1) /\
  (forall k t, nth_error sequences k = Some t ->
               Sequence.isEnding t = true -> S k = List.length sequences) /\
  (d = 2 -> Nat.Even L ->
   forall t, In t sequences -> Sequence.isEnding t = false) /\
  (d = 2 ->
   forall sampleSet,
     (forall s, In s sampleSet -> Nat.Even (String.length s)) ->
     forall a,
       In a (_aggregateSequences
               (CharDepthSequencingStrategy.getSequencesOfSet this sampleSet)) ->
       AggregatedSequence.frequencyEnding a = 0).
Proof.
  intros this sample dflt.
  split; [simpl; lia|]. split; [simpl; lia|].
  apply (CharDepth_ending_iff_final_chunk_single_char this sample dflt);
    simpl; lia.
Defined.

(** A string no longer than the count asked for, taken from its start. *)
Lemma substring_all (s : string) :
  forall n, String.length s <= n -> substring 0 n s = s.
Proof.
  induction s as [|c s IH]; intros [|n] H; simpl in *;
    try reflexivity; try lia.
  rewrite IH by lia. reflexivity.
Qed.

(** C4, code bug.  The claim has the one sequence of ["Go"] at depth 2
    tagged as a beginning and as an ending.  The loop tags a sequence as an
    ending when no character follows the offset at which the sequence
    starts, not when none follows the sequence.  So the strategy of depth
    2 cuts ["Go"] into the one sequence ["go"], tagged as a beginning and
    as nothing else; the same holds of every sample of two or more
    characters that the depth covers whole, whose one sequence ends the
    sample without the tag; and the table of endings of the sample set
    [["Go"]] cannot be built. *)
Theorem CharDepth_Go_tagged_beginning_only :
  CharDepthSequencingStrategy.getSequencesOfSample
    (CharDepthSequencingStrategy.mk 2 false) "Go" =
  [ {| Sequence.chars := "go";
       Sequence.isBeginning := true;
       Sequence.isMiddle := false;
       Sequence.isEnding := false |} ]
  /\
  (forall (this : CharDepthSequencingStrategy.t) (sample : string),
      2 <= String.length sample <= CharDepthSequencingStrategy.depth this ->
      CharDepthSequencingStrategy.getSequencesOfSample this sample =
      [ {| Sequence.chars :=
             if negb (CharDepthSequencingStrategy.preserveCase this)
             then toLowerCase sample else sample;
           Sequence.isBeginning := true;
           Sequence.isMiddle := false;
           Sequence.isEnding := false |} ])
  /\
  _getWeightedProbabilities
    (probabilitiesOf (CharDepthSequencingStrategy.mk 2 false) ["Go"%string])
    ENDING
  = Throw TypeError.
Proof.
  split; [reflexivity|]. split; [|vm_compute; reflexivity].
  intros this sample [Hlow Hhigh].
  unfold CharDepthSequencingStrategy.getSequencesOfSample.
  destruct (String.length sample) as [|[|n]] eqn:HL; try lia.
  cbn [CharDepthSequencingStrategy.loop]. rewrite HL.
  change (0 <? S (S n)) with true. cbv iota.
  replace (0 + CharDepthSequencingStrategy.depth this <? S (S n)) with false
    by (symmetry; apply Nat.ltb_ge; lia).
  unfold CharDepthSequencingStrategy.sequenceAt. rewrite HL.
  rewrite substring_all by lia. reflexivity.
Qed.

(* ------------------------------------------------------------------ *)
(** ** Weighted tables *)

(** The comparator yields [undefined] whatever it is given, so the sort
    finds every pair in order and leaves the array as it was. *)
Lemma Array_sort_comparefn (l : list ProbabilityAndSequence.t) :
  Array_sort comparefn l = l.
Proof.
  induction l as [|x l IH]; [reflexivity|].
  unfold Array_sort in *. simpl. rewrite IH.
  destruct l; reflexivity.
Qed.

Lemma filteredAndSorted_is_filtered probabilities type :
  filteredAndSorted probabilities type = filtered probabilities type.
Proof. apply Array_sort_comparefn. Qed.

Lemma setLastProbability_Normal (l table : list ProbabilityAndSequence.t) :
  setLastProbability l = Normal table ->
  exists init o,
    table = init ++ [o] /\ ProbabilityAndSequence.probability o = 1%Q.
Proof.
  revert table. induction l as [|x l IH]; intros table H; [discriminate|].
  destruct l as [|y l].
  - injection H as <-. exists [], {| ProbabilityAndSequence.probability := 1%Q;
                                    ProbabilityAndSequence.sequence :=
                                      ProbabilityAndSequence.sequence x |}.
    split; reflexivity.
  - change (match setLastProbability (y :: l) with
            | Normal rest' => Normal (x :: rest')
            | other => other
            end = Normal table) in H.
    destruct (setLastProbability (y :: l)) as [rest'| |] eqn:E; try discriminate.
    injection H as <-.
    destruct (IH rest' eq_refl) as (init & o & -> & Ho).
    exists (x :: init), o. split; [reflexivity | assumption].
Qed.

Lemma setLastProbability_Throw (l : list ProbabilityAndSequence.t) (e : error) :
  setLastProbability l = Throw e -> l = [] /\ e = TypeError.
Proof.
  induction l as [|x l IH]; intro H.
  - injection H as <-. split; reflexivity.
  - destruct l as [|y l]; [discriminate|].
    change (match setLastProbability (y :: l) with
            | Normal rest' => Normal (x :: rest')
            | other => other
            end = Throw e) in H.
    destruct (setLastProbability (y :: l)) eqn:E; try discriminate.
    destruct (IH H) as [Hbad _]. discriminate Hbad.
Qed.

(** Where no entry has a probability above zero for the type, the table is
    not built: the assignment to the last entry throws. *)
Lemma _getWeightedProbabilities_nothing_probable probabilities type :
  (forall it, In it probabilities -> positive (probabilityOf type it) = false) ->
  _getWeightedProbabilities probabilities type = Throw TypeError.
Proof.
  intro Hnone. unfold _getWeightedProbabilities.
  rewrite filteredAndSorted_is_filtered. unfold filtered.
  replace (filter (fun it => positive (probabilityOf type it)) probabilities)
    with (@nil AggregatedSequenceProbabilities.t); [reflexivity|].
  symmetry. induction probabilities as [|it rest IH]; [reflexivity|].
  simpl. rewrite (Hnone it (or_introl eq_refl)).
  apply IH. intros; apply Hnone; now right.
Qed.

(** The scan of [_getMatchingSequence]: the first item the value does not
    exceed, or the error when there is none. *)
Lemma _getMatchingSequence_scan (weightedList : list ProbabilityAndSequence.t)
  (value : Q) :
  (exists before item after,
      weightedList = before ++ item :: after /\
      _getMatchingSequence weightedList value = Normal item /\
      (value <= ProbabilityAndSequence.probability item)%Q /\
      forall o, In o before ->
                ~ (value <= ProbabilityAndSequence.probability o)%Q)
  \/
  (_getMatchingSequence weightedList value = Throw (NoMatchingItem value) /\
   forall o, In o weightedList ->
             ~ (value <= ProbabilityAndSequence.probability o)%Q).
Proof.
  induction weightedList as [|x l IH]; simpl.
  - right. split; [reflexivity | intros o []].
  - unfold leq.
    destruct (Qle_bool value (ProbabilityAndSequence.probability x)) eqn:E.
    + left. exists [], x, l. repeat split.
      * now apply Qle_bool_iff.
      * intros o [].
    + assert (Hx : ~ (value <= ProbabilityAndSequence.probability x)%Q).
      { intro H. apply Qle_bool_iff in H. congruence. }
      destruct IH
        as [(before & item & after & -> & Hres & Hle & Hbefore) | [Hres Hall]].
      * left. exists (x :: before), item, after. repeat split; try assumption.
        intros o [<- | Hin]; auto.
      * right. split; [assumption|]. intros o [<- | Hin]; auto.
Qed.

(** C9.  On a table that [_getWeightedProbabilities] has built, a draw with
    a value in [[0,1]] returns the first entry whose cumulative probability
    is not below the value; such an entry exists, the last one being [1].
    The error of the scan is what the empty list gives. *)
Theorem draw_finds_first_entry_on_built_table
  (probabilities : list AggregatedSequenceProbabilities.t)
  (type : SEQUENCE_TYPES) (table : list ProbabilityAndSequence.t) (value : Q) :
  _getWeightedProbabilities probabilities type = Normal table ->
  (0 <= value <= 1)%Q ->
  table <> [] /\
  (exists before item after,
      table = before ++ item :: after /\
      _getMatchingSequence table value = Normal item /\
      (value <= ProbabilityAndSequence.probability item)%Q /\
      forall o, In o before ->
                ~ (value <= ProbabilityAndSequence.probability o)%Q) /\
  (forall e, _getMatchingSequence table value <> Throw e) /\
  _getMatchingSequence [] value = Throw (NoMatchingItem value).
Proof.
  intros Hbuilt [_ Hle1].
  unfold _getWeightedProbabilities in Hbuilt.
  apply setLastProbability_Normal in Hbuilt as (init & final & -> & Hfinal).
  assert (Hfound :
    exists before item after,
      init ++ [final] = before ++ item :: after /\
      _getMatchingSequence (init ++ [final]) value = Normal item /\
      (value <= ProbabilityAndSequence.probability item)%Q /\
      forall o, In o before ->
                ~ (value <= ProbabilityAndSequence.probability o)%Q).
  { destruct (_getMatchingSequence_scan (init ++ [final]) value)
      as [Hfound | [_ Hnone]]; [exact Hfound|].
    exfalso. apply (Hnone final).
    - apply in_or_app. right. now left.
    - rewrite Hfinal. exact Hle1. }
  repeat split.
  - intro E. now destruct init.
  - exact Hfound.
  - intros e He. destruct Hfound as (? & item & ? & _ & Hres & _). congruence.
Qed.

Lemma draw_finds_first_entry_on_built_table_witness :
  let probabilities := probabilitiesOf depthTwo testSampleSet in
  let bo := AggregatedSequence.mk "bo" 2 1 0 3 in
  let go := AggregatedSequence.mk "go" 1 0 0 1 in
  let table := [ ProbabilityAndSequence.mk (2 # 3) bo;
                 ProbabilityAndSequence.mk 1 go ] in
  let value := (1 # 2)%Q in
  _getWeightedProbabilities probabilities BEGINNING = Normal table /\
  (0 <= value <= 1)%Q /\
  table <> [] /\
  (exists before item after,
      table = before ++ item :: after /\
      _getMatchingSequence table value = Normal item /\
      (value <= ProbabilityAndSequence.probability item)%Q /\
      forall o, In o before ->
                ~ (value <= ProbabilityAndSequence.probability o)%Q) /\
  (forall e, _getMatchingSequence table value <> Throw e) /\
  _getMatchingSequence [] value = Throw (NoMatchingItem value).
Proof.
  intros probabilities bo go table value.
  assert (Hbuilt : _getWeightedProbabilities probabilities BEGINNING = Normal table)
    by (vm_compute; reflexivity).
  assert (Hvalue : (0 <= value <= 1)%Q)
    by (split; unfold Qle; simpl; lia).
  split; [exact Hbuilt|]. split; [exact Hvalue|].
  exact (draw_finds_first_entry_on_built_table
           probabilities BEGINNING table value Hbuilt Hvalue).
Defined.

(** C2, at the sample set of the tests.  The entries for the beginnings keep
    the order in which the sequences were first met: ["bo"] with
    probability 2/3 comes before ["go"] with 1/3.  The individual
    probabilities of the table do not ascend. *)
Theorem weighted_table_keeps_insertion_order :
  let probabilities := probabilitiesOf depthTwo testSampleSet in
  let bo := AggregatedSequence.mk "bo" 2 1 0 3 in
  let go := AggregatedSequence.mk "go" 1 0 0 1 in
  filteredAndSorted probabilities BEGINNING =
    [ ProbabilityAndSequence.mk (2 # 3) bo;
      ProbabilityAndSequence.mk (1 # 3) go ] /\
  ascending (filteredAndSorted probabilities BEGINNING) = false /\
  _getWeightedProbabilities probabilities BEGINNING =
    Normal [ ProbabilityAndSequence.mk (2 # 3) bo;
             ProbabilityAndSequence.mk 1 go ].
Proof.
  repeat split; vm_compute; reflexivity.
Qed.

(** C3, at inputs without a sequence for the type.  With no probabilities
    at all, and with those of the sample set [["Go"]] at depth 2 (which has
    neither a middle nor an ending), the table is not returned empty:
    building it throws, and so does the [generate] call that builds it. *)
Theorem weighted_table_of_nothing_throws :
  _getWeightedProbabilities [] MIDDLE = Throw TypeError /\
  _getWeightedProbabilities
    (probabilitiesOf depthTwo ["Go"%string]) ENDING
  = Throw TypeError /\
  constructAndGenerate TapeRandom 100
    (argsOf ["Go"%string] depthTwo 3 4 None (Some testSeed)) [1]
  = Normal [Throw TypeError].
Proof.
  repeat split; vm_compute; reflexivity.
Qed.

(* ------------------------------------------------------------------ *)
(** ** Strings put together *)

Lemma string_length_append (a b : string) :
  String.length (a ++ b) = String.length a + String.length b.
Proof. induction a as [|c a IH]; simpl; [reflexivity | now rewrite IH]. Qed.

Lemma string_append_nil_r (a : string) : (a ++ "")%string = a.
Proof. induction a as [|c a IH]; simpl; [reflexivity | now rewrite IH]. Qed.

Lemma string_append_assoc (a b c : string) :
  ((a ++ b) ++ c)%string = (a ++ (b ++ c))%string.
Proof. induction a as [|x a IH]; simpl; [reflexivity | now rewrite IH]. Qed.

(** [l.join("")] of an array put together from two. *)
Lemma join_app (l1 l2 : list string) :
  String.concat "" (l1 ++ l2)
  = (String.concat "" l1 ++ String.concat "" l2)%string.
Proof.
  induction l1 as [|x l1 IH]; [reflexivity|].
  destruct l1 as [|y l1].
  - simpl. destruct l2 as [|z l2]; simpl.
    + now rewrite string_append_nil_r.
    + reflexivity.
  - change (String.concat "" ((x :: y :: l1) ++ l2))
      with (x ++ "" ++ String.concat "" ((y :: l1) ++ l2))%string.
    rewrite IH.
    change (String.concat "" (x :: y :: l1))
      with (x ++ "" ++ String.concat "" (y :: l1))%string.
    simpl. now rewrite string_append_assoc.
Qed.

Lemma join_cons (x : string) (l : list string) :
  String.concat "" (x :: l) = (x ++ String.concat "" l)%string.
Proof. exact (join_app [x] l). Qed.

Lemma charsLength_app (l1 l2 : list AggregatedSequence.t) :
  charsLength (l1 ++ l2) = charsLength l1 + charsLength l2.
Proof.
  unfold charsLength. rewrite map_app, join_app. apply string_length_append.
Qed.

Lemma charsLength_cons (a : AggregatedSequence.t) (l : list AggregatedSequence.t) :
  charsLength (a :: l) = String.length (AggregatedSequence.chars a) + charsLength l.
Proof.
  unfold charsLength. simpl map. rewrite join_cons. apply string_length_append.
Qed.

(* ------------------------------------------------------------------ *)
(** ** The assembly of one word *)

Section SingleWord.

Variable R : RandomSeeded.t.
Variable probableMiddles : list ProbabilityAndSequence.t.
Variable targetLength : Z.

Lemma middleSequences_eq fuel resultingSequences charactersLength :
  middleSequences R fuel probableMiddles targetLength
    resultingSequences charactersLength
  = if (Z.of_nat charactersLength <? targetLength)%Z then
      match fuel with
      | 0 => lift R OutOfFuel
      | S fuel' =>
          bind R (rng_generate R None None) (fun rndMiddle =>
          bind R (lift R (_getMatchingSequence probableMiddles rndMiddle))
            (fun middle =>
               middleSequences R fuel' probableMiddles targetLength
                 (resultingSequences ++ [ProbabilityAndSequence.sequence middle])
                 (charactersLength
                  + String.length
                      (AggregatedSequence.chars
                         (ProbabilityAndSequence.sequence middle)))))
      end
    else ret R resultingSequences.
Proof. destruct fuel; reflexivity. Qed.

(** What the loop returns, it has drawn as the specification says. *)
Lemma middleSequences_sound :
  forall fuel resultingSequences charactersLength r result r',
    middleSequences R fuel probableMiddles targetLength
      resultingSequences charactersLength r = (Normal result, r') ->
    exists middles length',
      result = resultingSequences ++ middles /\
      middleDraws R probableMiddles targetLength
        charactersLength r middles length' r'.
Proof.
  induction fuel as [|fuel IH]; intros acc len r result r' H;
    rewrite middleSequences_eq in H;
    destruct (Z.ltb_spec (Z.of_nat len) targetLength) as [Hlt|Hge].
  - discriminate H.
  - injection H as <- <-. exists [], len.
    split; [now rewrite app_nil_r | constructor; lia].
  - unfold bind, rng_generate, lift in H.
    destruct (RandomSeeded.generate R None None r) as [value r1] eqn:Hdraw.
    destruct (_getMatchingSequence probableMiddles value) as [middle| |] eqn:Hm;
      try discriminate H.
    apply IH in H as (middles & length' & -> & Hrest).
    exists (ProbabilityAndSequence.sequence middle :: middles), length'.
    split; [now rewrite <- app_assoc|].
    econstructor; eassumption.
  - injection H as <- <-. exists [], len.
    split; [now rewrite app_nil_r | constructor; lia].
Qed.

(** What can be drawn as the specification says, the loop returns, given
    a round of fuel for each draw. *)
Lemma middleSequences_complete :
  forall charactersLength r middles length' r',
    middleDraws R probableMiddles targetLength
      charactersLength r middles length' r' ->
    forall fuel resultingSequences,
      List.length middles <= fuel ->
      middleSequences R fuel probableMiddles targetLength
        resultingSequences charactersLength r
      = (Normal (resultingSequences ++ middles), r').
Proof.
  induction 1
    as [len r Hge | len r value r1 middle rest len' r' Hlt Hdraw Hm Hrest IH];
    intros fuel acc Hfuel; rewrite middleSequences_eq.
  - destruct (Z.ltb_spec (Z.of_nat len) targetLength); [lia|].
    now rewrite app_nil_r.
  - destruct (Z.ltb_spec (Z.of_nat len) targetLength); [|lia].
    destruct fuel as [|fuel]; [simpl in Hfuel; lia|].
    unfold bind, rng_generate, lift. rewrite Hdraw, Hm.
    rewrite IH by (simpl in Hfuel; lia).
    now rewrite <- app_assoc.
Qed.

(** The length the drawing stops with is the length it started with plus
    the characters drawn; it has reached the target; without the middle
    drawn last it was still below the target. *)
Lemma middleDraws_length :
  forall charactersLength r middles length' r',
    middleDraws R probableMiddles targetLength
      charactersLength r middles length' r' ->
    length' = charactersLength + charsLength middles /\
    (targetLength <= Z.of_nat length')%Z /\
    forall init final,
      middles = init ++ [final] ->
      (Z.of_nat (length' - String.length (AggregatedSequence.chars final))
       < targetLength)%Z.
Proof.
  induction 1
    as [len r Hge | len r value r1 middle rest len' r' Hlt Hdraw Hm Hrest IH].
  - repeat split.
    + unfold charsLength. simpl. lia.
    + lia.
    + intros init final E. now destruct init.
  - destruct IH as (Hlen & Htarget & Hlast). repeat split.
    + rewrite charsLength_cons. lia.
    + exact Htarget.
    + intros init final E. destruct init as [|x init].
      * simpl in E. injection E as E1 E2. subst rest.
        rewrite <- E1. unfold charsLength in Hlen. simpl in Hlen.
        replace (len' - String.length
                         (AggregatedSequence.chars
                            (ProbabilityAndSequence.sequence middle)))
          with len by lia.
        exact Hlt.
      * simpl in E. injection E as _ E2. exact (Hlast init final E2).
Qed.

End SingleWord.

(** C6.  One attempt of [_generateSingleWord] returns a word exactly when the
    word is assembled as the specification says: the target is the rounded
    draw over the two bounds; a beginning is drawn and appended; an ending
    is drawn and its length counted before it is appended; middles are
    drawn and appended while the length is below the target; the ending
    comes last; the word is the concatenation in that order.  The length
    counted is the length of what is put together, it reaches the target,
    and it was below the target before the middle drawn last. *)
Theorem _generateSingleWord_is_assembly (R : RandomSeeded.t)
  (probableBeginnings probableMiddles probableEndings
     : list ProbabilityAndSequence.t)
  (minLength maxLength : jsnumber)
  (r : RandomSeeded.rng R) (word : string) (r' : RandomSeeded.rng R) :
  ((exists fuel,
       _generateSingleWord R fuel probableBeginnings probableMiddles
         probableEndings minLength maxLength r = (Normal word, r'))
   <-> assembly R probableBeginnings probableMiddles probableEndings
         minLength maxLength r word r')
  /\
  (forall targetLength charactersLength r3 middles length' r4,
      middleDraws R probableMiddles targetLength
        charactersLength r3 middles length' r4 ->
      length' = charactersLength + charsLength middles /\
      (targetLength <= Z.of_nat length')%Z /\
      forall init final,
        middles = init ++ [final] ->
        (Z.of_nat (length' - String.length (AggregatedSequence.chars final))
         < targetLength)%Z).
Proof.
  split; [split|].
  - intros [fuel H].
    unfold _generateSingleWord, bind, rng_generate, lift, ret in H.
    cbv beta zeta in H.
    destruct (RandomSeeded.generate R minLength maxLength r) as [x r1] eqn:Hx.
    destruct (RandomSeeded.generate R None None r1) as [rndBeginning r2] eqn:Hb.
    destruct (_getMatchingSequence probableBeginnings rndBeginning)
      as [beginning| |] eqn:Hbeginning; try discriminate H.
    destruct (RandomSeeded.generate R None None r2) as [rndEnding r3] eqn:He.
    destruct (_getMatchingSequence probableEndings rndEnding)
      as [ending| |] eqn:Hending; try discriminate H.
    destruct (middleSequences R fuel probableMiddles (Math_round x) _ _ r3)
      as [[result| |] r4] eqn:Hmiddles; try discriminate H.
    injection H as <- <-.
    apply middleSequences_sound in Hmiddles as (middles & length' & -> & Hdraws).
    exists x, r1, rndBeginning, r2, beginning, rndEnding, r3, ending,
      middles, length'.
    cbv zeta. repeat split; assumption || (simpl; now rewrite <- app_assoc).
  - intros (x & r1 & rndBeginning & r2 & beginning & rndEnding & r3 & ending
            & middles & length' & H).
    cbv zeta in H.
    destruct H as (Hx & Hb & Hbeginning & He & Hending & Hdraws & ->).
    exists (List.length middles).
    unfold _generateSingleWord, bind, rng_generate, lift, ret.
    cbv beta zeta.
    rewrite Hx, Hb, Hbeginning, He, Hending.
    rewrite (middleSequences_complete R _ _ _ _ _ _ _ Hdraws) by apply le_n.
    now rewrite <- app_assoc.
  - apply middleDraws_length.
Qed.

(** An attempt on the tables of the tests.  The draws are 21/32 (target:
    3 + 21/32 * 4 rounds to 6), 101/128 (beginning ["go"]), 115/128 (ending
    ["y"]), 29/32 (middle ["bb"]: length 5) and 49/128 (middle ["bo"]:
    length 7). *)
Example _generateSingleWord_on_the_tables_of_the_tests :
  let probabilities := probabilitiesOf depthTwo testSampleSet in
  exists probableBeginnings probableMiddles probableEndings,
    _getWeightedProbabilities probabilities BEGINNING = Normal probableBeginnings /\
    _getWeightedProbabilities probabilities MIDDLE = Normal probableMiddles /\
    _getWeightedProbabilities probabilities ENDING = Normal probableEndings /\
    _generateSingleWord TapeRandom 2 probableBeginnings probableMiddles
      probableEndings (Some 3%Q) (Some 7%Q) testSeed
    = (Normal "gobbboy"%string, "234567890"%string).
Proof.
  do 3 eexists. repeat split; vm_compute; reflexivity.
Qed.

(* ------------------------------------------------------------------ *)
(** ** The retry loop of one word *)

Lemma found_true_iff (words : list string) (word : string) :
  found words word = true <-> In word words.
Proof.
  unfold found. induction words as [|x words IH]; simpl.
  - split; [discriminate | intros []].
  - destruct (String.eqb_spec x word) as [->|Hne].
    + split; [now left | reflexivity].
    + rewrite IH. split; [now right | intros [E|H]; [congruence | exact H]].
Qed.

Lemma found_false_iff (words : list string) (word : string) :
  found words word = false <-> ~ In word words.
Proof.
  rewrite <- found_true_iff. destruct (found words word); split;
    congruence || (intro H; exfalso; now apply H) || reflexivity.
Qed.

Section Retry.

Variable R : RandomSeeded.t.
Variable singleWord : M R string.
Variable words : list string.

Lemma uniqueWord_eq gas word attempt r :
  uniqueWord R (S gas) singleWord words word attempt r =
  if repetitionMaximum <=? attempt then (Throw MaxTriesExceeded, r)
  else
    match singleWord r with
    | (Normal w, r') =>
        if found words w
        then uniqueWord R gas singleWord words (Some w) (attempt + 1) r'
        else (Normal (w, attempt + 1), r')
    | (Throw e, r') =>
        if repetitionMaximum <=? attempt + 1
        then (Throw (MaxTriesExceededInner e), r')
        else
          match word with
          | None => uniqueWord R gas singleWord words None (attempt + 1) r'
          | Some w =>
              if found words w
              then uniqueWord R gas singleWord words word (attempt + 1) r'
              else (Normal (w, attempt + 1), r')
          end
    | (OutOfFuel, r') => (OutOfFuel, r')
    end.
Proof.
  change (uniqueWord R (S gas) singleWord words word attempt r)
    with ((if repetitionMaximum <=? attempt then throw R MaxTriesExceeded
           else fun r =>
             let continue (word : option string) (r' : RandomSeeded.rng R) :=
               let attempt := attempt + 1 in
               match word with
               | None => uniqueWord R gas singleWord words None attempt r'
               | Some w =>
                   if found words w
                   then uniqueWord R gas singleWord words word attempt r'
                   else (Normal (w, attempt), r')
               end in
             match singleWord r with
             | (Normal w, r') => continue (Some w) r'
             | (Throw e, r') =>
                 if repetitionMaximum <=? attempt + 1
                 then (Throw (MaxTriesExceededInner e), r')
                 else continue word r'
             | (OutOfFuel, r') => (OutOfFuel, r')
             end) r).
  destruct (repetitionMaximum <=? attempt); [reflexivity|].
  cbv zeta. destruct (singleWord r) as [[w| |] r']; reflexivity.
Qed.

(** What the loop gives, started anywhere below the ceiling. *)
Lemma uniqueWord_run :
  forall gas word attempt r c r',
    attempt <= repetitionMaximum ->
    attempt + gas = S repetitionMaximum ->
    carried words word ->
    uniqueWord R gas singleWord words word attempt r = (c, r') ->
    match c with
    | Normal (w, tries) =>
        attempt < tries <= repetitionMaximum /\
        found words w = false /\
        exists r1,
          failedTries R singleWord words (tries - attempt - 1) r r1 /\
          singleWord r1 = (Normal w, r')
    | Throw e =>
        (e = MaxTriesExceeded /\
         failedTries R singleWord words (repetitionMaximum - attempt) r r')
        \/
        (exists cause r1,
            e = MaxTriesExceededInner cause /\
            attempt < repetitionMaximum /\
            failedTries R singleWord words
              (repetitionMaximum - attempt - 1) r r1 /\
            singleWord r1 = (Throw cause, r'))
    | OutOfFuel =>
        exists n r1,
          attempt + n < repetitionMaximum /\
          failedTries R singleWord words n r r1 /\
          singleWord r1 = (OutOfFuel, r')
    end.
Proof.
  induction gas as [|gas IH]; intros word attempt r c r' Hle Hgas Hword H;
    [lia|].
  rewrite uniqueWord_eq in H.
  destruct (Nat.leb_spec repetitionMaximum attempt) as [Hmax|Hlt].
  { injection H as <- <-. left. split; [reflexivity|].
    replace (repetitionMaximum - attempt) with 0 by lia. constructor. }
  assert (Hnext :
    forall word' r1,
      carried words word' ->
      uniqueWord R gas singleWord words word' (attempt + 1) r1 = (c, r') ->
      failedTries R singleWord words 1 r r1 ->
      match c with
      | Normal (w, tries) =>
          attempt < tries <= repetitionMaximum /\
          found words w = false /\
          exists r2,
            failedTries R singleWord words (tries - attempt - 1) r r2 /\
            singleWord r2 = (Normal w, r')
      | Throw e =>
          (e = MaxTriesExceeded /\
           failedTries R singleWord words (repetitionMaximum - attempt) r r')
          \/
          (exists cause r2,
              e = MaxTriesExceededInner cause /\
              attempt < repetitionMaximum /\
              failedTries R singleWord words
                (repetitionMaximum - attempt - 1) r r2 /\
              singleWord r2 = (Throw cause, r'))
      | OutOfFuel =>
          exists n r2,
            attempt + n < repetitionMaximum /\
            failedTries R singleWord words n r r2 /\
            singleWord r2 = (OutOfFuel, r')
      end).
  { intros word' r1 Hword' Hrec Hone.
    assert (Hcons : forall n r2,
               failedTries R singleWord words n r1 r2 ->
               failedTries R singleWord words (S n) r r2).
    { intros n r2 Hn. inversion Hone; subst.
      - match goal with Hz : failedTries _ _ _ 0 _ _ |- _ =>
          inversion Hz; subst end.
        eapply failedTries_thrown; eassumption.
      - match goal with Hz : failedTries _ _ _ 0 _ _ |- _ =>
          inversion Hz; subst end.
        eapply failedTries_duplicate; eassumption. }
    apply IH in Hrec; [|lia|lia|assumption].
    destruct c as [[w tries]|e|].
    - destruct Hrec as (Htries & Hnew & r2 & Hfail & Hlast).
      split; [lia|]. split; [assumption|].
      exists r2. split; [|assumption].
      replace (tries - attempt - 1) with (S (tries - (attempt + 1) - 1)) by lia.
      now apply Hcons.
    - destruct Hrec as [[-> Hfail] | (cause & r2 & -> & Hlt' & Hfail & Hlast)].
      + left. split; [reflexivity|].
        replace (repetitionMaximum - attempt)
          with (S (repetitionMaximum - (attempt + 1))) by lia.
        now apply Hcons.
      + right. exists cause, r2. repeat split; try assumption.
        replace (repetitionMaximum - attempt - 1)
          with (S (repetitionMaximum - (attempt + 1) - 1)) by lia.
        now apply Hcons.
    - destruct Hrec as (n & r2 & Hn & Hfail & Hlast).
      exists (S n), r2. repeat split; [lia | now apply Hcons | assumption]. }
  destruct (singleWord r) as [[w| |] r1] eqn:Hsingle.
  - destruct (found words w) eqn:Hfound.
    + apply (Hnext (Some w) r1); [exact Hfound | exact H |].
      eapply failedTries_duplicate; [eassumption | assumption | constructor].
    + injection H as <- <-. split; [lia|]. split; [assumption|].
      exists r. split; [|assumption].
      replace (attempt + 1 - attempt - 1) with 0 by lia. constructor.
  - destruct (Nat.leb_spec repetitionMaximum (attempt + 1)) as [Hlast|Hmore].
    + injection H as <- <-. right. exists e, r. repeat split; try assumption.
      replace (repetitionMaximum - attempt - 1) with 0 by lia. constructor.
    + assert (Hone : failedTries R singleWord words 1 r r1)
        by (eapply failedTries_thrown; [eassumption | constructor]).
      destruct word as [w|].
      * simpl in Hword. rewrite Hword in H.
        now apply (Hnext (Some w) r1).
      * now apply (Hnext None r1).
  - injection H as <- <-. exists 0, r.
    repeat split; [lia | constructor | assumption].
Qed.

(** A full run of failed attempts makes the loop throw. *)
Lemma uniqueWord_exhausted :
  forall gas word attempt r r'',
    attempt <= repetitionMaximum ->
    attempt + gas = S repetitionMaximum ->
    carried words word ->
    failedTries R singleWord words (repetitionMaximum - attempt) r r'' ->
    exists e r',
      uniqueWord R gas singleWord words word attempt r = (Throw e, r') /\
      (e = MaxTriesExceeded \/ exists cause, e = MaxTriesExceededInner cause).
Proof.
  induction gas as [|gas IH]; intros word attempt r r'' Hle Hgas Hword Hfail;
    [lia|].
  rewrite uniqueWord_eq.
  destruct (Nat.leb_spec repetitionMaximum attempt) as [Hmax|Hlt].
  { exists MaxTriesExceeded, r. split; [reflexivity | now left]. }
  remember (repetitionMaximum - attempt) as k eqn:Hk.
  destruct Hfail
    as [r | n r r1 r'' e Hsingle Hrest | n r r1 r'' w Hsingle Hdup Hrest];
    [lia| |].
  - rewrite Hsingle.
    destruct (Nat.leb_spec repetitionMaximum (attempt + 1)) as [Hlast|Hmore].
    + exists (MaxTriesExceededInner e), r1. split; [reflexivity|].
      right. now exists e.
    + replace n with (repetitionMaximum - (attempt + 1)) in Hrest by lia.
      destruct word as [w|].
      * simpl in Hword. rewrite Hword.
        apply (IH (Some w) (attempt + 1) r1 r'');
          [lia | lia | exact Hword | exact Hrest].
      * apply (IH None (attempt + 1) r1 r'');
          [lia | lia | exact I | exact Hrest].
  - rewrite Hsingle, Hdup.
    replace n with (repetitionMaximum - (attempt + 1)) in Hrest by lia.
    apply (IH (Some w) (attempt + 1) r1 r'');
      [lia | lia | exact Hdup | exact Hrest].
Qed.

End Retry.

(* ------------------------------------------------------------------ *)
(** ** The words of one call *)

Section Words.

Variable R : RandomSeeded.t.
Variable singleWord : M R string.

Lemma generateWords_eq howMany words r :
  generateWords R singleWord (S howMany) words r =
  match uniqueWord R (S repetitionMaximum) singleWord words None 0 r with
  | (Normal wa, r') => generateWords R singleWord howMany (words ++ [fst wa]) r'
  | (Throw e, r') => (Throw e, r')
  | (OutOfFuel, r') => (OutOfFuel, r')
  end.
Proof. reflexivity. Qed.

(** The loop over the words, cut in two. *)
Lemma generateWords_add :
  forall k m words r,
    generateWords R singleWord (k + m) words r =
    match generateWords R singleWord k words r with
    | (Normal words', r') => generateWords R singleWord m words' r'
    | (Throw e, r') => (Throw e, r')
    | (OutOfFuel, r') => (OutOfFuel, r')
    end.
Proof.
  induction k as [|k IH]; intros m words r; [reflexivity|].
  change (S k + m) with (S (k + m)). rewrite !generateWords_eq.
  destruct (uniqueWord R (S repetitionMaximum) singleWord words None 0 r)
    as [[wa| |] r']; try reflexivity.
  apply IH.
Qed.

(** The words a completed loop returns: those it started with, then one new
    word per round, no word twice. *)
Lemma generateWords_Normal :
  forall howMany words r result r',
    NoDup words ->
    generateWords R singleWord howMany words r = (Normal result, r') ->
    exists new,
      result = words ++ new /\ List.length new = howMany /\ NoDup result.
Proof.
  induction howMany as [|howMany IH]; intros words r result r' Hnodup H.
  - injection H as <- <-. exists []. rewrite app_nil_r. auto.
  - rewrite generateWords_eq in H.
    destruct (uniqueWord R (S repetitionMaximum) singleWord words None 0 r)
      as [[[w tries]| |] r1] eqn:Hword; try discriminate H.
    apply uniqueWord_run in Hword; [|lia|lia|exact I].
    destruct Hword as (_ & Hnew & _).
    apply found_false_iff in Hnew.
    simpl fst in H. apply IH in H.
    + destruct H as (new & -> & Hlen & Hres).
      exists (w :: new). rewrite <- app_assoc in *. simpl in *.
      repeat split; [now rewrite Hlen | exact Hres].
    + apply NoDup_app; [assumption | repeat constructor; intros [] | ].
      intros a Ha [<-|[]]. contradiction.
Qed.

(** A loop over the words that throws, throws what a retry loop threw. *)
Lemma generateWords_Throw :
  forall howMany words r e r',
    generateWords R singleWord howMany words r = (Throw e, r') ->
    e = MaxTriesExceeded \/ exists cause, e = MaxTriesExceededInner cause.
Proof.
  induction howMany as [|howMany IH]; intros words r e r' H; [discriminate H|].
  rewrite generateWords_eq in H.
  destruct (uniqueWord R (S repetitionMaximum) singleWord words None 0 r)
    as [[wa| |] r1] eqn:Hword; try discriminate H.
  - exact (IH _ _ _ _ H).
  - injection H as <- <-.
    apply uniqueWord_run in Hword; [|lia|lia|exact I].
    destruct Hword as [[-> _] | (cause & _ & -> & _)];
      [now left | right; now exists cause].
Qed.

End Words.

(* ------------------------------------------------------------------ *)
(** ** [generate] *)

Lemma setLastProbability_fuel (l : list ProbabilityAndSequence.t) :
  setLastProbability l <> OutOfFuel.
Proof.
  induction l as [|x l IH]; [discriminate|].
  destruct l as [|y l]; [discriminate|].
  change (setLastProbability (x :: y :: l))
    with (match setLastProbability (y :: l) with
          | Normal rest' => Normal (x :: rest')
          | other => other
          end).
  destruct (setLastProbability (y :: l)); congruence.
Qed.

Section Generate.

Variable R : RandomSeeded.t.

(** The tables are built, or building them throws the [TypeError]. *)
Lemma tables_cases (this : MarkovChainWordGenerator R) :
  (exists probableBeginnings probableMiddles probableEndings,
      tables R this
      = Normal (probableBeginnings, probableMiddles, probableEndings))
  \/ tables R this = Throw TypeError.
Proof.
  unfold tables, _getWeightedProbabilities.
  repeat match goal with
         | |- context [setLastProbability ?l] =>
             let E := fresh "E" in
             destruct (setLastProbability l) as [?| e |] eqn:E;
             [ | apply setLastProbability_Throw in E as [_ ->]; now right
               | now apply setLastProbability_fuel in E ]
         end.
  left. eauto.
Qed.

Lemma generate_eq (fuel : nat) (this : MarkovChainWordGenerator R)
  (howMany : nat) :
  fst (generate R fuel this howMany) =
  match tables R this with
  | Normal (probableBeginnings, probableMiddles, probableEndings) =>
      match generateWords R
              (_generateSingleWord R fuel probableBeginnings probableMiddles
                 probableEndings
                 (_targetLengthMin R this) (_targetLengthMax R this))
              howMany [] (_rng R this) with
      | (Normal words, _) => Normal (spell R this words)
      | (Throw e, _) => Throw e
      | (OutOfFuel, _) => OutOfFuel
      end
  | Throw e => Throw e
  | OutOfFuel => OutOfFuel
  end.
Proof.
  unfold generate, generate_body, bind, lift, ret.
  destruct (tables R this)
    as [[[probableBeginnings probableMiddles] probableEndings]| |];
    try reflexivity.
  destruct (generateWords R _ howMany [] (_rng R this)) as [[words| |] r];
    reflexivity.
Qed.

End Generate.

(** C1, amended.  A call of [generate] that returns, returns [howMany]
    strings.  They are the words accepted by the retry loops, which are
    pairwise different, in the order of acceptance, each passed through the
    spelling strategy if there is one.  The strings returned are pairwise
    different when there is no spelling strategy, and when the strategy
    keeps different accepted words different. *)
Theorem generate_returns_howMany_words (R : RandomSeeded.t) (fuel : nat)
  (this : MarkovChainWordGenerator R) (howMany : nat)
  (words : list string) (this' : MarkovChainWordGenerator R) :
  generate R fuel this howMany = (Normal words, this') ->
  List.length words = howMany /\
  exists accepted,
    List.length accepted = howMany /\
    NoDup accepted /\
    words = match this_spellingStrategy R this with
            | Some strategy => map (fun it => apply strategy it) accepted
            | None => accepted
            end /\
    (this_spellingStrategy R this = None -> NoDup words) /\
    (forall strategy,
        this_spellingStrategy R this = Some strategy ->
        (forall a b, In a accepted -> In b accepted ->
                     apply strategy a = apply strategy b -> a = b) ->
        NoDup words).
Proof.
  intro H.
  assert (Hfst : fst (generate R fuel this howMany) = Normal words)
    by now rewrite H.
  rewrite generate_eq in Hfst.
  destruct (tables R this)
    as [[[probableBeginnings probableMiddles] probableEndings]| |];
    try discriminate Hfst.
  destruct (generateWords R _ howMany [] (_rng R this))
    as [[accepted| |] r] eqn:Hwords; try discriminate Hfst.
  injection Hfst as <-.
  apply generateWords_Normal in Hwords; [|constructor].
  destruct Hwords as (new & -> & Hlen & Hnodup). simpl in *.
  unfold spell.
  split.
  - destruct (this_spellingStrategy R this); [rewrite length_map|]; exact Hlen.
  - exists new. repeat split; try assumption.
    + intro Hnone. now rewrite Hnone.
    + intros strategy Hsome Hinj. rewrite Hsome.
      apply NoDup_map_NoDup_ForallPairs; [|assumption].
      intros a b Ha Hb. now apply Hinj.
Qed.

Lemma generate_returns_howMany_words_witness :
  let R := TapeRandom in
  let this :=
    {| _sampleSet := testSampleSet;
       _targetLengthMin := Some 3%Q;
       _targetLengthMax := Some 7%Q;
       _seed := Some testSeed;
       this_sequencingStrategy := CharDepthSequencingStrategy.strategy depthTwo;
       this_spellingStrategy := None;
       _rng := RandomSeeded.new R (Some testSeed) |} in
  let words := ["gobbboy"; "bobob"; "bob"]%string in
  exists this',
    generate R 100 this 3 = (Normal words, this') /\
    List.length words = 3 /\
    exists accepted,
      List.length accepted = 3 /\
      NoDup accepted /\
      words = match this_spellingStrategy R this with
              | Some strategy => map (fun it => apply strategy it) accepted
              | None => accepted
              end /\
      (this_spellingStrategy R this = None -> NoDup words) /\
      (forall strategy,
          this_spellingStrategy R this = Some strategy ->
          (forall a b, In a accepted -> In b accepted ->
                       apply strategy a = apply strategy b -> a = b) ->
          NoDup words).
Proof.
  intros R this words.
  exists (snd (generate R 100 this 3)).
  assert (Hrun : generate R 100 this 3
                 = (Normal words, snd (generate R 100 this 3)))
    by (vm_compute; reflexivity).
  split; [exact Hrun|].
  exact (generate_returns_howMany_words R 100 this 3 words _ Hrun).
Defined.

(** The claim C1 as written: the strings returned are pairwise different.
    With the case kept ([preserveCase]) the sample set [["Aba"; "aba"]] has
    the beginnings ["A"] and ["a"]; the words ["Aba"] and ["aba"] are both
    accepted, and the spelling strategy makes them the same string. *)
Lemma generate_spelled_words_coincide :
  constructAndGenerate TapeRandom 100
    (argsOf ["Aba"; "aba"]%string (CharDepthSequencingStrategy.mk 1 true) 3 3
       (Some BeginningCapitalsSpellingStrategy) (Some "00000z00"%string))
    [2]
  = Normal [Normal ["Aba"; "Aba"]%string] /\
  ~ NoDup ["Aba"; "Aba"]%string.
Proof.
  split; [vm_compute; reflexivity|].
  intro H. inversion H as [|x l Hnotin _]; subst. apply Hnotin. now left.
Qed.

(** C7.  The ceiling is 1000, and each word asked for has a retry loop of its
    own, started with no word and no attempt made.  The loop calls the
    assembly at most 1000 times: a loop that returns has seen fewer than 1000
    failed attempts and then one whose word is new; a loop that throws has
    seen 1000 failed attempts, the last of them possibly the one whose
    error it wraps; an attempt fails by throwing or by giving a word that
    is there already, and either way it is one try.  A run of 1000 failed
    attempts does make the loop throw.  When the loop of some word throws,
    so does the whole call, whatever was accepted before; and what a call
    throws is never the error of a draw itself. *)
Theorem generate_tries_each_word_at_most_1000_times (R : RandomSeeded.t) :
  repetitionMaximum = 1000 /\
  (forall singleWord howMany words r,
      generateWords R singleWord (S howMany) words r =
      match uniqueWord R (S repetitionMaximum) singleWord words None 0 r with
      | (Normal wa, r') =>
          generateWords R singleWord howMany (words ++ [fst wa]) r'
      | (Throw e, r') => (Throw e, r')
      | (OutOfFuel, r') => (OutOfFuel, r')
      end) /\
  (forall singleWord words r c r',
      uniqueWord R (S repetitionMaximum) singleWord words None 0 r = (c, r') ->
      match c with
      | Normal (w, tries) =>
          1 <= tries <= repetitionMaximum /\
          found words w = false /\
          exists r1,
            failedTries R singleWord words (tries - 1) r r1 /\
            singleWord r1 = (Normal w, r')
      | Throw e =>
          (e = MaxTriesExceeded /\
           failedTries R singleWord words repetitionMaximum r r')
          \/
          (exists cause r1,
              e = MaxTriesExceededInner cause /\
              failedTries R singleWord words (repetitionMaximum - 1) r r1 /\
              singleWord r1 = (Throw cause, r'))
      | OutOfFuel =>
          exists n r1,
            n < repetitionMaximum /\
            failedTries R singleWord words n r r1 /\
            singleWord r1 = (OutOfFuel, r')
      end) /\
  (forall singleWord words r r'',
      failedTries R singleWord words repetitionMaximum r r'' ->
      exists e r',
        uniqueWord R (S repetitionMaximum) singleWord words None 0 r
        = (Throw e, r') /\
        (e = MaxTriesExceeded \/
         exists cause, e = MaxTriesExceededInner cause)) /\
  (forall fuel this k m probableBeginnings probableMiddles probableEndings
          accepted r1 e r',
      tables R this
      = Normal (probableBeginnings, probableMiddles, probableEndings) ->
      let singleWord :=
        _generateSingleWord R fuel probableBeginnings probableMiddles
          probableEndings (_targetLengthMin R this) (_targetLengthMax R this) in
      generateWords R singleWord k [] (_rng R this) = (Normal accepted, r1) ->
      uniqueWord R (S repetitionMaximum) singleWord accepted None 0 r1
      = (Throw e, r') ->
      fst (generate R fuel this (k + S m)) = Throw e) /\
  (forall fuel this howMany e this',
      generate R fuel this howMany = (Throw e, this') ->
      e = TypeError \/ e = MaxTriesExceeded \/
      exists cause, e = MaxTriesExceededInner cause).
Proof.
  split; [reflexivity|]. split; [|split; [|split; [|split]]].
  - intros singleWord howMany words r. apply generateWords_eq.
  - intros singleWord words r c r' H.
    apply uniqueWord_run in H; [|lia|lia|exact I].
    destruct c as [[w tries]|e|].
    + destruct H as (Htries & Hnew & r1 & Hfail & Hlast).
      split; [lia|]. split; [assumption|]. exists r1.
      replace (tries - 1) with (tries - 0 - 1) by lia. now split.
    + destruct H as [[-> Hfail] | (cause & r1 & -> & _ & Hfail & Hlast)].
      * left. split; [reflexivity|].
        now rewrite Nat.sub_0_r in Hfail.
      * right. exists cause, r1. rewrite Nat.sub_0_r in Hfail. now repeat split.
    + destruct H as (n & r1 & Hn & Hfail & Hlast).
      exists n, r1. repeat split; [lia | assumption | assumption].
  - intros singleWord words r r'' Hfail.
    apply (uniqueWord_exhausted R singleWord words (S repetitionMaximum)
             None 0 r r''); [lia | lia | exact I |].
    now rewrite Nat.sub_0_r.
  - intros fuel this k m probableBeginnings probableMiddles probableEndings
      accepted r1 e r' Htables singleWord Hwords Hthrow.
    rewrite generate_eq, Htables. fold singleWord.
    rewrite generateWords_add, Hwords, generateWords_eq, Hthrow.
    reflexivity.
  - intros fuel this howMany e this' H.
    assert (Hfst : fst (generate R fuel this howMany) = Throw e)
      by now rewrite H.
    rewrite generate_eq in Hfst.
    destruct (tables_cases R this)
      as [(probableBeginnings & probableMiddles & probableEndings & Ht) | Ht];
      rewrite Ht in Hfst.
    + destruct (generateWords R _ howMany [] (_rng R this))
        as [[words| |] r] eqn:Hwords; try discriminate Hfst.
      injection Hfst as <-. right.
      exact (generateWords_Throw R _ _ _ _ _ _ Hwords).
    + injection Hfst as <-. now left.
Qed.

(** The ceiling at work: the generator drawing [0] for ever assembles the
    same word at every attempt; the second word asked for is never new. *)
Example generate_exhausts_the_ceiling :
  constructAndGenerate TapeRandom 100
    (argsOf testSampleSet depthTwo 3 3 None (Some "0"%string))
    [2]
  = Normal [Throw MaxTriesExceeded].
Proof. vm_compute. reflexivity. Qed.

(* ------------------------------------------------------------------ *)
(** ** Construction *)

(** The check both constructors make of a number lets through the integers
    greater than zero and nothing else. *)
Lemma number_check_iff (v : jsnumber) :
  negb (isInteger v) || parseInt_le_0 v = false <-> positiveInteger v.
Proof.
  unfold positiveInteger. destruct v as [q|]; simpl.
  - unfold parseInt_le_0. simpl. split.
    + intro H. apply orb_false_elim in H as [Hint Hpos].
      apply negb_false_iff in Hint. apply Qeq_bool_iff in Hint.
      exists q, (Qfloor q). split; [reflexivity|]. split; [exact Hint|].
      assert (Hnum : Qnum q = (Qfloor q * Zpos (Qden q))%Z).
      { unfold Qeq in Hint. simpl in Hint. lia. }
      rewrite Hnum in Hpos. rewrite Z.quot_mul in Hpos by discriminate.
      apply Z.leb_gt in Hpos. exact Hpos.
    + intros (q' & z & Hq & Heq & Hz). injection Hq as <-.
      assert (Hfloor : Qfloor q = z)
        by (rewrite (Qfloor_comp _ _ Heq); apply Qfloor_Z).
      assert (Hnum : Qnum q = (z * Zpos (Qden q))%Z).
      { unfold Qeq in Heq. simpl in Heq. lia. }
      apply orb_false_intro.
      * apply negb_false_iff. apply Qeq_bool_iff. now rewrite Hfloor.
      * rewrite Hnum. rewrite Z.quot_mul by discriminate.
        apply Z.leb_gt. exact Hz.
  - split; [discriminate|]. intros (q & z & Hq & _). discriminate Hq.
Qed.

Lemma zero_not_positiveInteger : ~ positiveInteger (Some 0%Q).
Proof.
  intro H. apply number_check_iff in H. discriminate H.
Qed.

(** C8.  Construction throws one of the configuration errors exactly when
    the sample set is missing or empty, a length bound is not an integer
    greater than zero, or the sequencing strategy is missing; a minimum of
    0 is such a case.  Otherwise the object is constructed, whatever the
    spelling strategy and the seed are, present or not.  A depth that is
    given and is not an integer greater than zero makes the construction of
    the character-depth strategy throw; depth 0 is such a case. *)
Theorem constructor_validates_eagerly (R : RandomSeeded.t) (a : args) :
  ((exists e, constructor R a = Throw e /\ configurationError e) <->
   (sampleSet a = None \/ sampleSet a = Some [] \/
    ~ positiveInteger (targetLengthMin a) \/
    ~ positiveInteger (targetLengthMax a) \/
    sequencingStrategy a = None)) /\
  (targetLengthMin a = Some 0%Q ->
   exists e, constructor R a = Throw e /\ configurationError e) /\
  (forall samples strategy,
      sampleSet a = Some samples -> samples <> [] ->
      positiveInteger (targetLengthMin a) ->
      positiveInteger (targetLengthMax a) ->
      sequencingStrategy a = Some strategy ->
      constructor R a =
      Normal {| _sampleSet := samples;
                _targetLengthMin := targetLengthMin a;
                _targetLengthMax := targetLengthMax a;
                _seed := seed a;
                this_sequencingStrategy := strategy;
                this_spellingStrategy := spellingStrategy a;
                _rng := RandomSeeded.new R (seed a) |}) /\
  (forall depth preserveCase,
      CharDepthSequencingStrategy.constructor depth preserveCase
      = Throw DepthError
      <-> depth <> None /\ ~ positiveInteger depth) /\
  (forall preserveCase,
      CharDepthSequencingStrategy.constructor (Some 0%Q) preserveCase
      = Throw DepthError).
Proof.
  assert (Hiff :
    (exists e, constructor R a = Throw e /\ configurationError e) <->
    (sampleSet a = None \/ sampleSet a = Some [] \/
     ~ positiveInteger (targetLengthMin a) \/
     ~ positiveInteger (targetLengthMax a) \/
     sequencingStrategy a = None)).
  { unfold constructor, configurationError.
    destruct (sampleSet a) as [[|s samples]|].
    - simpl. split; [intros _; right; now left|].
      intros _. exists SampleSetError. split; [reflexivity | now left].
    - simpl.
      destruct (negb (isInteger (targetLengthMin a))
                || parseInt_le_0 (targetLengthMin a)) eqn:Hmin.
      { split.
        - intros _. right; right; left. intro H.
          apply number_check_iff in H. congruence.
        - intros _. exists TargetLengthMinError.
          split; [reflexivity | right; now left]. }
      apply number_check_iff in Hmin.
      destruct (negb (isInteger (targetLengthMax a))
                || parseInt_le_0 (targetLengthMax a)) eqn:Hmax.
      { split.
        - intros _. right; right; right; left. intro H.
          apply number_check_iff in H. congruence.
        - intros _. exists TargetLengthMaxError.
          split; [reflexivity | right; right; now left]. }
      apply number_check_iff in Hmax.
      destruct (sequencingStrategy a) as [strategy|].
      + split.
        * intros (e & He & _). discriminate He.
        * intros [H|[H|[H|[H|H]]]]; try discriminate H; contradiction.
      + split; [intros _; now repeat right|].
        intros _. exists SequencingStrategyError.
        split; [reflexivity | right; right; right; now left].
    - split; [intros _; now left|].
      intros _. exists SampleSetError. split; [reflexivity | now left]. }
  split; [exact Hiff|]. split; [|split; [|split]].
  - intro Hzero. apply Hiff. right; right; left.
    rewrite Hzero. exact zero_not_positiveInteger.
  - intros samples strategy Hsamples Hne Hmin Hmax Hstrategy.
    unfold constructor. rewrite Hsamples, Hstrategy.
    destruct samples as [|s samples]; [congruence|]. simpl.
    apply number_check_iff in Hmin, Hmax. now rewrite Hmin, Hmax.
  - intros depth preserveCase. unfold CharDepthSequencingStrategy.constructor.
    destruct depth as [q|].
    + destruct (negb (isInteger (Some q)) || parseInt_le_0 (Some q)) eqn:Hcheck.
      * split; [|reflexivity]. intros _. split; [discriminate|].
        intro H. apply number_check_iff in H. congruence.
      * split; [discriminate|]. intros [_ H]. exfalso. apply H.
        now apply number_check_iff.
    + split; [discriminate|]. intros [H _]. congruence.
  - intro preserveCase. reflexivity.
Qed.

(** The construction of the tests goes through, with and without a seed
    and a spelling strategy; the constructions of section 8 of the
    specification throw. *)
Example constructor_examples :
  (exists this,
      constructor TapeRandom
        (argsOf testSampleSet depthTwo 3 4 None None)
      = Normal this) /\
  constructor TapeRandom
    (argsOf [] depthTwo 3 4 None (Some testSeed))
  = Throw SampleSetError /\
  constructor TapeRandom
    (argsOf testSampleSet depthTwo 0 4 None (Some testSeed))
  = Throw TargetLengthMinError /\
  constructor TapeRandom
    (argsOf testSampleSet depthTwo 3 (7 # 2) None (Some testSeed))
  = Throw TargetLengthMaxError /\
  constructor TapeRandom
    {| sampleSet := Some testSampleSet;
       targetLengthMin := Some 3%Q;
       targetLengthMax := Some 4%Q;
       sequencingStrategy := None;
       seed := Some testSeed;
       spellingStrategy := None |}
  = Throw SequencingStrategyError /\
  CharDepthSequencingStrategy.constructor (Some 0%Q) None = Throw DepthError /\
  CharDepthSequencingStrategy.constructor None None
  = Normal (CharDepthSequencingStrategy.mk 1 false).
Proof.
  split; [eexists; reflexivity|]. repeat split; reflexivity.
Qed.

(* ------------------------------------------------------------------ *)
(** ** Fuel

    The fuel only bounds the [while] loop of [_generateSingleWord].  Where
    every middle sequence has a character and the draw for the target stays
    within its bounds, the upper bound is fuel enough: the call returns or
    throws. *)

Lemma _getMatchingSequence_In (weightedList : list ProbabilityAndSequence.t)
  (value : Q) (item : ProbabilityAndSequence.t) :
  _getMatchingSequence weightedList value = Normal item -> In item weightedList.
Proof.
  induction weightedList as [|x l IH]; simpl; [discriminate|].
  destruct (leq value (ProbabilityAndSequence.probability x)).
  - intro H. injection H as <-. now left.
  - intro H. right. now apply IH.
Qed.

Lemma _getMatchingSequence_fuel (weightedList : list ProbabilityAndSequence.t)
  (value : Q) :
  _getMatchingSequence weightedList value <> OutOfFuel.
Proof.
  induction weightedList as [|x l IH]; simpl; [discriminate|].
  destruct (leq value (ProbabilityAndSequence.probability x));
    [discriminate | exact IH].
Qed.

Lemma Math_round_le (x y : Q) : (x <= y)%Q -> (Math_round x <= Math_round y)%Z.
Proof.
  intro H. unfold Math_round. apply Qfloor_resp_le.
  apply Qplus_le_compat; [exact H | apply Qle_refl].
Qed.

Section Fuel.

Variable R : RandomSeeded.t.
Variable probableMiddles : list ProbabilityAndSequence.t.

Hypothesis middles_have_chars :
  forall o, In o probableMiddles ->
    1 <= String.length
           (AggregatedSequence.chars (ProbabilityAndSequence.sequence o)).

Lemma middleSequences_enough_fuel (targetLength : Z) :
  forall fuel resultingSequences charactersLength r,
    (targetLength - Z.of_nat charactersLength <= Z.of_nat fuel)%Z ->
    fst (middleSequences R fuel probableMiddles targetLength
           resultingSequences charactersLength r) <> OutOfFuel.
Proof.
  induction fuel as [|fuel IH]; intros acc len r Hfuel;
    rewrite middleSequences_eq;
    destruct (Z.ltb_spec (Z.of_nat len) targetLength) as [Hlt|Hge];
    try discriminate; [lia|].
  unfold bind, rng_generate, lift.
  destruct (RandomSeeded.generate R None None r) as [value r1].
  destruct (_getMatchingSequence probableMiddles value) as [middle| |] eqn:Hm;
    [|discriminate|now apply _getMatchingSequence_fuel in Hm].
  apply IH.
  pose proof (middles_have_chars middle (_getMatchingSequence_In _ _ _ Hm)).
  lia.
Qed.

Lemma _generateSingleWord_enough_fuel
  (probableBeginnings probableEndings : list ProbabilityAndSequence.t)
  (minLength maxLength : Q) (fuel : nat) (r : RandomSeeded.rng R) :
  in_range R ->
  (minLength <= maxLength)%Q ->
  (Math_round maxLength <= Z.of_nat fuel)%Z ->
  fst (_generateSingleWord R fuel probableBeginnings probableMiddles
         probableEndings (Some minLength) (Some maxLength) r) <> OutOfFuel.
Proof.
  intros Hrange Hle Hfuel.
  unfold _generateSingleWord, bind, rng_generate, lift, ret. cbv beta zeta.
  destruct (Hrange r) as [_ Hbounds].
  specialize (Hbounds minLength maxLength Hle).
  destruct (RandomSeeded.generate R (Some minLength) (Some maxLength) r)
    as [x r1]. simpl in Hbounds.
  destruct (RandomSeeded.generate R None None r1) as [rndBeginning r2].
  destruct (_getMatchingSequence probableBeginnings rndBeginning)
    as [beginning| |] eqn:Hb;
    [|discriminate|now apply _getMatchingSequence_fuel in Hb].
  destruct (RandomSeeded.generate R None None r2) as [rndEnding r3].
  destruct (_getMatchingSequence probableEndings rndEnding)
    as [ending| |] eqn:He;
    [|discriminate|now apply _getMatchingSequence_fuel in He].
  match goal with
  | |- context [middleSequences R fuel probableMiddles ?T ?acc ?len r3] =>
      pose proof (middleSequences_enough_fuel T fuel acc len r3) as Hmid;
      destruct (middleSequences R fuel probableMiddles T acc len r3)
        as [[result| |] r4]
  end; try discriminate.
  exfalso. apply Hmid; [|reflexivity].
  pose proof (Math_round_le x maxLength (proj2 Hbounds)). lia.
Qed.

End Fuel.

Section FuelOfCall.

Variable R : RandomSeeded.t.
Variable singleWord : M R string.

Hypothesis singleWord_fuel : forall r, fst (singleWord r) <> OutOfFuel.

(** The gas of the retry loop is never what runs out. *)
Lemma uniqueWord_gas (words : list string) (r : RandomSeeded.rng R) :
  fst (uniqueWord R (S repetitionMaximum) singleWord words None 0 r)
  <> OutOfFuel.
Proof.
  destruct (uniqueWord R (S repetitionMaximum) singleWord words None 0 r)
    as [c r'] eqn:H.
  apply uniqueWord_run in H; [|lia|lia|exact I].
  destruct c as [wa|e|]; try discriminate.
  destruct H as (n & r1 & _ & _ & Hlast).
  exfalso. apply (singleWord_fuel r1). now rewrite Hlast.
Qed.

Lemma generateWords_fuel :
  forall howMany words r,
    fst (generateWords R singleWord howMany words r) <> OutOfFuel.
Proof.
  induction howMany as [|howMany IH]; intros words r; [discriminate|].
  rewrite generateWords_eq.
  pose proof (uniqueWord_gas words r) as Hgas.
  destruct (uniqueWord R (S repetitionMaximum) singleWord words None 0 r)
    as [[wa| |] r1]; [apply IH | discriminate | now simpl in Hgas].
Qed.

End FuelOfCall.

(** The sequences a built table holds are sequences of the probabilities it
    was built from. *)
Lemma enrich_sequences (l : list ProbabilityAndSequence.t) :
  forall p, map ProbabilityAndSequence.sequence (enrich p l)
            = map ProbabilityAndSequence.sequence l.
Proof. induction l; intro p; simpl; [reflexivity | now rewrite IHl]. Qed.

Lemma setLastProbability_sequences (l table : list ProbabilityAndSequence.t) :
  setLastProbability l = Normal table ->
  map ProbabilityAndSequence.sequence table
  = map ProbabilityAndSequence.sequence l.
Proof.
  revert table. induction l as [|x l IH]; intros table H; [discriminate|].
  destruct l as [|y l]; [injection H as <-; reflexivity|].
  change (match setLastProbability (y :: l) with
          | Normal rest' => Normal (x :: rest')
          | other => other
          end = Normal table) in H.
  destruct (setLastProbability (y :: l)) as [rest'| |]; try discriminate.
  injection H as <-.
  change (ProbabilityAndSequence.sequence x
            :: map ProbabilityAndSequence.sequence rest'
          = ProbabilityAndSequence.sequence x
            :: map ProbabilityAndSequence.sequence (y :: l)).
  now rewrite (IH rest' eq_refl).
Qed.

Lemma _getWeightedProbabilities_sequences probabilities type table o :
  _getWeightedProbabilities probabilities type = Normal table ->
  In o table ->
  exists it, In it probabilities /\
             ProbabilityAndSequence.sequence o
             = AggregatedSequenceProbabilities.sequence it.
Proof.
  unfold _getWeightedProbabilities. intros Hbuilt Hin.
  apply setLastProbability_sequences in Hbuilt.
  rewrite enrich_sequences, filteredAndSorted_is_filtered in Hbuilt.
  apply (in_map ProbabilityAndSequence.sequence) in Hin.
  rewrite Hbuilt in Hin. unfold filtered in Hin. rewrite map_map in Hin.
  apply in_map_iff in Hin as (it & Heq & Hit). simpl in Heq.
  apply filter_In in Hit as [Hit _]. exists it. now split.
Qed.

(** The aggregated sequences carry the characters of the sequences they
    were aggregated from. *)
Lemma aggregate_chars (P : string -> Prop) (sequences : list Sequence.t) :
  (forall t, In t sequences -> P (Sequence.chars t)) ->
  forall a, In a (_aggregateSequences sequences) ->
            P (AggregatedSequence.chars a).
Proof.
  intros Hseq.
  assert (Hinv : forall m,
             Forall (fun kv => P (AggregatedSequence.chars (snd kv))) m ->
             Forall (fun kv => P (AggregatedSequence.chars (snd kv)))
                    (fold_left aggregateSequence sequences m)).
  { induction sequences as [|t ts IH]; intros m Hm; simpl; [assumption|].
    apply IH; [intros; apply Hseq; now right|].
    unfold aggregateSequence.
    apply (Map_set_Forall (fun a => P (AggregatedSequence.chars a)));
      [assumption|]. simpl.
    destruct (Map_get m (Sequence.chars t)) as [found|] eqn:G.
    - exact (Map_get_Forall
               (fun a => P (AggregatedSequence.chars a)) _ _ _ Hm G).
    - apply Hseq. now left. }
  intros agg Hagg. unfold _aggregateSequences, Map_values in Hagg.
  apply in_map_iff in Hagg as [[k v] [<- Hin]].
  specialize (Hinv [] (Forall_nil _)).
  rewrite Forall_forall in Hinv. exact (Hinv _ Hin).
Qed.

(** A strategy of depth one or more cuts no empty sequence. *)
Lemma CharDepth_sequences_have_chars (this : CharDepthSequencingStrategy.t)
  (sampleSet : list string) :
  1 <= CharDepthSequencingStrategy.depth this ->
  forall t, In t (CharDepthSequencingStrategy.getSequencesOfSet this sampleSet) ->
            1 <= String.length (Sequence.chars t).
Proof.
  intros Hd t Hin. unfold CharDepthSequencingStrategy.getSequencesOfSet in Hin.
  apply in_flat_map in Hin as (sample & _ & Hin).
  apply In_nth_error in Hin as [k Hk].
  rewrite CharDepthFacts.getSequencesOfSample_nth_error in Hk by assumption.
  destruct (Nat.ltb_spec (k * CharDepthSequencingStrategy.depth this)
              (String.length sample)); [|discriminate].
  injection Hk as <-. rewrite CharDepthFacts.sequenceAt_length. lia.
Qed.

(** With a character-depth strategy, a generator of numbers that keeps to
    its bounds and a minimum that is not above the maximum, a call of
    [generate] given the maximum as fuel returns or throws. *)
Lemma generate_enough_fuel (R : RandomSeeded.t) (fuel : nat)
  (this : MarkovChainWordGenerator R) (strategy : CharDepthSequencingStrategy.t)
  (minLength maxLength : Q) (howMany : nat) :
  in_range R ->
  this_sequencingStrategy R this = CharDepthSequencingStrategy.strategy strategy ->
  1 <= CharDepthSequencingStrategy.depth strategy ->
  _targetLengthMin R this = Some minLength ->
  _targetLengthMax R this = Some maxLength ->
  (minLength <= maxLength)%Q ->
  (Math_round maxLength <= Z.of_nat fuel)%Z ->
  fst (generate R fuel this howMany) <> OutOfFuel.
Proof.
  intros Hrange Hstrategy Hdepth Hmin Hmax Hle Hfuel.
  rewrite generate_eq.
  destruct (tables_cases R this)
    as [(probableBeginnings & probableMiddles & probableEndings & Ht) | Ht];
    rewrite Ht; [|discriminate].
  rewrite Hmin, Hmax.
  match goal with
  | |- context [generateWords R ?single howMany [] ?r] =>
      pose proof (generateWords_fuel R single) as Hwords;
      destruct (generateWords R single howMany [] r) as [[words| |] r'] eqn:E
  end; try discriminate.
  exfalso. refine (Hwords _ howMany [] (_rng R this) _); [|now rewrite E].
  intro r0. apply _generateSingleWord_enough_fuel; try assumption.
  intros o Ho.
  unfold tables in Ht. rewrite Hstrategy in Ht. simpl in Ht.
  destruct (_getWeightedProbabilities _ BEGINNING) as [beginnings| |];
    try discriminate Ht.
  destruct (_getWeightedProbabilities _ MIDDLE) as [middles| |] eqn:Hm;
    try discriminate Ht.
  destruct (_getWeightedProbabilities _ ENDING) as [endings| |];
    try discriminate Ht.
  injection Ht as _ <- _.
  destruct (_getWeightedProbabilities_sequences _ _ _ o Hm Ho)
    as (it & Hit & ->).
  unfold _getAggregatedSequenceProbabilities in Hit.
  apply in_map_iff in Hit as (aggregated & <- & Haggregated). simpl.
  revert aggregated Haggregated.
  apply (aggregate_chars (fun chars => 1 <= String.length chars)).
  now apply CharDepth_sequences_have_chars.
Qed.

(** The generator the examples run with keeps to the bounds the
    specification sets. *)
Lemma tapeValue_range (c : ascii) : (0 <= tapeValue c < 1)%Q.
Proof.
  unfold tapeValue.
  pose proof (Nat.mod_upper_bound (nat_of_ascii c) 128 ltac:(discriminate))
    as Hlt.
  set (k := nat_of_ascii c mod 128) in *.
  rewrite (Qred_correct (inject_Z (Z.of_nat k) / 128)).
  split.
  - apply Qle_shift_div_l; [reflexivity|].
    unfold Qle. simpl. lia.
  - apply Qlt_shift_div_r; [reflexivity|].
    unfold Qlt. simpl. lia.
Qed.

Lemma TapeRandom_in_range : in_range TapeRandom.
Proof.
  intro tape.
  assert (Hv : (0 <= match tape with
                     | EmptyString => 0
                     | String c _ => tapeValue c
                     end < 1)%Q).
  { destruct tape as [|c rest]; [split; [apply Qle_refl | reflexivity]|].
    apply tapeValue_range. }
  split; [exact Hv|].
  intros a b Hab. simpl.
  destruct Hv as [H0 H1].
  set (v := match tape with
            | EmptyString => 0%Q
            | String c _ => tapeValue c
            end) in *.
  rewrite (Qred_correct (a + v * (b - a))).
  split; nra.
Qed.

(** The generator of the tests, whatever its seed and the number of words
    asked for: with the maximum length 7 as fuel, [generate] returns or
    throws. *)
Example generate_of_the_tests_returns_or_throws
  (seed : option string) (howMany : nat) :
  exists this,
    constructor TapeRandom
      (argsOf testSampleSet depthTwo 3 7
         (Some BeginningCapitalsSpellingStrategy) seed)
    = Normal this /\
    fst (generate TapeRandom 7 this howMany) <> OutOfFuel.
Proof.
  eexists. split; [reflexivity|].
  apply (generate_enough_fuel TapeRandom 7 _ depthTwo 3 7).
  - exact TapeRandom_in_range.
  - reflexivity.
  - simpl. lia.
  - reflexivity.
  - reflexivity.
  - unfold Qle. simpl. lia.
  - vm_compute. discriminate.
Qed.

(* ================================================================== *)
(** * More properties of the code *)

(* ------------------------------------------------------------------ *)
(** ** Substrings *)






(* ------------------------------------------------------------------ *)
(** ** The sequences of a sample *)

Section Chunks.

Variable this : CharDepthSequencingStrategy.t.
Variable sample : string.
Hypothesis depth_pos : 1 <= CharDepthSequencingStrategy.depth this.




End Chunks.





(** X3.  Of the sequences of a sample the first, and no other, is tagged
    as a beginning; a sequence tagged as a middle carries no other tag;
    every sequence carries a tag; and a sequence is a beginning and an
    ending at once only in a sample of one character. *)
Theorem getSequencesOfSample_tags
  (this : CharDepthSequencingStrategy.t) (sample : string) (k : nat)
  (t : Sequence.t) :
  1 <= CharDepthSequencingStrategy.depth this ->
  nth_error (CharDepthSequencingStrategy.getSequencesOfSample this sample) k
  = Some t ->
  (Sequence.isBeginning t = true <-> k = 0) /\
  (Sequence.isMiddle t = true ->
   Sequence.isBeginning t = false /\ Sequence.isEnding t = false) /\
  Sequence.isBeginning t || Sequence.isMiddle t || Sequence.isEnding t = true /\
  (Sequence.isBeginning t = true -> Sequence.isEnding t = true ->
   String.length sample = 1).
Proof.
  intros Hd Hk.
  rewrite CharDepthFacts.getSequencesOfSample_nth_error in Hk by assumption.
  destruct (Nat.ltb_spec (k * CharDepthSequencingStrategy.depth this)
              (String.length sample)) as [Hin|]; [|discriminate].
  injection Hk as <-.
  unfold CharDepthSequencingStrategy.sequenceAt. simpl.
  set (d := CharDepthSequencingStrategy.depth this) in *.
  destruct (Nat.eqb_spec (k * d) 0) as [H0|H0];
    destruct (Nat.ltb_spec (k * d + 1) (String.length sample)) as [Hf|Hf];
    simpl; repeat split; intros; try discriminate; try reflexivity;
    try nia; try (exfalso; nia).
Qed.

Lemma getSequencesOfSample_tags_witness :
  let t := Sequence.mk "bb" false true false in
  1 <= CharDepthSequencingStrategy.depth depthTwo /\
  nth_error (CharDepthSequencingStrategy.getSequencesOfSample depthTwo "Bobby") 1
  = Some t /\
  (Sequence.isBeginning t = true <-> 1 = 0) /\
  (Sequence.isMiddle t = true ->
   Sequence.isBeginning t = false /\ Sequence.isEnding t = false) /\
  Sequence.isBeginning t || Sequence.isMiddle t || Sequence.isEnding t = true /\
  (Sequence.isBeginning t = true -> Sequence.isEnding t = true ->
   String.length "Bobby" = 1).
Proof.
  intro t. split; [simpl; lia|]. split; [reflexivity|].
  apply (getSequencesOfSample_tags depthTwo "Bobby" 1 t);
    [simpl; lia | reflexivity].
Defined.

(* ------------------------------------------------------------------ *)
(** ** The settings of the character-depth strategy *)

Lemma parseInt_of_integer (q : Q) (z : Z) :
  (q == inject_Z z)%Q -> parseInt (Some q) = Some z.
Proof.
  intro Heq. unfold parseInt. f_equal.
  assert (Hnum : Qnum q = (z * Zpos (Qden q))%Z).
  { unfold Qeq in Heq. simpl in Heq. lia. }
  rewrite Hnum. apply Z.quot_mul. discriminate.
Qed.

(** X4.  A strategy that the constructor has built has a depth of at least
    one, and is built again from its own settings: constructing with
    [getSettings().depth] and [getSettings().preserveCase], as
    [GeneratorSettings._getSequencingStrategy] does, gives the same
    strategy. *)
Theorem CharDepth_built_again_from_its_settings
  (depth : jsnumber) (preserveCase : option bool)
  (this : CharDepthSequencingStrategy.t) :
  CharDepthSequencingStrategy.constructor depth preserveCase = Normal this ->
  1 <= CharDepthSequencingStrategy.depth this /\
  CharDepthSequencingStrategy.constructor
    (Settings.depth (CharDepth_getSettings this))
    (Settings.preserveCase (CharDepth_getSettings this))
  = Normal this.
Proof.
  unfold CharDepthSequencingStrategy.constructor.
  set (given := match depth with None => Some 1%Q | Some _ => depth end).
  destruct (negb (isInteger given) || parseInt_le_0 given) eqn:Hcheck;
    [discriminate|].
  intro H. injection H as <-.
  apply number_check_iff in Hcheck as (q & z & Hq & Heq & Hz).
  rewrite Hq. rewrite (parseInt_of_integer q z Heq).
  cbn [CharDepthSequencingStrategy.depth
       CharDepthSequencingStrategy.preserveCase
       CharDepth_getSettings Settings.depth Settings.preserveCase].
  split; [lia|].
  set (n := inject_Z (Z.of_nat (Z.to_nat z))).
  assert (Hpos : positiveInteger (Some n)).
  { exists n, (Z.of_nat (Z.to_nat z)).
    split; [reflexivity|]. split; [reflexivity | lia]. }
  apply number_check_iff in Hpos. rewrite Hpos.
  rewrite (parseInt_of_integer n (Z.of_nat (Z.to_nat z))) by reflexivity.
  rewrite Nat2Z.id. reflexivity.
Qed.

Lemma CharDepth_built_again_from_its_settings_witness :
  CharDepthSequencingStrategy.constructor (Some 2%Q) None = Normal depthTwo /\
  1 <= CharDepthSequencingStrategy.depth depthTwo /\
  CharDepthSequencingStrategy.constructor
    (Settings.depth (CharDepth_getSettings depthTwo))
    (Settings.preserveCase (CharDepth_getSettings depthTwo))
  = Normal depthTwo.
Proof.
  split; [reflexivity|].
  apply (CharDepth_built_again_from_its_settings (Some 2%Q) None depthTwo).
  reflexivity.
Defined.

(* ------------------------------------------------------------------ *)
(** ** The map of the aggregation *)

Lemma Map_get_set {V} (m : Map V) (k key : string) (v : V) :
  Map_get (Map_set m k v) key
  = if String.eqb k key then Some v else Map_get m key.
Proof.
  induction m as [|[k0 v0] m IH]; simpl.
  - reflexivity.
  - destruct (String.eqb_spec k0 k) as [->|Hne]; simpl.
    + destruct (String.eqb k key); reflexivity.
    + rewrite IH. destruct (String.eqb_spec k0 key) as [->|Hne'].
      * destruct (String.eqb_spec k key); [congruence | reflexivity].
      * reflexivity.
Qed.

Lemma Map_set_keys {V} (m : Map V) (k : string) (v : V) :
  map fst (Map_set m k v)
  = match Map_get m k with
    | Some _ => map fst m
    | None => map fst m ++ [k]
    end.
Proof.
  induction m as [|[k0 v0] m IH]; simpl; [reflexivity|].
  destruct (String.eqb k0 k); simpl; [reflexivity|].
  rewrite IH. now destruct (Map_get m k).
Qed.

Lemma Map_get_In {V} (m : Map V) (k : string) (v : V) :
  NoDup (map fst m) -> In (k, v) m -> Map_get m k = Some v.
Proof.
  induction m as [|[k0 v0] m IH]; simpl; intros Hnd Hin; [contradiction|].
  inversion Hnd as [|? ? Hnotin Hnd']; subst.
  destruct Hin as [E|Hin].
  - injection E as -> ->. now rewrite String.eqb_refl.
  - destruct (String.eqb_spec k0 k) as [->|Hne]; [|auto].
    exfalso. apply Hnotin. apply (in_map fst) in Hin. exact Hin.
Qed.

(* ------------------------------------------------------------------ *)
(** ** Counting and first occurrences *)

Lemma occurrences_snoc tag chars (l : list Sequence.t) (t : Sequence.t) :
  occurrences tag chars (l ++ [t])
  = occurrences tag chars l
    + (if String.eqb (Sequence.chars t) chars && tag t then 1 else 0).
Proof.
  unfold occurrences. rewrite filter_app, length_app. simpl.
  destruct (String.eqb (Sequence.chars t) chars && tag t); reflexivity.
Qed.

Lemma occurrences_le tag chars (l : list Sequence.t) :
  occurrences tag chars l <= occurrences (fun _ => true) chars l.
Proof.
  unfold occurrences. induction l as [|t l IH]; simpl; [lia|].
  destruct (String.eqb (Sequence.chars t) chars); simpl; [|exact IH].
  destruct (tag t); simpl; lia.
Qed.

Lemma occurrences_positive tag chars (l : list Sequence.t) :
  0 < occurrences tag chars l <->
  exists t, In t l /\ Sequence.chars t = chars /\ tag t = true.
Proof.
  unfold occurrences. split.
  - intro H.
    destruct (filter _ l) as [|t rest] eqn:E; [simpl in H; lia|].
    assert (Hin : In t (t :: rest)) by now left.
    rewrite <- E in Hin. apply filter_In in Hin as [Hin Hb].
    apply andb_prop in Hb as [Hc Ht]. apply String.eqb_eq in Hc.
    now exists t.
  - intros (t & Hin & Hc & Ht).
    assert (Hf : In t (filter
                         (fun t => String.eqb (Sequence.chars t) chars && tag t) l)).
    { apply filter_In. split; [assumption|].
      rewrite Hc, String.eqb_refl, Ht. reflexivity. }
    destruct (filter _ l); [contradiction | simpl; lia].
Qed.

Lemma firstOccurrences_In (l : list string) (x : string) :
  In x (firstOccurrences l) <-> In x l.
Proof.
  induction l as [|y l IH]; simpl; [tauto|].
  rewrite filter_In, IH.
  destruct (String.eqb_spec y x) as [->|Hne]; simpl.
  - split; [now left | now left].
  - split.
    + intros [E|[H _]]; [congruence | now right].
    + intros [E|H]; [congruence | right; now split].
Qed.

Lemma firstOccurrences_NoDup (l : list string) : NoDup (firstOccurrences l).
Proof.
  induction l as [|y l IH]; simpl; constructor.
  - rewrite filter_In. intros [_ H].
    rewrite String.eqb_refl in H. discriminate.
  - now apply NoDup_filter.
Qed.

Lemma firstOccurrences_snoc (l : list string) (x : string) :
  firstOccurrences (l ++ [x])
  = if in_dec string_dec x l
    then firstOccurrences l else firstOccurrences l ++ [x].
Proof.
  induction l as [|y l IH]; simpl.
  - reflexivity.
  - rewrite IH.
    destruct (string_dec y x) as [->|Hne].
    + destruct (in_dec string_dec x l) as [Hin|Hnotin]; [reflexivity|].
      rewrite filter_app. simpl. rewrite String.eqb_refl. simpl.
      now rewrite app_nil_r.
    + destruct (in_dec string_dec x l) as [Hin|Hnotin]; [reflexivity|].
      rewrite filter_app. simpl.
      destruct (String.eqb_spec y x); [congruence|]. reflexivity.
Qed.

(* ------------------------------------------------------------------ *)
(** ** What the aggregation counts *)

Lemma occurrences_none_iff chars (l : list Sequence.t) :
  occurrences (fun _ => true) chars l = 0 <->
  ~ In chars (map Sequence.chars l).
Proof.
  split.
  - intros H0 Hin. apply in_map_iff in Hin as (t & Hc & Hin).
    assert (0 < occurrences (fun _ => true) chars l)
      by (apply occurrences_positive; now exists t).
    lia.
  - intro Hnotin.
    destruct (occurrences (fun _ => true) chars l) eqn:E; [reflexivity|].
    exfalso. apply Hnotin.
    assert (H : 0 < occurrences (fun _ => true) chars l) by lia.
    apply occurrences_positive in H as (t & Hin & Hc & _).
    apply in_map_iff. now exists t.
Qed.

(** The map after the sequences [done]: its keys are the characters met,
    in the order met; under each key sits the record of the counts. *)
Lemma fold_aggregateSequence (done : list Sequence.t) :
  let m := fold_left aggregateSequence done [] in
  map fst m = firstOccurrences (map Sequence.chars done) /\
  forall key,
    Map_get m key
    = if 0 <? occurrences (fun _ => true) key done
      then Some (aggregateOf key done) else None.
Proof.
  induction done as [|t done IH] using rev_ind.
  - split; [reflexivity | intro key; reflexivity].
  - destruct IH as [Hkeys Hget].
    rewrite fold_left_app. simpl.
    set (m := fold_left aggregateSequence done []) in *.
    unfold aggregateSequence. split.
    + rewrite Map_set_keys, Hget, map_app. cbn [map].
      rewrite firstOccurrences_snoc.
      destruct (Nat.ltb_spec 0
                  (occurrences (fun _ => true) (Sequence.chars t) done))
        as [Hpos|Hzero];
        destruct (in_dec string_dec (Sequence.chars t)
                    (map Sequence.chars done)) as [Hin|Hnotin];
        try (now rewrite Hkeys).
      * exfalso. apply occurrences_none_iff in Hnotin. lia.
      * exfalso. apply occurrences_none_iff in Hin; [exact Hin | lia].
    + intro key. rewrite Map_get_set, Hget.
      destruct (String.eqb_spec (Sequence.chars t) key) as [<-|Hne].
      * assert (Hnew : (0 <? occurrences (fun _ => true) (Sequence.chars t)
                               (done ++ [t])) = true).
        { apply Nat.ltb_lt. rewrite occurrences_snoc, String.eqb_refl.
          simpl. lia. }
        rewrite Hnew. f_equal. unfold aggregateOf.
        rewrite !occurrences_snoc, String.eqb_refl. cbn [andb].
        pose proof (occurrences_le Sequence.isBeginning
                      (Sequence.chars t) done).
        pose proof (occurrences_le Sequence.isMiddle
                      (Sequence.chars t) done).
        pose proof (occurrences_le Sequence.isEnding
                      (Sequence.chars t) done).
        destruct (Nat.ltb_spec 0
                    (occurrences (fun _ => true) (Sequence.chars t) done))
          as [Hpos|Hzero]; simpl;
          destruct (Sequence.isBeginning t), (Sequence.isMiddle t),
            (Sequence.isEnding t); f_equal; lia.
      * assert (Hsame : forall tag,
                   occurrences tag key (done ++ [t]) = occurrences tag key done).
        { intro tag. rewrite occurrences_snoc.
          destruct (String.eqb_spec (Sequence.chars t) key); [congruence|].
          simpl. lia. }
        rewrite (Hget key). unfold aggregateOf. rewrite !Hsame. reflexivity.
Qed.

Lemma aggregate_keys (sequences : list Sequence.t) :
  map AggregatedSequence.chars (_aggregateSequences sequences)
  = firstOccurrences (map Sequence.chars sequences) /\
  forall a, In a (_aggregateSequences sequences) ->
            a = aggregateOf (AggregatedSequence.chars a) sequences /\
            0 < occurrences (fun _ => true)
                  (AggregatedSequence.chars a) sequences.
Proof.
  destruct (fold_aggregateSequence sequences) as [Hkeys Hget].
  set (m := fold_left aggregateSequence sequences []) in *.
  assert (Hnd : NoDup (map fst m))
    by (rewrite Hkeys; apply firstOccurrences_NoDup).
  assert (Hentry : forall k v, In (k, v) m ->
            v = aggregateOf k sequences /\
            0 < occurrences (fun _ => true) k sequences).
  { intros k v Hin. pose proof (Map_get_In m k v Hnd Hin) as Hg.
    rewrite Hget in Hg.
    destruct (Nat.ltb_spec 0 (occurrences (fun _ => true) k sequences));
      [|discriminate].
    injection Hg as <-. now split. }
  split.
  - rewrite <- Hkeys. unfold _aggregateSequences, Map_values. fold m.
    rewrite map_map. apply map_ext_in. intros [k v] Hin.
    destruct (Hentry k v Hin) as [-> _]. reflexivity.
  - intros a Ha. unfold _aggregateSequences, Map_values in Ha. fold m in Ha.
    apply in_map_iff in Ha as ([k v] & <- & Hin).
    destruct (Hentry k v Hin) as [-> Hpos]. simpl. now split.
Qed.

(** X5.  Each record of the aggregation counts the sequences with its
    characters: in all, and those tagged as a beginning, as a middle and as
    an ending.  Each record stands for at least one sequence, no two
    records have the same characters, and every sequence has its record. *)
Theorem _aggregateSequences_counts (sequences : list Sequence.t) :
  let aggregated := _aggregateSequences sequences in
  NoDup (map AggregatedSequence.chars aggregated) /\
  (forall a, In a aggregated ->
     1 <= AggregatedSequence.frequency a /\
     AggregatedSequence.frequency a
     = occurrences (fun _ => true) (AggregatedSequence.chars a) sequences /\
     AggregatedSequence.frequencyBeginning a
     = occurrences Sequence.isBeginning (AggregatedSequence.chars a) sequences /\
     AggregatedSequence.frequencyMiddle a
     = occurrences Sequence.isMiddle (AggregatedSequence.chars a) sequences /\
     AggregatedSequence.frequencyEnding a
     = occurrences Sequence.isEnding (AggregatedSequence.chars a) sequences) /\
  (forall t, In t sequences ->
     exists a, In a aggregated /\
               AggregatedSequence.chars a = Sequence.chars t).
Proof.
  intro aggregated.
  destruct (aggregate_keys sequences) as [Hkeys Hentry].
  fold aggregated in Hkeys, Hentry.
  split; [rewrite Hkeys; apply firstOccurrences_NoDup|]. split.
  - intros a Ha. destruct (Hentry a Ha) as [Heq Hpos].
    rewrite Heq at 1 2 4 6 8. simpl. repeat split; try reflexivity.
    exact Hpos.
  - intros t Hin.
    assert (Hk : In (Sequence.chars t)
                    (map AggregatedSequence.chars aggregated)).
    { rewrite Hkeys. apply firstOccurrences_In. now apply in_map. }
    apply in_map_iff in Hk as (a & Hc & Ha). now exists a.
Qed.

(** X6.  The records of the aggregation come in the order in which their
    characters are first met in the sequences.  (This is the order the
    weighted tables keep.) *)
Theorem _aggregateSequences_order (sequences : list Sequence.t) :
  map AggregatedSequence.chars (_aggregateSequences sequences)
  = firstOccurrences (map Sequence.chars sequences).
Proof. exact (proj1 (aggregate_keys sequences)). Qed.

(* ------------------------------------------------------------------ *)
(** ** The probabilities of a type of sequence *)

Lemma fold_left_total {A} (f : A -> nat) (l : list A) :
  forall n, fold_left (fun total a => total + f a) l n
            = n + list_sum (map f l).
Proof.
  induction l as [|a l IH]; intro n; simpl; [lia|].
  rewrite IH. lia.
Qed.

Lemma list_sum_In {A} (f : A -> nat) (l : list A) (a : A) :
  In a l -> f a <= list_sum (map f l).
Proof.
  induction l as [|b l IH]; simpl; [intros []|].
  intros [<-|Hin]; [lia|]. specialize (IH Hin). lia.
Qed.

Lemma ratio_value (a b : nat) : (ratio a b == inject_Z (Z.of_nat a) / inject_Z (Z.of_nat b))%Q.
Proof. unfold ratio. apply Qred_correct. Qed.

Lemma number_positive (n : nat) : 0 < n -> (0 < inject_Z (Z.of_nat n))%Q.
Proof.
  intro H. change 0%Q with (inject_Z 0). rewrite <- Zlt_Qlt. lia.
Qed.

Lemma ratio_range (a b : nat) :
  0 < a -> a <= b -> (0 < ratio a b <= 1)%Q.
Proof.
  intros Ha Hab. rewrite ratio_value.
  assert (Hb : (0 < inject_Z (Z.of_nat b))%Q) by (apply number_positive; lia).
  split.
  - apply Qlt_shift_div_l; [exact Hb|].
    rewrite Qmult_0_l. now apply number_positive.
  - apply Qle_shift_div_r; [exact Hb|].
    rewrite Qmult_1_l. rewrite <- Zle_Qle. lia.
Qed.

Lemma probabilityOf_share (type : SEQUENCE_TYPES)
  (aggregated : list AggregatedSequence.t) :
  map (probabilityOf type) (_getAggregatedSequenceProbabilities aggregated)
  = map (shareOf type aggregated) aggregated.
Proof.
  unfold _getAggregatedSequenceProbabilities.
  rewrite !fold_left_total, map_map. simpl.
  apply map_ext. intro a. destruct type; reflexivity.
Qed.

Lemma probabilities_sequences (aggregated : list AggregatedSequence.t) :
  map AggregatedSequenceProbabilities.sequence
    (_getAggregatedSequenceProbabilities aggregated)
  = aggregated.
Proof.
  unfold _getAggregatedSequenceProbabilities.
  rewrite map_map. simpl. apply map_id.
Qed.

Lemma probabilities_entry (type : SEQUENCE_TYPES)
  (aggregated : list AggregatedSequence.t)
  (it : AggregatedSequenceProbabilities.t) :
  In it (_getAggregatedSequenceProbabilities aggregated) ->
  In (AggregatedSequenceProbabilities.sequence it) aggregated /\
  probabilityOf type it
  = shareOf type aggregated (AggregatedSequenceProbabilities.sequence it).
Proof.
  unfold _getAggregatedSequenceProbabilities.
  rewrite !fold_left_total. intro Hin.
  apply in_map_iff in Hin as (a & <- & Ha). simpl.
  split; [exact Ha | destruct type; reflexivity].
Qed.

Lemma sumQ_shares (type : SEQUENCE_TYPES) (total : nat)
  (l : list AggregatedSequence.t) :
  (sumQ (map (fun a => if 0 <? frequencyOf type a
                       then ratio (frequencyOf type a) total else 0%Q) l)
   == inject_Z (Z.of_nat (list_sum (map (frequencyOf type) l))) / inject_Z (Z.of_nat total))%Q.
Proof.
  induction l as [|a l IH]; simpl.
  - unfold Qdiv. now rewrite Qmult_0_l.
  - rewrite IH. rewrite Nat2Z.inj_add, inject_Z_plus.
    unfold Qdiv. rewrite Qmult_plus_distr_l.
    apply Qplus_comp; [|reflexivity].
    destruct (Nat.ltb_spec 0 (frequencyOf type a)) as [Hpos|Hzero].
    + apply ratio_value.
    + replace (frequencyOf type a) with 0 by lia. simpl.
      now rewrite Qmult_0_l.
Qed.

Lemma positive_iff (x : Q) : positive x = true <-> (0 < x)%Q.
Proof.
  unfold positive, lt. rewrite negb_true_iff.
  split.
  - intro H. apply Qnot_le_lt. intro Hle.
    apply Qle_bool_iff in Hle. congruence.
  - intro H. destruct (Qle_bool x 0) eqn:E; [|reflexivity].
    apply Qle_bool_iff in E. exfalso. exact (Qlt_not_le _ _ H E).
Qed.

Lemma shareOf_range (type : SEQUENCE_TYPES)
  (aggregated : list AggregatedSequence.t) (a : AggregatedSequence.t) :
  In a aggregated ->
  (0 <= shareOf type aggregated a <= 1)%Q /\
  ((0 < shareOf type aggregated a)%Q <-> 0 < frequencyOf type a).
Proof.
  intro Hin. unfold shareOf.
  destruct (Nat.ltb_spec 0 (frequencyOf type a)) as [Hpos|Hzero].
  - destruct (ratio_range (frequencyOf type a)
                (list_sum (map (frequencyOf type) aggregated)) Hpos
                (list_sum_In (frequencyOf type) aggregated a Hin))
      as [H0 H1].
    repeat split; auto. apply Qlt_le_weak. exact H0.
  - split; [split; unfold Qle; simpl; lia|].
    split; intro H; [exfalso; exact (Qlt_irrefl _ H) | lia].
Qed.

Lemma _getAggregatedSequenceProbabilities_of_a_type_aux
  (aggregated : list AggregatedSequence.t) (type : SEQUENCE_TYPES)
  (it : AggregatedSequenceProbabilities.t) :
  In it (_getAggregatedSequenceProbabilities aggregated) ->
  (0 <= probabilityOf type it <= 1)%Q /\
  (positive (probabilityOf type it) = true <->
   0 < frequencyOf type (AggregatedSequenceProbabilities.sequence it)).
Proof.
  intro Hit.
  destruct (probabilities_entry type aggregated it Hit) as [Hin ->].
  destruct (shareOf_range type aggregated _ Hin) as [Hrange Hpos].
  split; [exact Hrange|]. now rewrite positive_iff.
Qed.

Lemma probabilities_add_up
  (aggregated : list AggregatedSequence.t) (type : SEQUENCE_TYPES) :
  (exists a, In a aggregated /\ 0 < frequencyOf type a) ->
  (sumQ (map (probabilityOf type)
           (_getAggregatedSequenceProbabilities aggregated)) == 1)%Q.
Proof.
  intros (a & Hin & Hpos).
  rewrite probabilityOf_share. unfold shareOf.
  rewrite sumQ_shares.
  assert (Htotal : 0 < list_sum (map (frequencyOf type) aggregated)).
  { pose proof (list_sum_In (frequencyOf type) aggregated a Hin). lia. }
  apply number_positive in Htotal.
  unfold Qdiv. apply Qmult_inv_r.
  intro E. rewrite E in Htotal. exact (Qlt_irrefl _ Htotal).
Qed.


(* ------------------------------------------------------------------ *)
(** ** Which records a table holds *)

Lemma filtered_sequences (aggregated : list AggregatedSequence.t)
  (type : SEQUENCE_TYPES) :
  map ProbabilityAndSequence.sequence
    (filtered (_getAggregatedSequenceProbabilities aggregated) type)
  = filter (fun a => 0 <? frequencyOf type a) aggregated.
Proof.
  unfold filtered. rewrite map_map. simpl.
  set (probabilities := _getAggregatedSequenceProbabilities aggregated).
  assert (Hsame :
    filter (fun it => positive (probabilityOf type it)) probabilities
    = filter (fun it =>
                0 <? frequencyOf type
                       (AggregatedSequenceProbabilities.sequence it))
             probabilities).
  { apply filter_ext_in. intros it Hit.
    destruct (_getAggregatedSequenceProbabilities_of_a_type_aux
                aggregated type it Hit) as [_ Hiff].
    destruct (positive (probabilityOf type it)) eqn:E.
    - symmetry. apply Nat.ltb_lt. now apply Hiff.
    - symmetry. apply Nat.ltb_ge.
      destruct (Nat.le_gt_cases
                  (frequencyOf type
                     (AggregatedSequenceProbabilities.sequence it)) 0)
        as [Hle|Hgt]; [exact Hle|].
      apply Hiff in Hgt. congruence. }
  rewrite Hsame.
  rewrite <- (probabilities_sequences aggregated) at 1.
  fold probabilities. clear Hsame. clearbody probabilities.
  induction probabilities as [|it rest IH]; simpl; [reflexivity|].
  destruct (0 <? frequencyOf type
                   (AggregatedSequenceProbabilities.sequence it));
    simpl; now rewrite IH.
Qed.

Lemma setLastProbability_shape (l table : list ProbabilityAndSequence.t) :
  setLastProbability l = Normal table ->
  exists init o,
    l = init ++ [o] /\
    table = init ++ [ {| ProbabilityAndSequence.probability := 1%Q;
                         ProbabilityAndSequence.sequence :=
                           ProbabilityAndSequence.sequence o |} ].
Proof.
  revert table. induction l as [|x l IH]; intros table H; [discriminate|].
  destruct l as [|y l].
  - injection H as <-. now exists [], x.
  - change (match setLastProbability (y :: l) with
            | Normal rest' => Normal (x :: rest')
            | other => other
            end = Normal table) in H.
    destruct (setLastProbability (y :: l)) as [rest'| |] eqn:E;
      try discriminate.
    injection H as <-.
    destruct (IH rest' eq_refl) as (init & o & Hl & ->).
    exists (x :: init), o. split; [simpl; now rewrite Hl | reflexivity].
Qed.

Lemma _getWeightedProbabilities_cases
  (aggregated : list AggregatedSequence.t) (type : SEQUENCE_TYPES) :
  match _getWeightedProbabilities
          (_getAggregatedSequenceProbabilities aggregated) type with
  | Normal table =>
      map ProbabilityAndSequence.sequence table
      = filter (fun a => 0 <? frequencyOf type a) aggregated /\
      exists a, In a aggregated /\ 0 < frequencyOf type a
  | Throw e =>
      e = TypeError /\
      forall a, In a aggregated -> frequencyOf type a = 0
  | OutOfFuel => False
  end.
Proof.
  pose proof (filtered_sequences aggregated type) as Hseq.
  destruct (_getWeightedProbabilities _ type) as [table|e|] eqn:H.
  - pose proof H as Hbuilt.
    unfold _getWeightedProbabilities in H.
    apply setLastProbability_sequences in H.
    rewrite enrich_sequences, filteredAndSorted_is_filtered, Hseq in H.
    split; [exact H|].
    apply setLastProbability_Normal in Hbuilt as (init & o & -> & _).
    rewrite map_app in H. simpl in H.
    assert (Hin : In (ProbabilityAndSequence.sequence o)
                     (filter (fun a => 0 <? frequencyOf type a) aggregated)).
    { rewrite <- H. apply in_or_app. right. now left. }
    apply filter_In in Hin as [Hin Hpos]. apply Nat.ltb_lt in Hpos.
    eauto.
  - unfold _getWeightedProbabilities in H.
    apply setLastProbability_Throw in H as [Hnil ->].
    split; [reflexivity|].
    assert (Hlen : List.length
                     (filter (fun a => 0 <? frequencyOf type a) aggregated) = 0).
    { rewrite <- Hseq, length_map, <- filteredAndSorted_is_filtered.
      rewrite <- (length_map ProbabilityAndSequence.sequence).
      rewrite <- (enrich_sequences _ 0%Q), Hnil. reflexivity. }
    intros a Ha.
    destruct (Nat.ltb_spec 0 (frequencyOf type a)) as [Hpos|Hzero]; [|lia].
    assert (Hin : In a (filter (fun a => 0 <? frequencyOf type a) aggregated))
      by (apply filter_In; split; [exact Ha | now apply Nat.ltb_lt]).
    destruct (filter _ aggregated); [contradiction | discriminate].
  - unfold _getWeightedProbabilities in H.
    now apply setLastProbability_fuel in H.
Qed.

(** X8.  For a type of sequence, the table built from the probabilities of
    an aggregation holds the records whose frequency for the type is above
    0, in the order of the aggregation, and no others.  It is built exactly
    when there is such a record; when there is none, building it throws
    the [TypeError]. *)
Theorem _getWeightedProbabilities_records
  (aggregated : list AggregatedSequence.t) (type : SEQUENCE_TYPES) :
  match _getWeightedProbabilities
          (_getAggregatedSequenceProbabilities aggregated) type with
  | Normal table =>
      map ProbabilityAndSequence.sequence table
      = filter (fun a => 0 <? frequencyOf type a) aggregated /\
      exists a, In a aggregated /\ 0 < frequencyOf type a
  | Throw e =>
      e = TypeError /\
      forall a, In a aggregated -> frequencyOf type a = 0
  | OutOfFuel => False
  end.
Proof. exact (_getWeightedProbabilities_cases aggregated type). Qed.

(* ------------------------------------------------------------------ *)
(** ** The cumulative probabilities of a table *)

Lemma plus_value (a b : Q) : (plus a b == a + b)%Q.
Proof. apply Qred_correct. Qed.

(** Entry [k] after the loop "Enrich with weights": the record of entry
    [k] before it, with the sum of the probabilities up to that entry. *)
Lemma enrich_nth_error (l : list ProbabilityAndSequence.t) :
  forall p k e,
    nth_error (enrich p l) k = Some e ->
    exists o,
      nth_error l k = Some o /\
      ProbabilityAndSequence.sequence e = ProbabilityAndSequence.sequence o /\
      (ProbabilityAndSequence.probability e
       == p + sumQ (map ProbabilityAndSequence.probability (firstn (S k) l)))%Q.
Proof.
  induction l as [|o l IH]; intros p k e H.
  - destruct k; discriminate H.
  - destruct k as [|k].
    + injection H as <-. exists o. repeat split. simpl.
      rewrite plus_value.
      destruct l; simpl; lra.
    + simpl in H. apply IH in H as (o' & Hnth & Hseq & Hsum).
      exists o'. repeat split; try assumption.
      rewrite Hsum, plus_value.
      change (firstn (S (S k)) (o :: l)) with (o :: firstn (S k) l).
      simpl. lra.
Qed.

Lemma sumQ_filter_positive {A} (f : A -> Q) (l : list A) :
  (forall x, In x l -> (0 <= f x)%Q) ->
  (sumQ (map f (filter (fun x => positive (f x)) l)) == sumQ (map f l))%Q.
Proof.
  induction l as [|x l IH]; intro Hnonneg; simpl; [reflexivity|].
  assert (IH' := IH (fun y Hy => Hnonneg y (or_intror Hy))).
  pose proof (Hnonneg x (or_introl eq_refl)) as Hx.
  destruct (positive (f x)) eqn:E; simpl.
  - rewrite IH'. reflexivity.
  - assert (Hzero : ~ (0 < f x)%Q)
      by (intro H; apply positive_iff in H; congruence).
    rewrite IH'. lra.
Qed.

Lemma sumQ_firstn_increases (l : list Q) :
  (forall x, In x l -> (0 < x)%Q) ->
  forall j k, j < k -> k <= List.length l ->
              (sumQ (firstn j l) < sumQ (firstn k l))%Q.
Proof.
  induction l as [|x l IH]; intros Hpos j k Hjk Hk; [simpl in Hk; lia|].
  pose proof (Hpos x (or_introl eq_refl)) as Hx.
  assert (Hrest : forall y, In y l -> (0 < y)%Q)
    by (intros; apply Hpos; now right).
  destruct k as [|k]; [lia|]. simpl in Hk.
  destruct j as [|j]; simpl.
  - assert (Hnonneg : forall n, (0 <= sumQ (firstn n l))%Q).
    { clear -Hrest. induction l as [|y l IHl]; intro n.
      - destruct n; simpl; lra.
      - destruct n; simpl; [lra|].
        pose proof (Hrest y (or_introl eq_refl)).
        pose proof (IHl (fun z Hz => Hrest z (or_intror Hz)) n). lra. }
    pose proof (Hnonneg k). lra.
  - pose proof (IH Hrest j k ltac:(lia) ltac:(lia)). lra.
Qed.

(** The filter leaves the probabilities above 0, and on the probabilities
    of an aggregation they add up to 1. *)
Lemma filtered_probabilities (aggregated : list AggregatedSequence.t)
  (type : SEQUENCE_TYPES) :
  let l := filtered (_getAggregatedSequenceProbabilities aggregated) type in
  (forall o, In o l -> (0 < ProbabilityAndSequence.probability o)%Q) /\
  (l <> [] ->
   (sumQ (map ProbabilityAndSequence.probability l) == 1)%Q).
Proof.
  intro l. unfold l, filtered. split.
  - intros o Ho. apply in_map_iff in Ho as (it & <- & Hit).
    apply filter_In in Hit as [_ Hpos]. simpl. now apply positive_iff.
  - intro Hne. rewrite map_map. simpl.
    set (probabilities := _getAggregatedSequenceProbabilities aggregated) in *.
    rewrite (sumQ_filter_positive (probabilityOf type) probabilities).
    + apply probabilities_add_up.
      destruct (filter (fun it => positive (probabilityOf type it))
                  probabilities) as [|it rest] eqn:E; [now elim Hne|].
      assert (Hit : In it (filter (fun it => positive (probabilityOf type it))
                             probabilities))
        by (rewrite E; now left).
      apply filter_In in Hit as [Hit Hpos].
      exists (AggregatedSequenceProbabilities.sequence it). split.
      * now apply (probabilities_entry type).
      * now apply (_getAggregatedSequenceProbabilities_of_a_type_aux
                     aggregated type it Hit).
    + intros it Hit.
      now apply (_getAggregatedSequenceProbabilities_of_a_type_aux
                   aggregated type it Hit).
Qed.

(** Entry [k] of a built table: the record of entry [k] of the filtered
    list, with the sum of the probabilities up to that entry. *)
Lemma table_nth_error (aggregated : list AggregatedSequence.t)
  (type : SEQUENCE_TYPES) (table : list ProbabilityAndSequence.t) :
  _getWeightedProbabilities
    (_getAggregatedSequenceProbabilities aggregated) type = Normal table ->
  let l := filtered (_getAggregatedSequenceProbabilities aggregated) type in
  List.length table = List.length l /\
  forall k e,
    nth_error table k = Some e ->
    exists o,
      nth_error l k = Some o /\
      ProbabilityAndSequence.sequence e = ProbabilityAndSequence.sequence o /\
      (ProbabilityAndSequence.probability e
       == sumQ (map ProbabilityAndSequence.probability (firstn (S k) l)))%Q.
Proof.
  intros Hbuilt l.
  unfold _getWeightedProbabilities in Hbuilt.
  rewrite filteredAndSorted_is_filtered in Hbuilt. fold l in Hbuilt.
  apply setLastProbability_shape in Hbuilt as (init & final & Henrich & ->).
  assert (Hlen : List.length (init ++ [final]) = List.length l).
  { rewrite <- Henrich.
    rewrite <- (length_map ProbabilityAndSequence.sequence (enrich 0 l)).
    rewrite enrich_sequences. apply length_map. }
  split; [rewrite !length_app in *; simpl in *; lia|].
  intros k e Hk.
  destruct (Nat.lt_ge_cases k (List.length init)) as [Hlt|Hge].
  - rewrite nth_error_app1 in Hk by assumption.
    assert (Hk' : nth_error (enrich 0 l) k = Some e)
      by (rewrite Henrich, nth_error_app1; assumption).
    apply enrich_nth_error in Hk' as (o & Ho & Hseq & Hsum).
    exists o. repeat split; try assumption. rewrite Hsum. lra.
  - rewrite nth_error_app2 in Hk by assumption.
    destruct (k - List.length init) as [|n] eqn:Ek;
      [|destruct n; discriminate Hk].
    injection Hk as <-.
    assert (Hkeq : k = List.length init) by lia. subst k.
    assert (Hk' : nth_error (enrich 0 l) (List.length init) = Some final).
    { rewrite Henrich, nth_error_app2 by lia.
      now rewrite Nat.sub_diag. }
    apply enrich_nth_error in Hk' as (o & Ho & Hseq & _).
    exists o. split; [assumption|]. split; [assumption|].
    rewrite length_app in Hlen. simpl in Hlen.
    rewrite firstn_all2 by lia.
    cbn [ProbabilityAndSequence.probability].
    symmetry. apply (filtered_probabilities aggregated type).
    fold l. intro E. rewrite E in Ho. destruct (List.length init); discriminate.
Qed.

Lemma sumQ_firstn_next (l : list Q) :
  forall k x,
    nth_error l k = Some x ->
    (sumQ (firstn (S k) l) == sumQ (firstn k l) + x)%Q.
Proof.
  induction l as [|y l IH]; intros k x H.
  - destruct k; discriminate H.
  - destruct k as [|k].
    + injection H as <-.
      change (firstn 1 (y :: l)) with [y].
      change (firstn 0 (y :: l)) with (@nil Q).
      unfold sumQ. cbn [fold_right]. lra.
    + simpl in H. specialize (IH k x H).
      change (firstn (S (S k)) (y :: l)) with (y :: firstn (S k) l).
      change (firstn (S k) (y :: l)) with (y :: firstn k l).
      unfold sumQ in *. cbn [fold_right]. lra.
Qed.

Lemma filtered_entry (aggregated : list AggregatedSequence.t)
  (type : SEQUENCE_TYPES) (o : ProbabilityAndSequence.t) :
  In o (filtered (_getAggregatedSequenceProbabilities aggregated) type) ->
  In (ProbabilityAndSequence.sequence o) aggregated /\
  ProbabilityAndSequence.probability o
  = shareOf type aggregated (ProbabilityAndSequence.sequence o) /\
  (0 < ProbabilityAndSequence.probability o)%Q.
Proof.
  intro Ho. unfold filtered in Ho.
  apply in_map_iff in Ho as (it & <- & Hit).
  apply filter_In in Hit as [Hit Hpos]. simpl.
  destruct (probabilities_entry type aggregated it Hit) as [Hin Hshare].
  repeat split; try assumption. now apply positive_iff.
Qed.

Section BuiltTable.

Variable aggregated : list AggregatedSequence.t.
Variable type : SEQUENCE_TYPES.
Variable table : list ProbabilityAndSequence.t.

Hypothesis built :
  _getWeightedProbabilities
    (_getAggregatedSequenceProbabilities aggregated) type = Normal table.

Let l := filtered (_getAggregatedSequenceProbabilities aggregated) type.

Let positives :
  forall x, In x (map ProbabilityAndSequence.probability l) -> (0 < x)%Q.
Proof.
  intros x Hx. apply in_map_iff in Hx as (o & <- & Ho).
  now apply (filtered_entry aggregated type).
Qed.

(** Later entries have higher cumulative probabilities. *)
Lemma table_increasing :
  forall j k a b,
    j < k ->
    nth_error table j = Some a -> nth_error table k = Some b ->
    (ProbabilityAndSequence.probability a
     < ProbabilityAndSequence.probability b)%Q.
Proof.
  intros j k a b Hjk Ha Hb.
  destruct (table_nth_error aggregated type table built) as [Hlen Hnth].
  fold l in Hlen, Hnth.
  destruct (Hnth j a Ha) as (_ & _ & _ & Hsa).
  destruct (Hnth k b Hb) as (_ & _ & _ & Hsb).
  assert (Hk : k < List.length table) by (apply nth_error_Some; congruence).
  rewrite Hsa, Hsb, <- !firstn_map.
  apply sumQ_firstn_increases; [exact positives | lia |].
  rewrite length_map. lia.
Qed.

(** An entry's cumulative probability is the one before it plus the
    probability of its own record. *)
Lemma table_step :
  forall k e,
    nth_error table k = Some e ->
    In (ProbabilityAndSequence.sequence e) aggregated /\
    (ProbabilityAndSequence.probability e
     == cumulativeBefore table k
        + shareOf type aggregated (ProbabilityAndSequence.sequence e))%Q /\
    (0 < shareOf type aggregated (ProbabilityAndSequence.sequence e))%Q.
Proof.
  intros k e He.
  destruct (table_nth_error aggregated type table built) as [Hlen Hnth].
  fold l in Hlen, Hnth.
  destruct (Hnth k e He) as (o & Ho & Hseq & Hsum).
  destruct (filtered_entry aggregated type o (nth_error_In _ _ Ho))
    as (Hin & Hshare & Hpos).
  rewrite Hseq, <- Hshare.
  split; [exact Hin|]. split; [|exact Hpos].
  rewrite Hsum, <- firstn_map.
  rewrite (sumQ_firstn_next _ k (ProbabilityAndSequence.probability o))
    by (rewrite nth_error_map, Ho; reflexivity).
  apply Qplus_comp; [|reflexivity].
  destruct k as [|j]; [reflexivity|]. simpl.
  destruct (nth_error table j) as [a|] eqn:Ha.
  - destruct (Hnth j a Ha) as (_ & _ & _ & Hsa).
    now rewrite Hsa, <- firstn_map.
  - apply nth_error_None in Ha.
    assert (S j < List.length table) by (apply nth_error_Some; congruence).
    lia.
Qed.

(** The scan stops at entry [k] for the values above the cumulative
    probability before it and not above its own. *)
Lemma table_draw :
  forall k e v,
    nth_error table k = Some e ->
    (_getMatchingSequence table v = Normal e <->
     (k = 0 \/ (cumulativeBefore table k < v)%Q) /\
     (v <= ProbabilityAndSequence.probability e)%Q).
Proof.
  intros k e v He. split.
  - intro Hdraw.
    destruct (_getMatchingSequence_scan table v)
      as [(before & item & after & Htable & Hres & Hle & Hbefore) | [Hres _]];
      [|congruence].
    assert (item = e) by congruence. subst item.
    assert (He' : nth_error table (List.length before) = Some e).
    { rewrite Htable, nth_error_app2 by lia. now rewrite Nat.sub_diag. }
    assert (Hk : k = List.length before).
    { destruct (Nat.lt_trichotomy k (List.length before)) as [H|[H|H]];
        [|exact H|].
      - pose proof (table_increasing _ _ _ _ H He He') as Hlt.
        exfalso. exact (Qlt_irrefl _ Hlt).
      - pose proof (table_increasing _ _ _ _ H He' He) as Hlt.
        exfalso. exact (Qlt_irrefl _ Hlt). }
    split; [|exact Hle].
    destruct k as [|j]; [now left | right]. simpl.
    assert (Hj : j < List.length before) by lia.
    assert (Ha : nth_error table j = nth_error before j)
      by (rewrite Htable; now apply nth_error_app1).
    destruct (nth_error before j) as [a|] eqn:Ea;
      [|apply nth_error_None in Ea; lia].
    rewrite Ha. apply Qnot_le_lt. apply Hbefore.
    now apply nth_error_In with j.
  - intros [Hprev Hle].
    destruct (nth_error_split table k He) as (before & after & Htable & Hlen).
    assert (Hbefore : forall o, In o before ->
              ~ (v <= ProbabilityAndSequence.probability o)%Q).
    { intros o Ho Hvo.
      apply In_nth_error in Ho as [j Hj].
      assert (Hjk : j < k)
        by (rewrite <- Hlen; apply nth_error_Some; congruence).
      assert (Hj' : nth_error table j = Some o)
        by (rewrite Htable, nth_error_app1; [exact Hj | lia]).
      destruct k as [|k']; [lia|].
      destruct Hprev as [Hk0|Hprev]; [discriminate|]. simpl in Hprev.
      destruct (nth_error table k') as [a|] eqn:Ea.
      - destruct (Nat.eq_dec j k') as [->|Hne].
        + assert (a = o) by congruence. subst a. lra.
        + pose proof (table_increasing j k' o a ltac:(lia) Hj' Ea). lra.
      - apply nth_error_None in Ea.
        assert (S k' < List.length table)
          by (apply nth_error_Some; congruence).
        lia. }
    rewrite Htable. clear -Hbefore Hle.
    induction before as [|o before IH]; simpl.
    + unfold leq. apply Qle_bool_iff in Hle. now rewrite Hle.
    + unfold leq.
      destruct (Qle_bool v (ProbabilityAndSequence.probability o)) eqn:E.
      * apply Qle_bool_iff in E. exfalso.
        exact (Hbefore o (or_introl eq_refl) E).
      * apply IH. intros o' Ho'. apply Hbefore. now right.
Qed.


End BuiltTable.



(** X10.  A draw from a built table returns an entry exactly for the values
    above the cumulative probability before the entry (for any value, at
    the first entry) and not above the entry's own.  So every entry is
    drawn for some value, its own cumulative probability for one, and the
    values that draw it span the probability of its record. *)
Theorem draw_returns_entry_on_its_interval
  (aggregated : list AggregatedSequence.t) (type : SEQUENCE_TYPES)
  (table : list ProbabilityAndSequence.t) (k : nat)
  (e : ProbabilityAndSequence.t) :
  _getWeightedProbabilities
    (_getAggregatedSequenceProbabilities aggregated) type = Normal table ->
  nth_error table k = Some e ->
  (forall v,
      _getMatchingSequence table v = Normal e <->
      (k = 0 \/ (cumulativeBefore table k < v)%Q) /\
      (v <= ProbabilityAndSequence.probability e)%Q) /\
  _getMatchingSequence table (ProbabilityAndSequence.probability e)
  = Normal e.
Proof.
  intros Hbuilt He. split.
  - intro v. exact (table_draw aggregated type table Hbuilt k e v He).
  - apply (table_draw aggregated type table Hbuilt k e _ He).
    split; [|apply Qle_refl]. right.
    destruct (table_step aggregated type table Hbuilt k e He)
      as (_ & Hstep & Hpos).
    rewrite Hstep. lra.
Qed.

Lemma draw_returns_entry_on_its_interval_witness :
  let aggregated :=
    _aggregateSequences
      (CharDepthSequencingStrategy.getSequencesOfSet depthTwo testSampleSet) in
  let bo := ProbabilityAndSequence.mk (2 # 3)
              (AggregatedSequence.mk "bo" 2 1 0 3) in
  let go := ProbabilityAndSequence.mk 1
              (AggregatedSequence.mk "go" 1 0 0 1) in
  let table := [bo; go] in
  _getWeightedProbabilities
    (_getAggregatedSequenceProbabilities aggregated) BEGINNING = Normal table /\
  nth_error table 1 = Some go /\
  (forall v,
      _getMatchingSequence table v = Normal go <->
      (1 = 0 \/ (cumulativeBefore table 1 < v)%Q) /\
      (v <= ProbabilityAndSequence.probability go)%Q) /\
  _getMatchingSequence table (ProbabilityAndSequence.probability go)
  = Normal go.
Proof.
  intros aggregated bo go table.
  assert (Hbuilt : _getWeightedProbabilities
                     (_getAggregatedSequenceProbabilities aggregated) BEGINNING
                   = Normal table) by (vm_compute; reflexivity).
  split; [exact Hbuilt|]. split; [reflexivity|].
  exact (draw_returns_entry_on_its_interval
           aggregated BEGINNING table 1 go Hbuilt eq_refl).
Defined.

(* ------------------------------------------------------------------ *)
(** ** The tables of a call and the sequences of the samples *)

Lemma frequencyOf_aggregateOf (type : SEQUENCE_TYPES) (chars : string)
  (sequences : list Sequence.t) :
  frequencyOf type (aggregateOf chars sequences)
  = occurrences (tagOf type) chars sequences.
Proof. destruct type; reflexivity. Qed.

(** The entries of a table stand for tagged sequences. *)
Lemma table_entry_tagged (sequences : list Sequence.t) (type : SEQUENCE_TYPES)
  (table : list ProbabilityAndSequence.t) (o : ProbabilityAndSequence.t) :
  _getWeightedProbabilities
    (_getAggregatedSequenceProbabilities (_aggregateSequences sequences)) type
  = Normal table ->
  In o table ->
  taggedChars type sequences
    (AggregatedSequence.chars (ProbabilityAndSequence.sequence o)).
Proof.
  intros Hbuilt Hin.
  pose proof (_getWeightedProbabilities_cases
                (_aggregateSequences sequences) type) as Hcases.
  rewrite Hbuilt in Hcases. destruct Hcases as [Hseq _].
  apply (in_map ProbabilityAndSequence.sequence) in Hin.
  rewrite Hseq in Hin. apply filter_In in Hin as [Ha Hpos].
  apply Nat.ltb_lt in Hpos.
  destruct (aggregate_keys sequences) as [_ Hentry].
  destruct (Hentry _ Ha) as [Heq _].
  rewrite Heq, frequencyOf_aggregateOf in Hpos.
  now apply occurrences_positive in Hpos.
Qed.

(** A table is built exactly when some sequence carries the tag. *)
Lemma table_built_iff (sequences : list Sequence.t) (type : SEQUENCE_TYPES) :
  let built :=
    _getWeightedProbabilities
      (_getAggregatedSequenceProbabilities (_aggregateSequences sequences))
      type in
  ((exists table, built = Normal table) <->
   exists t, In t sequences /\ tagOf type t = true) /\
  (built = Throw TypeError <->
   forall t, In t sequences -> tagOf type t = false).
Proof.
  intro built.
  pose proof (_getWeightedProbabilities_cases
                (_aggregateSequences sequences) type) as Hcases.
  fold built in Hcases.
  destruct (aggregate_keys sequences) as [Hkeys Hentry].
  assert (Hfreq : forall a, In a (_aggregateSequences sequences) ->
            frequencyOf type a
            = occurrences (tagOf type) (AggregatedSequence.chars a) sequences).
  { intros a Ha. destruct (Hentry a Ha) as [Heq _].
    rewrite Heq at 1. apply frequencyOf_aggregateOf. }
  assert (Hrecord : forall t, In t sequences ->
            exists a, In a (_aggregateSequences sequences) /\
                      AggregatedSequence.chars a = Sequence.chars t).
  { intros t Hin.
    assert (Hk : In (Sequence.chars t)
                    (map AggregatedSequence.chars
                       (_aggregateSequences sequences))).
    { rewrite Hkeys. apply firstOccurrences_In. now apply in_map. }
    apply in_map_iff in Hk as (a & Hc & Ha). now exists a. }
  destruct built as [table|e|]; [| |contradiction].
  - destruct Hcases as [_ (a & Ha & Hpos)].
    rewrite (Hfreq a Ha) in Hpos.
    apply occurrences_positive in Hpos as (t & Hin & _ & Htag).
    split; split.
    + intros _. now exists t.
    + intros _. now exists table.
    + discriminate.
    + intro Hnone. rewrite (Hnone t Hin) in Htag. discriminate.
  - destruct Hcases as [-> Hzero].
    assert (Hnone : forall t, In t sequences -> tagOf type t = false).
    { intros t Hin. destruct (tagOf type t) eqn:Htag; [|reflexivity].
      destruct (Hrecord t Hin) as (a & Ha & Hc).
      pose proof (Hzero a Ha) as Hz. rewrite (Hfreq a Ha) in Hz.
      assert (0 < occurrences (tagOf type) (AggregatedSequence.chars a)
                    sequences)
        by (apply occurrences_positive; now exists t).
      lia. }
    split; split.
    + intros [table H]. discriminate H.
    + intros (t & Hin & Htag). rewrite (Hnone t Hin) in Htag. discriminate.
    + intros _. exact Hnone.
    + reflexivity.
Qed.

(** The tables of a call are built from the sequences of the call. *)
Lemma tables_built (R : RandomSeeded.t) (this : MarkovChainWordGenerator R)
  (probableBeginnings probableMiddles probableEndings
     : list ProbabilityAndSequence.t) :
  tables R this = Normal (probableBeginnings, probableMiddles, probableEndings)
  <->
  let probabilities :=
    _getAggregatedSequenceProbabilities
      (_aggregateSequences (sequencesOf this)) in
  _getWeightedProbabilities probabilities BEGINNING = Normal probableBeginnings /\
  _getWeightedProbabilities probabilities MIDDLE = Normal probableMiddles /\
  _getWeightedProbabilities probabilities ENDING = Normal probableEndings.
Proof.
  unfold tables, sequencesOf. cbv zeta.
  destruct (_getWeightedProbabilities _ BEGINNING) as [b| |];
    [|split; [discriminate | intros (H & _); discriminate H]
     |split; [discriminate | intros (H & _); discriminate H]].
  destruct (_getWeightedProbabilities _ MIDDLE) as [m| |];
    [|split; [discriminate | intros (_ & H & _); discriminate H]
     |split; [discriminate | intros (_ & H & _); discriminate H]].
  destruct (_getWeightedProbabilities _ ENDING) as [e| |];
    [|split; [discriminate | intros (_ & _ & H); discriminate H]
     |split; [discriminate | intros (_ & _ & H); discriminate H]].
  split.
  - intro H. injection H as <- <- <-. auto.
  - intros (Hb & Hm & He). injection Hb as <-. injection Hm as <-.
    injection He as <-. reflexivity.
Qed.

(** Building the tables throws exactly when a type has no sequence. *)
Lemma tables_Throw_iff (R : RandomSeeded.t)
  (this : MarkovChainWordGenerator R) :
  tables R this = Throw TypeError <->
  exists type, forall t, In t (sequencesOf this) -> tagOf type t = false.
Proof.
  pose proof (table_built_iff (sequencesOf this) BEGINNING) as [Hb1 Hb2].
  pose proof (table_built_iff (sequencesOf this) MIDDLE) as [Hm1 Hm2].
  pose proof (table_built_iff (sequencesOf this) ENDING) as [He1 He2].
  cbv zeta in *.
  destruct (tables_cases R this) as [(b & m & e & Ht) | Ht].
  - split; [rewrite Ht; discriminate|].
    apply tables_built in Ht. cbv zeta in Ht. destruct Ht as (Hb & Hm & He).
    intros [type Hnone]. destruct type.
    + apply Hb2 in Hnone. congruence.
    + apply Hm2 in Hnone. congruence.
    + apply He2 in Hnone. congruence.
  - split; [intros _|intros _; exact Ht].
    destruct (_getWeightedProbabilities _ BEGINNING) as [b|eb|] eqn:Hb.
    + destruct (_getWeightedProbabilities _ MIDDLE) as [m|em|] eqn:Hm.
      * destruct (_getWeightedProbabilities _ ENDING) as [e|ee|] eqn:He.
        -- assert (Hall : tables R this = Normal (b, m, e))
             by (apply tables_built; cbv zeta; auto).
           congruence.
        -- exists ENDING. apply He2.
           pose proof (_getWeightedProbabilities_cases
                         (_aggregateSequences (sequencesOf this)) ENDING) as H.
           rewrite He in H. now destruct H as [-> _].
        -- pose proof (_getWeightedProbabilities_cases
                         (_aggregateSequences (sequencesOf this)) ENDING) as H.
           rewrite He in H. contradiction.
      * exists MIDDLE. apply Hm2.
        pose proof (_getWeightedProbabilities_cases
                      (_aggregateSequences (sequencesOf this)) MIDDLE) as H.
        rewrite Hm in H. now destruct H as [-> _].
      * pose proof (_getWeightedProbabilities_cases
                      (_aggregateSequences (sequencesOf this)) MIDDLE) as H.
        rewrite Hm in H. contradiction.
    + exists BEGINNING. apply Hb2.
      pose proof (_getWeightedProbabilities_cases
                    (_aggregateSequences (sequencesOf this)) BEGINNING) as H.
      rewrite Hb in H. now destruct H as [-> _].
    + pose proof (_getWeightedProbabilities_cases
                    (_aggregateSequences (sequencesOf this)) BEGINNING) as H.
      rewrite Hb in H. contradiction.
Qed.

(* ------------------------------------------------------------------ *)
(** ** The words of a call *)

Lemma _generateSingleWord_sound (R : RandomSeeded.t) (fuel : nat)
  (probableBeginnings probableMiddles probableEndings
     : list ProbabilityAndSequence.t)
  (minLength maxLength : jsnumber)
  (r : RandomSeeded.rng R) (word : string) (r' : RandomSeeded.rng R) :
  _generateSingleWord R fuel probableBeginnings probableMiddles
    probableEndings minLength maxLength r = (Normal word, r') ->
  exists (x : Q) (r1 : RandomSeeded.rng R)
         (beginning ending : ProbabilityAndSequence.t)
         (r3 : RandomSeeded.rng R)
         (middles : list AggregatedSequence.t) (length' : nat),
    RandomSeeded.generate R minLength maxLength r = (x, r1) /\
    In beginning probableBeginnings /\
    In ending probableEndings /\
    middleDraws R probableMiddles (Math_round x)
      (String.length
         (AggregatedSequence.chars (ProbabilityAndSequence.sequence beginning))
       + String.length
           (AggregatedSequence.chars (ProbabilityAndSequence.sequence ending)))
      r3 middles length' r' /\
    word = (AggregatedSequence.chars (ProbabilityAndSequence.sequence beginning)
            ++ String.concat "" (map AggregatedSequence.chars middles)
            ++ AggregatedSequence.chars (ProbabilityAndSequence.sequence ending))%string.
Proof.
  intro H.
  unfold _generateSingleWord, bind, rng_generate, lift, ret in H.
  cbv beta zeta in H.
  destruct (RandomSeeded.generate R minLength maxLength r) as [x r1] eqn:Hx.
  destruct (RandomSeeded.generate R None None r1) as [rndBeginning r2] eqn:Hb.
  destruct (_getMatchingSequence probableBeginnings rndBeginning)
    as [beginning| |] eqn:Hbeginning; try discriminate H.
  destruct (RandomSeeded.generate R None None r2) as [rndEnding r3] eqn:He.
  destruct (_getMatchingSequence probableEndings rndEnding)
    as [ending| |] eqn:Hending; try discriminate H.
  destruct (middleSequences R fuel probableMiddles (Math_round x) _ _ r3)
    as [[result| |] r4] eqn:Hmiddles; try discriminate H.
  injection H as <- <-.
  apply middleSequences_sound in Hmiddles as (middles & length' & -> & Hdraws).
  exists x, r1, beginning, ending, r3, middles, length'.
  split; [reflexivity|].
  split; [exact (_getMatchingSequence_In _ _ _ Hbeginning)|].
  split; [exact (_getMatchingSequence_In _ _ _ Hending)|].
  split; [exact Hdraws|].
  rewrite <- app_assoc, !map_app, !join_app. cbn [map app].
  rewrite !join_cons. cbn [String.concat].
  now rewrite !string_append_nil_r.
Qed.

Lemma middleDraws_In (R : RandomSeeded.t)
  (probableMiddles : list ProbabilityAndSequence.t) (targetLength : Z) :
  forall charactersLength r middles length' r',
    middleDraws R probableMiddles targetLength
      charactersLength r middles length' r' ->
    forall a, In a middles ->
              exists o, In o probableMiddles /\
                        ProbabilityAndSequence.sequence o = a.
Proof.
  induction 1
    as [len r Hge | len r value r1 middle rest len' r' Hlt Hdraw Hm Hrest IH];
    intros a Ha; [destruct Ha|].
  destruct Ha as [<-|Ha]; [|exact (IH a Ha)].
  exists middle. split; [exact (_getMatchingSequence_In _ _ _ Hm) | reflexivity].
Qed.

(** The new words of a completed loop are words an attempt has returned. *)
Lemma generateWords_words (R : RandomSeeded.t) (singleWord : M R string) :
  forall howMany words r result r',
    generateWords R singleWord howMany words r = (Normal result, r') ->
    exists new,
      result = words ++ new /\
      forall w, In w new -> exists r0 r1, singleWord r0 = (Normal w, r1).
Proof.
  induction howMany as [|howMany IH]; intros words r result r' H.
  - injection H as <- <-. exists []. rewrite app_nil_r.
    split; [reflexivity | intros w []].
  - rewrite generateWords_eq in H.
    destruct (uniqueWord R (S repetitionMaximum) singleWord words None 0 r)
      as [[[w tries]| |] r1] eqn:Hword; try discriminate H.
    apply uniqueWord_run in Hword; [|lia|lia|exact I].
    destruct Hword as (_ & _ & r0 & _ & Hw).
    simpl fst in H. apply IH in H as (new & -> & Hnew).
    exists (w :: new). rewrite <- app_assoc. split; [reflexivity|].
    intros w' [<-|Hin]; [now exists r0, r1 | exact (Hnew w' Hin)].
Qed.

(** The words a call returns are the spelling of words attempts of the
    call have returned. *)
Lemma generate_words (R : RandomSeeded.t) (fuel : nat)
  (this : MarkovChainWordGenerator R) (howMany : nat) (words : list string) :
  fst (generate R fuel this howMany) = Normal words ->
  exists probableBeginnings probableMiddles probableEndings accepted,
    tables R this
    = Normal (probableBeginnings, probableMiddles, probableEndings) /\
    words = spell R this accepted /\
    forall w, In w accepted ->
      exists r0 r1,
        _generateSingleWord R fuel probableBeginnings probableMiddles
          probableEndings (_targetLengthMin R this) (_targetLengthMax R this)
          r0 = (Normal w, r1).
Proof.
  intro H. rewrite generate_eq in H.
  destruct (tables R this)
    as [[[probableBeginnings probableMiddles] probableEndings]| |];
    try discriminate H.
  destruct (generateWords R _ howMany [] (_rng R this))
    as [[accepted| |] r] eqn:Hwords; try discriminate H.
  injection H as <-.
  apply generateWords_words in Hwords as (new & Heq & Hnew).
  simpl in Heq. subst new.
  exists probableBeginnings, probableMiddles, probableEndings, accepted.
  repeat split; auto.
Qed.

(** X11.  The words [generate] returns are the spelling of words put
    together from the sequences of the samples: the characters of a
    sequence tagged as a beginning, then those of sequences tagged as
    middles, then those of a sequence tagged as an ending. *)
Theorem generate_words_made_of_tagged_sequences (R : RandomSeeded.t)
  (fuel : nat) (this : MarkovChainWordGenerator R) (howMany : nat)
  (words : list string) (this' : MarkovChainWordGenerator R) :
  generate R fuel this howMany = (Normal words, this') ->
  exists accepted,
    words = spell R this accepted /\
    forall w, In w accepted -> madeOf (sequencesOf this) w.
Proof.
  intro H.
  assert (Hfst : fst (generate R fuel this howMany) = Normal words)
    by now rewrite H.
  apply generate_words in Hfst
    as (bs & ms & es & accepted & Ht & Hspell & Hwords).
  apply tables_built in Ht. cbv zeta in Ht. destruct Ht as (Hb & Hm & He).
  exists accepted. split; [exact Hspell|].
  intros w Hw. destruct (Hwords w Hw) as (r0 & r1 & Hsingle).
  apply _generateSingleWord_sound in Hsingle
    as (x & r2 & beginning & ending & r3 & middles & length'
        & _ & Hbeginning & Hending & Hdraws & ->).
  exists (AggregatedSequence.chars (ProbabilityAndSequence.sequence beginning)),
    (map AggregatedSequence.chars middles),
    (AggregatedSequence.chars (ProbabilityAndSequence.sequence ending)).
  split; [exact (table_entry_tagged _ _ _ _ Hb Hbeginning)|].
  split; [|split; [exact (table_entry_tagged _ _ _ _ He Hending) | reflexivity]].
  apply Forall_forall. intros chars Hchars.
  apply in_map_iff in Hchars as (a & <- & Ha).
  destruct (middleDraws_In _ _ _ _ _ _ _ _ Hdraws a Ha) as (o & Ho & <-).
  exact (table_entry_tagged _ _ _ _ Hm Ho).
Qed.

Lemma generate_words_made_of_tagged_sequences_witness :
  let R := TapeRandom in
  let this :=
    {| _sampleSet := testSampleSet;
       _targetLengthMin := Some 3%Q;
       _targetLengthMax := Some 7%Q;
       _seed := Some testSeed;
       this_sequencingStrategy := CharDepthSequencingStrategy.strategy depthTwo;
       this_spellingStrategy := None;
       _rng := RandomSeeded.new R (Some testSeed) |} in
  let words := ["gobbboy"; "bobob"; "bob"]%string in
  generate R 100 this 3 = (Normal words, snd (generate R 100 this 3)) /\
  exists accepted,
    words = spell R this accepted /\
    forall w, In w accepted -> madeOf (sequencesOf this) w.
Proof.
  intros R this words.
  assert (Hrun : generate R 100 this 3
                 = (Normal words, snd (generate R 100 this 3)))
    by (vm_compute; reflexivity).
  split; [exact Hrun|].
  exact (generate_words_made_of_tagged_sequences R 100 this 3 words _ Hrun).
Defined.

(* ------------------------------------------------------------------ *)
(** ** When a call throws *)

Lemma generate_tables_Throw (R : RandomSeeded.t) (fuel : nat)
  (this : MarkovChainWordGenerator R) (howMany : nat) (e : error) :
  tables R this = Throw e ->
  fst (generate R fuel this howMany) = Throw e /\
  _rng R (snd (generate R fuel this howMany)) = _rng R this.
Proof.
  intro Ht. unfold generate, generate_body, bind, lift. rewrite Ht.
  split; reflexivity.
Qed.

Lemma generate_TypeError_iff (R : RandomSeeded.t) (fuel : nat)
  (this : MarkovChainWordGenerator R) (howMany : nat) :
  fst (generate R fuel this howMany) = Throw TypeError <->
  tables R this = Throw TypeError.
Proof.
  split.
  - intro H. rewrite generate_eq in H.
    destruct (tables_cases R this) as [(b & m & e & Ht) | Ht]; [|exact Ht].
    rewrite Ht in H.
    destruct (generateWords R _ howMany [] (_rng R this))
      as [[words| |] r] eqn:Hwords; try discriminate H.
    apply generateWords_Throw in Hwords as [->|[cause ->]]; discriminate H.
  - intro Ht. exact (proj1 (generate_tables_Throw R fuel this howMany _ Ht)).
Qed.

(** X12.  A call of [generate] throws the [TypeError] exactly when some
    type (beginning, middle or ending) is the tag of no sequence of the
    samples, whatever [howMany] is; the call then leaves the generator of
    random numbers as it was. *)
Theorem generate_throws_TypeError_iff_a_tag_is_missing (R : RandomSeeded.t)
  (fuel : nat) (this : MarkovChainWordGenerator R) (howMany : nat) :
  (fst (generate R fuel this howMany) = Throw TypeError <->
   exists type,
     forall t, In t (sequencesOf this) -> tagOf type t = false) /\
  (fst (generate R fuel this howMany) = Throw TypeError ->
   _rng R (snd (generate R fuel this howMany)) = _rng R this).
Proof.
  split.
  - rewrite generate_TypeError_iff. apply tables_Throw_iff.
  - intro H. apply generate_TypeError_iff in H.
    exact (proj2 (generate_tables_Throw R fuel this howMany _ H)).
Qed.

(* ------------------------------------------------------------------ *)
(** ** Draws that cannot fail *)

(** A table that was built gives an entry for every number up to 1. *)
Lemma built_table_draw (probabilities : list AggregatedSequenceProbabilities.t)
  (type : SEQUENCE_TYPES) (table : list ProbabilityAndSequence.t) (v : Q) :
  _getWeightedProbabilities probabilities type = Normal table ->
  (v <= 1)%Q ->
  exists item, _getMatchingSequence table v = Normal item.
Proof.
  intros Hbuilt Hv. unfold _getWeightedProbabilities in Hbuilt.
  apply setLastProbability_Normal in Hbuilt as (init & o & -> & Hone).
  destruct (_getMatchingSequence_scan (init ++ [o]) v)
    as [(before & item & after & _ & Hres & _) | [_ Hnone]].
  - now exists item.
  - exfalso. apply (Hnone o); [apply in_or_app; right; now left|].
    now rewrite Hone.
Qed.

Section NoThrow.

Variable R : RandomSeeded.t.
Variable probabilities : list AggregatedSequenceProbabilities.t.
Variables probableBeginnings probableMiddles probableEndings
  : list ProbabilityAndSequence.t.

Hypothesis range : in_range R.
Hypothesis beginnings :
  _getWeightedProbabilities probabilities BEGINNING = Normal probableBeginnings.
Hypothesis middles :
  _getWeightedProbabilities probabilities MIDDLE = Normal probableMiddles.
Hypothesis endings :
  _getWeightedProbabilities probabilities ENDING = Normal probableEndings.

Lemma draw_in_range (r : RandomSeeded.rng R) :
  (fst (RandomSeeded.generate R None None r) <= 1)%Q.
Proof. destruct (range r) as [[_ H] _]. now apply Qlt_le_weak. Qed.

Lemma middleSequences_no_throw (targetLength : Z) :
  forall fuel resultingSequences charactersLength r e,
    fst (middleSequences R fuel probableMiddles targetLength
           resultingSequences charactersLength r) <> Throw e.
Proof.
  induction fuel as [|fuel IH]; intros acc len r e;
    rewrite middleSequences_eq;
    destruct (Z.of_nat len <? targetLength)%Z; try discriminate.
  unfold bind, rng_generate, lift.
  pose proof (draw_in_range r) as Hv.
  destruct (RandomSeeded.generate R None None r) as [value r1].
  simpl in Hv.
  destruct (built_table_draw _ _ _ value middles Hv) as [item ->].
  apply IH.
Qed.

Lemma _generateSingleWord_no_throw (fuel : nat) (minLength maxLength : jsnumber)
  (r : RandomSeeded.rng R) (e : error) :
  fst (_generateSingleWord R fuel probableBeginnings probableMiddles
         probableEndings minLength maxLength r) <> Throw e.
Proof.
  unfold _generateSingleWord, bind, rng_generate, lift, ret. cbv beta zeta.
  destruct (RandomSeeded.generate R minLength maxLength r) as [x r1].
  pose proof (draw_in_range r1) as Hb.
  destruct (RandomSeeded.generate R None None r1) as [rndBeginning r2].
  simpl in Hb.
  destruct (built_table_draw _ _ _ rndBeginning beginnings Hb) as [b ->].
  pose proof (draw_in_range r2) as He.
  destruct (RandomSeeded.generate R None None r2) as [rndEnding r3].
  simpl in He.
  destruct (built_table_draw _ _ _ rndEnding endings He) as [en ->].
  match goal with
  | |- context [middleSequences R fuel probableMiddles ?T ?acc ?len r3] =>
      pose proof (middleSequences_no_throw T fuel acc len r3 e) as Hmid;
      destruct (middleSequences R fuel probableMiddles T acc len r3)
        as [[result| |] r4]
  end; try discriminate.
  simpl in *. intro H. injection H as ->. now apply Hmid.
Qed.

End NoThrow.

(** A loop over the words whose attempts never throw, throws the plain
    error of the ceiling and no other. *)
Lemma generateWords_Throw_plain (R : RandomSeeded.t) (singleWord : M R string) :
  (forall r e, fst (singleWord r) <> Throw e) ->
  forall howMany words r e r',
    generateWords R singleWord howMany words r = (Throw e, r') ->
    e = MaxTriesExceeded.
Proof.
  intro Hsingle.
  induction howMany as [|howMany IH]; intros words r e r' H; [discriminate H|].
  rewrite generateWords_eq in H.
  destruct (uniqueWord R (S repetitionMaximum) singleWord words None 0 r)
    as [[wa| |] r1] eqn:Hword; try discriminate H.
  - exact (IH _ _ _ _ H).
  - injection H as <- <-.
    apply uniqueWord_run in Hword; [|lia|lia|exact I].
    destruct Hword as [[-> _] | (cause & r0 & _ & _ & _ & Hthrown)];
      [reflexivity|].
    exfalso. apply (Hsingle r0 cause). now rewrite Hthrown.
Qed.

(** X13.  With a generator of random numbers that keeps its draws in
    [[0,1)], a call of [generate] throws nothing but the [TypeError] of a
    table that cannot be built and the plain error of the ceiling of
    tries: a draw from a table that was built never fails, so the error
    "Failed to get item ..." is never thrown and the ceiling error never
    carries an inner cause. *)
Theorem generate_throws_TypeError_or_ceiling (R : RandomSeeded.t)
  (fuel : nat) (this : MarkovChainWordGenerator R) (howMany : nat) :
  in_range R ->
  forall e,
    fst (generate R fuel this howMany) = Throw e ->
    e = TypeError \/ e = MaxTriesExceeded.
Proof.
  intros Hrange e H. rewrite generate_eq in H.
  destruct (tables_cases R this) as [(b & m & en & Ht) | Ht]; rewrite Ht in H;
    [|injection H as <-; now left].
  destruct (generateWords R _ howMany [] (_rng R this))
    as [[words| |] r] eqn:Hwords; try discriminate H.
  injection H as <-. right.
  apply tables_built in Ht. cbv zeta in Ht. destruct Ht as (Hb & Hm & He).
  refine (generateWords_Throw_plain R _ _ howMany [] _ _ _ Hwords).
  intros r0 thrown.
  exact (_generateSingleWord_no_throw R _ b m en Hrange Hb Hm He
           fuel _ _ r0 thrown).
Qed.

Lemma generate_throws_TypeError_or_ceiling_witness :
  let R := TapeRandom in
  let this :=
    {| _sampleSet := testSampleSet;
       _targetLengthMin := Some 3%Q;
       _targetLengthMax := Some 3%Q;
       _seed := Some "0"%string;
       this_sequencingStrategy := CharDepthSequencingStrategy.strategy depthTwo;
       this_spellingStrategy := None;
       _rng := RandomSeeded.new R (Some "0"%string) |} in
  in_range R /\
  fst (generate R 100 this 2) = Throw MaxTriesExceeded /\
  (MaxTriesExceeded = TypeError \/ MaxTriesExceeded = MaxTriesExceeded).
Proof.
  intros R this.
  assert (Hrun : fst (generate R 100 this 2) = Throw MaxTriesExceeded)
    by (vm_compute; reflexivity).
  split; [exact TapeRandom_in_range|]. split; [exact Hrun|].
  exact (generate_throws_TypeError_or_ceiling R 100 this 2
           TapeRandom_in_range MaxTriesExceeded Hrun).
Defined.

(* ------------------------------------------------------------------ *)
(** ** The lengths of the words *)

Lemma Math_round_integer (z : Z) : Math_round (inject_Z z) = z.
Proof.
  unfold Math_round.
  pose proof (Qfloor_le (inject_Z z + (1 # 2))%Q) as Hle.
  pose proof (Qlt_floor (inject_Z z + (1 # 2))%Q) as Hlt.
  set (f := Qfloor (inject_Z z + (1 # 2))%Q) in *.
  unfold Qle, Qlt, Qplus, inject_Z in Hle, Hlt. simpl in Hle, Hlt. lia.
Qed.

Lemma last_or_nil {A} (l : list A) :
  l = [] \/ exists init final, l = init ++ [final].
Proof.
  destruct l as [|x l]; [now left | right].
  destruct (@exists_last A (x :: l)) as (init & final & H); [discriminate|].
  now exists init, final.
Qed.

(** The characters of a list of sequences, the last one set aside. *)
Lemma charsLength_last (init : list AggregatedSequence.t)
  (final : AggregatedSequence.t) :
  charsLength (init ++ [final])
  = charsLength init + String.length (AggregatedSequence.chars final).
Proof.
  rewrite charsLength_app, charsLength_cons. unfold charsLength. simpl. lia.
Qed.

(** A strategy of depth one or more cuts no sequence longer than the
    depth. *)
Lemma CharDepth_sequences_at_most_depth (this : CharDepthSequencingStrategy.t)
  (sampleSet : list string) :
  1 <= CharDepthSequencingStrategy.depth this ->
  forall t, In t (CharDepthSequencingStrategy.getSequencesOfSet this sampleSet) ->
            String.length (Sequence.chars t)
            <= CharDepthSequencingStrategy.depth this.
Proof.
  intros Hd t Hin. unfold CharDepthSequencingStrategy.getSequencesOfSet in Hin.
  apply in_flat_map in Hin as (sample & _ & Hin).
  apply In_nth_error in Hin as [k Hk].
  rewrite CharDepthFacts.getSequencesOfSample_nth_error in Hk by assumption.
  destruct (Nat.ltb_spec (k * CharDepthSequencingStrategy.depth this)
              (String.length sample)); [|discriminate].
  injection Hk as <-. rewrite CharDepthFacts.sequenceAt_length. lia.
Qed.

(** X14.  With a generator of random numbers that keeps to its bounds and
    integer bounds [lo <= hi] on the length, every word [generate] accepts
    has [lo] characters or more.  When no sequence of the samples has more
    than [D] characters, the word has at most [hi + D - 1] characters, or
    at most [2 * D] when that is more (a beginning and an ending are put
    together whatever the target). *)
Theorem generate_word_lengths (R : RandomSeeded.t) (fuel : nat)
  (this : MarkovChainWordGenerator R) (howMany : nat) (lo hi : Z) (D : nat)
  (words : list string) (this' : MarkovChainWordGenerator R) :
  in_range R ->
  _targetLengthMin R this = Some (inject_Z lo) ->
  _targetLengthMax R this = Some (inject_Z hi) ->
  (lo <= hi)%Z ->
  (forall t, In t (sequencesOf this) ->
             String.length (Sequence.chars t) <= D) ->
  generate R fuel this howMany = (Normal words, this') ->
  exists accepted,
    words = spell R this accepted /\
    forall w, In w accepted ->
      (lo <= Z.of_nat (String.length w)
       <= Z.max (2 * Z.of_nat D) (hi + Z.of_nat D - 1))%Z.
Proof.
  intros Hrange Hmin Hmax Hle Hshort H.
  assert (Hfst : fst (generate R fuel this howMany) = Normal words)
    by now rewrite H.
  apply generate_words in Hfst
    as (bs & ms & es & accepted & Ht & Hspell & Hwords).
  apply tables_built in Ht. cbv zeta in Ht. destruct Ht as (Hb & Hm & He).
  exists accepted. split; [exact Hspell|].
  intros w Hw. destruct (Hwords w Hw) as (r0 & r1 & Hsingle).
  rewrite Hmin, Hmax in Hsingle.
  apply _generateSingleWord_sound in Hsingle
    as (x & r2 & beginning & ending & r3 & middles & length'
        & Hx & Hbeginning & Hending & Hdraws & ->).
  (* the target *)
  assert (Htarget : (lo <= Math_round x <= hi)%Z).
  { destruct (Hrange r0) as [_ Hbounds].
    specialize (Hbounds (inject_Z lo) (inject_Z hi)).
    rewrite Hx in Hbounds. simpl in Hbounds.
    destruct Hbounds as [Hlo Hhi]; [now rewrite <- Zle_Qle|].
    apply Math_round_le in Hlo, Hhi.
    rewrite Math_round_integer in Hlo, Hhi. lia. }
  (* the pieces *)
  assert (Hpiece : forall type table o,
            _getWeightedProbabilities
              (_getAggregatedSequenceProbabilities
                 (_aggregateSequences (sequencesOf this))) type
            = Normal table ->
            In o table ->
            String.length
              (AggregatedSequence.chars (ProbabilityAndSequence.sequence o))
            <= D).
  { intros type table o Hbuilt Ho.
    destruct (table_entry_tagged _ _ _ _ Hbuilt Ho) as (t & Hin & <- & _).
    now apply Hshort. }
  pose proof (Hpiece _ _ _ Hb Hbeginning) as Hlb.
  pose proof (Hpiece _ _ _ He Hending) as Hle'.
  destruct (middleDraws_length _ _ _ _ _ _ _ _ Hdraws)
    as (Hlen & Hreached & Hlast).
  rewrite !string_length_append.
  fold (charsLength middles).
  set (lb := String.length
               (AggregatedSequence.chars
                  (ProbabilityAndSequence.sequence beginning))) in *.
  set (le := String.length
               (AggregatedSequence.chars
                  (ProbabilityAndSequence.sequence ending))) in *.
  split; [lia|].
  destruct (last_or_nil middles) as [-> | (init & final & ->)].
  - change (charsLength []) with 0. lia.
  - pose proof (Hlast init final eq_refl) as Hbelow.
    assert (Hfinal : String.length (AggregatedSequence.chars final) <= D).
    { destruct (middleDraws_In _ _ _ _ _ _ _ _ Hdraws final) as (o & Ho & <-);
        [apply in_or_app; right; now left|].
      exact (Hpiece _ _ _ Hm Ho). }
    rewrite charsLength_last in *. lia.
Qed.

Lemma generate_word_lengths_witness :
  let R := TapeRandom in
  let this :=
    {| _sampleSet := testSampleSet;
       _targetLengthMin := Some 3%Q;
       _targetLengthMax := Some 7%Q;
       _seed := Some testSeed;
       this_sequencingStrategy := CharDepthSequencingStrategy.strategy depthTwo;
       this_spellingStrategy := None;
       _rng := RandomSeeded.new R (Some testSeed) |} in
  let words := ["gobbboy"; "bobob"; "bob"]%string in
  in_range R /\
  (3 <= 7)%Z /\
  (forall t, In t (sequencesOf this) ->
             String.length (Sequence.chars t) <= 2) /\
  generate R 100 this 3 = (Normal words, snd (generate R 100 this 3)) /\
  exists accepted,
    words = spell R this accepted /\
    forall w, In w accepted ->
      (3 <= Z.of_nat (String.length w)
       <= Z.max (2 * Z.of_nat 2) (7 + Z.of_nat 2 - 1))%Z.
Proof.
  intros R this words.
  assert (Hrun : generate R 100 this 3
                 = (Normal words, snd (generate R 100 this 3)))
    by (vm_compute; reflexivity).
  assert (Hle : (3 <= 7)%Z) by lia.
  assert (Hshort : forall t, In t (sequencesOf this) ->
                             String.length (Sequence.chars t) <= 2).
  { apply (CharDepth_sequences_at_most_depth depthTwo testSampleSet).
    simpl. lia. }
  split; [exact TapeRandom_in_range|]. split; [exact Hle|].
  split; [exact Hshort|]. split; [exact Hrun|].
  exact (generate_word_lengths R 100 this 3 3 7 2 words _
           TapeRandom_in_range eq_refl eq_refl Hle Hshort Hrun).
Defined.

(* ------------------------------------------------------------------ *)
(** ** The sample sets a character-depth strategy can work with *)

Lemma sample_supplies (this : CharDepthSequencingStrategy.t) (sample : string) :
  1 <= CharDepthSequencingStrategy.depth this ->
  let d := CharDepthSequencingStrategy.depth this in
  let L := String.length sample in
  let sequences :=
    CharDepthSequencingStrategy.getSequencesOfSample this sample in
  ((exists t, In t sequences /\ Sequence.isBeginning t = true) <-> 1 <= L) /\
  ((exists t, In t sequences /\ Sequence.isMiddle t = true) <-> d + 2 <= L) /\
  ((exists t, In t sequences /\ Sequence.isEnding t = true) <->
   1 <= L /\ (d = 1 \/ L mod d = 1)).
Proof.
  intros Hd d L sequences.
  assert (Hnth : forall k,
            nth_error sequences k
            = if k * d <? L
              then Some (CharDepthSequencingStrategy.sequenceAt this sample (k * d))
              else None)
    by (intro k; apply CharDepthFacts.getSequencesOfSample_nth_error;
        exact Hd).
  assert (Hin : forall t, In t sequences ->
            exists k, k * d < L /\
                      t = CharDepthSequencingStrategy.sequenceAt this sample (k * d)).
  { intros t Ht. apply In_nth_error in Ht as [k Hk]. rewrite Hnth in Hk.
    destruct (Nat.ltb_spec (k * d) L); [|discriminate].
    injection Hk as <-. now exists k. }
  assert (Hat : forall k, k * d < L ->
            In (CharDepthSequencingStrategy.sequenceAt this sample (k * d))
               sequences).
  { intros k Hk. apply (nth_error_In _ k). rewrite Hnth.
    destruct (Nat.ltb_spec (k * d) L); [reflexivity | lia]. }
  assert (Hbeginning : forall i,
            Sequence.isBeginning
              (CharDepthSequencingStrategy.sequenceAt this sample i) = true
            <-> i = 0).
  { intro i. unfold CharDepthSequencingStrategy.sequenceAt. simpl.
    apply Nat.eqb_eq. }
  assert (Hmiddle : forall i,
            Sequence.isMiddle
              (CharDepthSequencingStrategy.sequenceAt this sample i) = true
            <-> i <> 0 /\ i + 1 < L).
  { intro i. unfold CharDepthSequencingStrategy.sequenceAt. simpl. fold L.
    destruct (Nat.eqb_spec i 0), (Nat.ltb_spec (i + 1) L); simpl;
      split; try discriminate; try lia; intros; reflexivity. }
  assert (Hending : forall i,
            Sequence.isEnding
              (CharDepthSequencingStrategy.sequenceAt this sample i) = true
            <-> L <= i + 1).
  { intro i. unfold CharDepthSequencingStrategy.sequenceAt. simpl. fold L.
    destruct (Nat.ltb_spec (i + 1) L); simpl;
      split; try discriminate; try lia; intros; reflexivity. }
  split; [|split].
  - split.
    + intros (t & Ht & _). destruct (Hin t Ht) as (k & Hk & _). lia.
    + intro HL. exists (CharDepthSequencingStrategy.sequenceAt this sample (0 * d)).
      split; [apply Hat; simpl; lia | now apply Hbeginning].
  - split.
    + intros (t & Ht & Htag). destruct (Hin t Ht) as (k & Hk & ->).
      apply Hmiddle in Htag as [Hne Hnext].
      destruct k as [|k]; [simpl in Hne; lia | nia].
    + intro HL. exists (CharDepthSequencingStrategy.sequenceAt this sample (1 * d)).
      split; [apply Hat; lia | apply Hmiddle; lia].
  - split.
    + intros (t & Ht & Htag). destruct (Hin t Ht) as (k & Hk & ->).
      apply Hending in Htag. split; [lia|].
      destruct (Nat.eq_dec d 1) as [H1|H1]; [now left | right].
      assert (HLk : L = 1 + k * d) by lia.
      rewrite HLk, Nat.Div0.mod_add. apply Nat.mod_small. lia.
    + intros [HL [H1|Hmod]].
      * exists (CharDepthSequencingStrategy.sequenceAt this sample ((L - 1) * d)).
        split; [apply Hat; lia | apply Hending; lia].
      * pose proof (Nat.div_mod_eq L d) as Hdiv. rewrite Hmod in Hdiv.
        exists (CharDepthSequencingStrategy.sequenceAt this sample ((L / d) * d)).
        split; [apply Hat; lia | apply Hending; lia].
Qed.

(** X15.  Which tags a sample supplies, for a strategy of depth [d >= 1]
    and a sample of [L] characters: a beginning when the sample is not
    empty, a middle when it has [d + 2] characters or more, an ending when
    it is not empty and [d = 1] or [L mod d = 1]. *)
Theorem getSequencesOfSample_supplies (this : CharDepthSequencingStrategy.t)
  (sample : string) :
  1 <= CharDepthSequencingStrategy.depth this ->
  let d := CharDepthSequencingStrategy.depth this in
  let L := String.length sample in
  let sequences :=
    CharDepthSequencingStrategy.getSequencesOfSample this sample in
  ((exists t, In t sequences /\ Sequence.isBeginning t = true) <-> 1 <= L) /\
  ((exists t, In t sequences /\ Sequence.isMiddle t = true) <-> d + 2 <= L) /\
  ((exists t, In t sequences /\ Sequence.isEnding t = true) <->
   1 <= L /\ (d = 1 \/ L mod d = 1)).
Proof. exact (sample_supplies this sample). Qed.

Lemma getSequencesOfSample_supplies_witness :
  let this := depthTwo in
  let sample := "Bob"%string in
  let sequences :=
    CharDepthSequencingStrategy.getSequencesOfSample this sample in
  1 <= CharDepthSequencingStrategy.depth this /\
  ((exists t, In t sequences /\ Sequence.isBeginning t = true) <-> 1 <= 3) /\
  ((exists t, In t sequences /\ Sequence.isMiddle t = true) <-> 2 + 2 <= 3) /\
  ((exists t, In t sequences /\ Sequence.isEnding t = true) <->
   1 <= 3 /\ (2 = 1 \/ 3 mod 2 = 1)).
Proof.
  intros this sample sequences.
  assert (Hd : 1 <= CharDepthSequencingStrategy.depth this) by (simpl; lia).
  split; [exact Hd|].
  exact (getSequencesOfSample_supplies this sample Hd).
Defined.

(** The tables of a call are built exactly when every type is the tag of
    some sequence. *)
Lemma tables_Normal_iff (R : RandomSeeded.t)
  (this : MarkovChainWordGenerator R) :
  tables R this <> Throw TypeError <->
  forall type, exists t, In t (sequencesOf this) /\ tagOf type t = true.
Proof.
  pose proof (table_built_iff (sequencesOf this)) as Hbuilt. cbv zeta in Hbuilt.
  split.
  - intros Hne type.
    destruct (tables_cases R this) as [(b & m & e & Ht) | Ht]; [|contradiction].
    apply tables_built in Ht. cbv zeta in Ht. destruct Ht as (Hb & Hm & He).
    apply (proj1 (Hbuilt type)). destruct type; eauto.
  - intros Hall Ht. apply tables_Throw_iff in Ht as [type Hnone].
    destruct (Hall type) as (t & Hin & Htag).
    rewrite (Hnone t Hin) in Htag. discriminate.
Qed.

(** X16.  With a character-depth strategy of depth [d >= 1], a call of
    [generate] gets past the building of its tables (it does not throw the
    [TypeError]) exactly when some sample has [d + 2] characters or more
    and some sample of [L >= 1] characters has [d = 1] or [L mod d = 1].
    (The sequences of a sample set are those of its samples put together,
    which is what the specification says of the abstract strategy.) *)
Theorem generate_CharDepth_usable_sample_set (R : RandomSeeded.t)
  (fuel : nat) (this : MarkovChainWordGenerator R)
  (strategy : CharDepthSequencingStrategy.t) (howMany : nat) :
  this_sequencingStrategy R this
  = CharDepthSequencingStrategy.strategy strategy ->
  1 <= CharDepthSequencingStrategy.depth strategy ->
  let d := CharDepthSequencingStrategy.depth strategy in
  fst (generate R fuel this howMany) <> Throw TypeError <->
  (exists s, In s (_sampleSet R this) /\ d + 2 <= String.length s) /\
  (exists s, In s (_sampleSet R this) /\
             1 <= String.length s /\ (d = 1 \/ String.length s mod d = 1)).
Proof.
  intros Hstrategy Hd d.
  rewrite generate_TypeError_iff, tables_Normal_iff.
  unfold sequencesOf. rewrite Hstrategy. simpl getSequencesOfSet.
  unfold CharDepthSequencingStrategy.getSequencesOfSet.
  assert (Hsome : forall type,
            (exists t, In t (flat_map
                               (CharDepthSequencingStrategy.getSequencesOfSample
                                  strategy) (_sampleSet R this))
                       /\ tagOf type t = true)
            <-> exists s, In s (_sampleSet R this) /\
                  exists t, In t (CharDepthSequencingStrategy.getSequencesOfSample
                                    strategy s)
                            /\ tagOf type t = true).
  { intro type. split.
    - intros (t & Hin & Htag). apply in_flat_map in Hin as (s & Hs & Ht).
      exists s. split; [exact Hs | now exists t].
    - intros (s & Hs & t & Ht & Htag). exists t. split; [|exact Htag].
      apply in_flat_map. now exists s. }
  split.
  - intro Hall. split.
    + apply (proj1 (Hsome MIDDLE)) in Hall as (s & Hs & Ht).
      apply (sample_supplies strategy s Hd) in Ht. now exists s.
    + apply (proj1 (Hsome ENDING)) in Hall as (s & Hs & Ht).
      apply (sample_supplies strategy s Hd) in Ht. now exists s.
  - intros [(s & Hs & HL) (s' & Hs' & HL')] type. apply Hsome.
    destruct type.
    + exists s. split; [exact Hs|].
      apply (sample_supplies strategy s Hd). fold d. lia.
    + exists s. split; [exact Hs|].
      now apply (sample_supplies strategy s Hd).
    + exists s'. split; [exact Hs'|].
      now apply (sample_supplies strategy s' Hd).
Qed.

Lemma generate_CharDepth_usable_sample_set_witness :
  let R := TapeRandom in
  let this :=
    {| _sampleSet := ["Gobo"; "Go"]%string;
       _targetLengthMin := Some 3%Q;
       _targetLengthMax := Some 7%Q;
       _seed := Some testSeed;
       this_sequencingStrategy := CharDepthSequencingStrategy.strategy depthTwo;
       this_spellingStrategy := None;
       _rng := RandomSeeded.new R (Some testSeed) |} in
  1 <= CharDepthSequencingStrategy.depth depthTwo /\
  fst (generate R 100 this 1) = Throw TypeError /\
  (fst (generate R 100 this 1) <> Throw TypeError <->
   (exists s, In s (_sampleSet R this) /\ 2 + 2 <= String.length s) /\
   (exists s, In s (_sampleSet R this) /\
              1 <= String.length s /\ (2 = 1 \/ String.length s mod 2 = 1))).
Proof.
  intros R this.
  assert (Hd : 1 <= CharDepthSequencingStrategy.depth depthTwo)
    by (simpl; lia).
  split; [exact Hd|]. split; [vm_compute; reflexivity|].
  exact (generate_CharDepth_usable_sample_set R 100 this depthTwo 1
           eq_refl Hd).
Defined.
